(** * Codis proxy: RESP frame decoder and slot router

    A shallow embedding of two parts of the proxy:
    - [pkg/proxy/redis/decoder.go]: the integer parser [Btoi64] and the
      [Decoder] with its two entry points [Decode] and [DecodeMultiBulk];
    - the router ([package proxy], type [Router]): [Start], [Close],
      [FillSlot], [fillSlot], [SwitchMasters], [trySwitchMaster], [dispatch].

    Go values are embedded as follows.  An [int64] is a [Z] whose arithmetic
    is wrapped by [wrap64]; a [byte] is [Byte.byte], read as a number through
    [byte_val]; a [[]byte] is a [list byte], and a nilable slice or pointer
    is an [option]; a Go [(value, error)] pair is a [res] when the value is
    the zero value on error, and a pair of options where the code returns
    both.  The router's array of slots is a [list Slot], its pools and the
    [masters] map are [gmap]s. *)

From Stdlib Require Import ZArith List Strings.Byte Strings.String Bool Lia.
From stdpp Require Import gmap strings list.

Local Open Scope Z_scope.
Set Warnings "-register-all".

(** ** Bytes and machine integers *)

Definition byte_val (c : byte) : Z := Z.of_N (Byte.to_N c).

Definition CR : byte := x0d.
Definition LF : byte := x0a.
Definition SP : byte := x20.
Definition CRLF : list byte := [CR; LF].

(** A Go string or byte-slice literal. *)
Definition bytes (s : string) : list byte := list_byte_of_string s.

(** Two's complement wrap-around of [int64], and the wrap-around of [uint8]. *)
Definition wrap64 (z : Z) : Z := (z + 2 ^ 63) mod 2 ^ 64 - 2 ^ 63.
Definition wrap8 (z : Z) : Z := z mod 256.

Definition is_digit (c : byte) : bool :=
  (byte_val "0" <=? byte_val c) && (byte_val c <=? byte_val "9").

(** ** Errors *)

(** The two causes of a [strconv.NumError]. *)
Inductive NumErr : Set := ErrSyntax | ErrRange.

(** The errors of the underlying [io.Reader]. *)
Inductive IOErr : Set := EOF | ErrUnexpectedEOF.

Inductive Error : Set :=
| ErrBadCRLFEnd
| ErrBadArrayLen
| ErrBadArrayLenTooLong
| ErrBadBulkBytesLen
| ErrBadBulkBytesLenTooLong
| ErrBadMultiBulkLen
| ErrBadMultiBulkContent
| ErrFailedDecoder
| ErrBadRespType (t : byte)
| ErrNum (e : NumErr)
| ErrIO (e : IOErr).

(** A Go [(value, error)] pair whose value is the zero value whenever the
    error is not nil.  [errors.Trace] only attaches a stack to the error it
    is given: it is the identity here. *)
Inductive res (A : Type) : Type :=
| Ret (a : A)
| Raise (e : Error).
Arguments Ret {A} a.
Arguments Raise {A} e.

Definition MaxBulkBytesLen : Z := 1024 * 1024 * 512.
Definition MaxArrayLen : Z := 1024 * 1024.

(** ** [strconv.ParseInt(s, 10, 64)]

    The Go standard library's parser, after its documentation and its loop:
    an optional sign, then [ParseUint] over the remaining bytes, which must
    be a non-empty run of decimal digits below [2^64]; the signed value must
    fit 64 bits. *)
Module strconv.

Definition maxUint64 : Z := 2 ^ 64 - 1.
Definition cutoff : Z := maxUint64 / 10 + 1.

Fixpoint ParseUint_loop (s : list byte) (n : Z) : NumErr + Z :=
  match s with
  | [] => inr n
  | c :: s' =>
      if is_digit c then
        let d := byte_val c - byte_val "0" in
        if cutoff <=? n then inl ErrRange
        else
          let n1 := n * 10 + d in
          if maxUint64 <? n1 then inl ErrRange else ParseUint_loop s' n1
      else inl ErrSyntax
  end.

Definition ParseUint (s : list byte) : NumErr + Z :=
  match s with
  | [] => inl ErrSyntax
  | _ => ParseUint_loop s 0
  end.

Definition ParseInt (s : list byte) : NumErr + Z :=
  match s with
  | [] => inl ErrSyntax
  | c :: s' =>
      let '(neg, digits) :=
        if Byte.eqb c "+" then (false, s')
        else if Byte.eqb c "-" then (true, s')
        else (false, s) in
      match ParseUint digits with
      | inl e => inl e
      | inr un =>
          if negb neg && (2 ^ 63 <=? un) then inl ErrRange
          else if neg && (2 ^ 63 <? un) then inl ErrRange
          else inr (if neg then - un else un)
      end
  end.

End strconv.

(** ** [Btoi64] *)

(** The digit loop of the fast path,
    [for ; i < len(b) && b[i] >= '0' && b[i] <= '9'; i++], run over the
    bytes from index [i] on; it returns the final [i] and [n]. *)
Fixpoint Btoi64_loop (rest : list byte) (i : Z) (n : Z) : Z * Z :=
  match rest with
  | [] => (i, n)
  | c :: rest' =>
      if is_digit c then
        Btoi64_loop rest' (i + 1)
          (wrap64 (wrap8 (byte_val c - byte_val "0") + wrap64 (n * 10)))
      else (i, n)
  end.

(** The fast path: [Some n] where the source returns [n, nil] from inside
    the first [if], [None] where control falls out of it. *)
Definition Btoi64_fast (b : list byte) : option Z :=
  let len := Z.of_nat (length b) in
  if negb (len =? 0) && (len <? 10) then
    let '(neg, i) :=
      match b with
      | c :: _ =>
          if Byte.eqb c "-" then (true, 1)
          else if Byte.eqb c "+" then (false, 1)
          else (false, 0)
      | [] => (false, 0)
      end in
    if negb (len =? i) then
      let '(i', n) := Btoi64_loop (skipn (Z.to_nat i) b) i 0 in
      if len =? i' then Some (if neg then wrap64 (- n) else n) else None
    else None
  else None.

Definition Btoi64 (b : list byte) : res Z :=
  match Btoi64_fast b with
  | Some n => Ret n
  | None =>
      match strconv.ParseInt b with
      | inl e => Raise (ErrNum e)
      | inr n => Ret n
      end
  end.

(** ** The buffered reader *)

(** Modelled from the spec: package [bufio2] is not among the sources at
    hand; the spec only says that the decoder "consumes bytes from a
    buffered reader".  A reader is the sequence of bytes the stream still
    holds, and reading past its end is [io.EOF].  [ReadByte], [PeekByte],
    [ReadBytes], [ReadSlice] and [ReadFull] behave as their namesakes of Go's
    [bufio] and [io]; the bound that the buffer size puts on the line
    [ReadSlice] can return is not modelled.  After an error the decoder never
    reads again, so what a failed read leaves behind is immaterial. *)
Module bufio2.

Definition Reader : Type := list byte.

Definition ReadByte (rd : Reader) : res byte * Reader :=
  match rd with
  | [] => (Raise (ErrIO EOF), [])
  | c :: rd' => (Ret c, rd')
  end.

Definition PeekByte (rd : Reader) : res byte * Reader :=
  match rd with
  | [] => (Raise (ErrIO EOF), [])
  | c :: _ => (Ret c, rd)
  end.

(** The bytes up to and including the first [delim], and what follows. *)
Fixpoint cut (delim : byte) (rd : Reader) : option (list byte * Reader) :=
  match rd with
  | [] => None
  | c :: rd' =>
      if Byte.eqb c delim then Some ([c], rd')
      else
        match cut delim rd' with
        | Some (line, rest) => Some (c :: line, rest)
        | None => None
        end
  end.

Definition ReadSlice (delim : byte) (rd : Reader) : res (list byte) * Reader :=
  match cut delim rd with
  | Some (line, rest) => (Ret line, rest)
  | None => (Raise (ErrIO EOF), [])
  end.

Definition ReadBytes (delim : byte) (rd : Reader) : res (list byte) * Reader :=
  ReadSlice delim rd.

(** [ReadFull(n)]: exactly [n] bytes, or the error of [io.ReadFull] (the
    decoder calls it with [n >= 2] only). *)
Definition ReadFull (n : Z) (rd : Reader) : res (list byte) * Reader :=
  if Z.of_nat (length rd) <? n then
    (Raise (ErrIO (match rd with [] => EOF | _ => ErrUnexpectedEOF end)), [])
  else (Ret (firstn (Z.to_nat n) rd), skipn (Z.to_nat n) rd).

End bufio2.

(** ** RESP frames *)

(** Modelled from the spec: the frame type of [resp.go], which is not among
    the sources at hand.  The tag is the first byte of the frame (spec,
    section 6): [+] simple string, [-] error, [:] integer, [$] bulk string,
    [*] array; a frame carries the tag, a byte value (nil for the null bulk)
    and an array (nil for the null array). *)
Definition RespType : Set := byte.
Definition TypeString : RespType := "+"%byte.
Definition TypeError : RespType := "-"%byte.
Definition TypeInt : RespType := ":"%byte.
Definition TypeBulkBytes : RespType := "$"%byte.
Definition TypeArray : RespType := "*"%byte.

Inductive Resp : Type :=
  mkResp (Typ : RespType) (Value : option (list byte)) (Array : option (list Resp)).

Definition Typ (r : Resp) : RespType := let '(mkResp t _ _) := r in t.
Definition Value (r : Resp) : option (list byte) := let '(mkResp _ v _) := r in v.
Definition Array (r : Resp) : option (list Resp) := let '(mkResp _ _ a) := r in a.

Definition NewBulkBytes (value : list byte) : Resp :=
  mkResp TypeBulkBytes (Some value) None.

(** The pair [(r, err)] that [decodeResp] returns: a frame and no error, or
    an error together with nil or with the frame as far as it was filled. *)
Inductive frame_res : Type :=
| Frame (r : Resp)
| Broken (r : option Resp) (e : Error).

(** The same pair as Go shows it to the caller. *)
Definition go_pair (fr : frame_res) : option Resp * option Error :=
  match fr with
  | Frame r => (Some r, None)
  | Broken r e => (r, Some e)
  end.

(** The outcome of a recursive procedure run with a bound on its depth. *)
Inductive fueled (A : Type) : Type :=
| Done (a : A)
| OutOfFuel.
Arguments Done {A} a.
Arguments OutOfFuel {A}.

(** ** The decoder *)

(** [b[i]] and [b[:n]] on byte slices, for indices the code has checked. *)
Definition at_ (b : list byte) (i : Z) : byte := nth (Z.to_nat i) b x00.
Definition upto (b : list byte) (n : Z) : list byte := firstn (Z.to_nat n) b.

Section DecoderProcedures.
Import bufio2.

Definition decodeTextBytes (rd : Reader) : res (list byte) * Reader :=
  match ReadBytes LF rd with
  | (Raise e, rd') => (Raise e, rd')
  | (Ret b, rd') =>
      let n := Z.of_nat (length b) - 2 in
      if (n <? 0) || negb (Byte.eqb (at_ b n) CR) then (Raise ErrBadCRLFEnd, rd')
      else (Ret (upto b n), rd')
  end.

Definition decodeInt (rd : Reader) : res Z * Reader :=
  match ReadSlice LF rd with
  | (Raise e, rd') => (Raise e, rd')
  | (Ret b, rd') =>
      let n := Z.of_nat (length b) - 2 in
      if (n <? 0) || negb (Byte.eqb (at_ b n) CR) then (Raise ErrBadCRLFEnd, rd')
      else (Btoi64 (upto b n), rd')
  end.

Definition decodeBulkBytes (rd : Reader) : res (option (list byte)) * Reader :=
  match decodeInt rd with
  | (Raise e, rd') => (Raise e, rd')
  | (Ret n, rd') =>
      if n <? -1 then (Raise ErrBadBulkBytesLen, rd')
      else if MaxBulkBytesLen <? n then (Raise ErrBadBulkBytesLenTooLong, rd')
      else if n =? -1 then (Ret None, rd')
      else
        match ReadFull (n + 2) rd' with
        | (Raise e, rd'') => (Raise e, rd'')
        | (Ret b, rd'') =>
            if negb (Byte.eqb (at_ b n) CR) || negb (Byte.eqb (at_ b (n + 1)) LF)
            then (Raise ErrBadCRLFEnd, rd'')
            else (Ret (Some (upto b n)), rd'')
        end
  end.

(** The element loop shared by [decodeArray] and [decodeMultiBulk]:
    [for i := range array] with [elem] decoding one element; the first
    error ends the loop and is returned with a nil slice. *)
Fixpoint decode_elems (elem : Reader -> fueled (res Resp * Reader))
    (count : nat) (rd : Reader) : fueled (res (list Resp) * Reader) :=
  match count with
  | O => Done (Ret [], rd)
  | S count' =>
      match elem rd with
      | OutOfFuel => OutOfFuel
      | Done (Raise e, rd') => Done (Raise e, rd')
      | Done (Ret r, rd') =>
          match decode_elems elem count' rd' with
          | OutOfFuel => OutOfFuel
          | Done (Raise e, rd'') => Done (Raise e, rd'')
          | Done (Ret rs, rd'') => Done (Ret (r :: rs), rd'')
          end
      end
  end.

(** What a caller that tests [err != nil] first sees of [decodeResp]. *)
Definition checked (out : fueled (frame_res * Reader)) : fueled (res Resp * Reader) :=
  match out with
  | OutOfFuel => OutOfFuel
  | Done (Broken _ e, rd') => Done (Raise e, rd')
  | Done (Frame r, rd') => Done (Ret r, rd')
  end.

(** [decodeArray], over the [decodeResp] of the nested frames. *)
Definition decodeArray_with
    (decodeResp : Reader -> fueled (frame_res * Reader))
    (rd : Reader) : fueled (res (option (list Resp)) * Reader) :=
  match decodeInt rd with
  | (Raise e, rd') => Done (Raise e, rd')
  | (Ret n, rd') =>
      if n <? -1 then Done (Raise ErrBadArrayLen, rd')
      else if MaxArrayLen <? n then Done (Raise ErrBadArrayLenTooLong, rd')
      else if n =? -1 then Done (Ret None, rd')
      else
        match decode_elems (fun rd => checked (decodeResp rd)) (Z.to_nat n) rd' with
        | OutOfFuel => OutOfFuel
        | Done (Raise e, rd'') => Done (Raise e, rd'')
        | Done (Ret array, rd'') => Done (Ret (Some array), rd'')
        end
  end.

(** [decodeResp] returns the pair [(r, err)] as the source does: with an
    error, [r] is nil when the tag byte cannot be read or is no tag, and
    the frame with only its tag set otherwise.  [fuel] bounds the nesting
    depth of arrays. *)
Fixpoint decodeResp (fuel : nat) (rd : Reader) : fueled (frame_res * Reader) :=
  match fuel with
  | O => OutOfFuel
  | S fuel' =>
      match ReadByte rd with
      | (Raise e, rd') => Done (Broken None e, rd')
      | (Ret b, rd') =>
          if Byte.eqb b TypeString || Byte.eqb b TypeError || Byte.eqb b TypeInt then
            match decodeTextBytes rd' with
            | (Ret v, rd'') => Done (Frame (mkResp b (Some v) None), rd'')
            | (Raise e, rd'') => Done (Broken (Some (mkResp b None None)) e, rd'')
            end
          else if Byte.eqb b TypeBulkBytes then
            match decodeBulkBytes rd' with
            | (Ret v, rd'') => Done (Frame (mkResp b v None), rd'')
            | (Raise e, rd'') => Done (Broken (Some (mkResp b None None)) e, rd'')
            end
          else if Byte.eqb b TypeArray then
            match decodeArray_with (decodeResp fuel') rd' with
            | OutOfFuel => OutOfFuel
            | Done (Ret a, rd'') => Done (Frame (mkResp b None a), rd'')
            | Done (Raise e, rd'') => Done (Broken (Some (mkResp b None None)) e, rd'')
            end
          else Done (Broken None (ErrBadRespType b), rd')
      end
  end.

Definition decodeArray (fuel : nat) : Reader -> fueled (res (option (list Resp)) * Reader) :=
  decodeArray_with (decodeResp fuel).

(** [b[l:r]]. *)
Definition slice (b : list byte) (l r : nat) : list byte :=
  firstn (r - l) (skipn l b).

(** The tokenizer loop of [decodeSingleLineMultiBulk],
    [for l, r := 0, 0; r <= len(b); r++], with [todo] iterations left. *)
Fixpoint split_loop (b : list byte) (todo : nat) (l r : nat) (multi : list Resp)
    : list Resp :=
  match todo with
  | O => multi
  | S todo' =>
      if (r =? length b)%nat || Byte.eqb (nth r b x00) SP then
        split_loop b todo' (r + 1)%nat (r + 1)%nat
          (if (l <? r)%nat then multi ++ [NewBulkBytes (slice b l r)] else multi)
      else split_loop b todo' l (r + 1)%nat multi
  end.

Definition decodeSingleLineMultiBulk (rd : Reader) : res (option (list Resp)) * Reader :=
  match decodeTextBytes rd with
  | (Raise e, rd') => (Raise e, rd')
  | (Ret b, rd') =>
      if (length b =? 0)%nat then (Ret None, rd')
      else
        let multi := split_loop b (S (length b)) 0 0 [] in
        if (length multi =? 0)%nat then (Raise ErrBadMultiBulkLen, rd')
        else (Ret (Some multi), rd')
  end.

(** One element of a multi-bulk request: a frame that must be a bulk. *)
Definition bulk_elem (fuel : nat) (rd : Reader) : fueled (res Resp * Reader) :=
  match checked (decodeResp fuel rd) with
  | OutOfFuel => OutOfFuel
  | Done (Raise e, rd') => Done (Raise e, rd')
  | Done (Ret r, rd') =>
      if negb (Byte.eqb (Typ r) TypeBulkBytes) then Done (Raise ErrBadMultiBulkContent, rd')
      else Done (Ret r, rd')
  end.

Definition decodeMultiBulk (fuel : nat) (rd : Reader)
    : fueled (res (option (list Resp)) * Reader) :=
  match PeekByte rd with
  | (Raise e, rd') => Done (Raise e, rd')
  | (Ret b, rd') =>
      if negb (Byte.eqb b TypeArray) then Done (decodeSingleLineMultiBulk rd')
      else
        match ReadByte rd' with
        | (Raise e, rd'') => Done (Raise e, rd'')
        | (Ret _, rd'') =>
            match decodeInt rd'' with
            | (Raise e, rd3) => Done (Raise e, rd3)
            | (Ret n, rd3) =>
                if n <=? 0 then Done (Raise ErrBadArrayLen, rd3)
                else if MaxArrayLen <? n then Done (Raise ErrBadArrayLenTooLong, rd3)
                else
                  match decode_elems (bulk_elem fuel) (Z.to_nat n) rd3 with
                  | OutOfFuel => OutOfFuel
                  | Done (Raise e, rd4) => Done (Raise e, rd4)
                  | Done (Ret multi, rd4) => Done (Ret (Some multi), rd4)
                  end
            end
        end
  end.

End DecoderProcedures.

(** The decoder: its reader and the sticky error. *)
Record Decoder : Type := mkDecoder { br : bufio2.Reader; Err : option Error }.

Definition NewDecoderBuffer (rd : bufio2.Reader) : Decoder :=
  {| br := rd; Err := None |}.

(** Every frame takes at least its tag byte from the reader, so arrays nest
    no deeper than the reader is long: this much fuel never runs out (see
    [decodeResp_enough_fuel]). *)
Definition enough (rd : bufio2.Reader) : nat := S (length rd).

Definition Decode (d : Decoder) : fueled ((option Resp * option Error) * Decoder) :=
  match Err d with
  | Some _ => Done ((None, Some ErrFailedDecoder), d)
  | None =>
      match decodeResp (enough (br d)) (br d) with
      | OutOfFuel => OutOfFuel
      | Done (fr, rd') =>
          let '(r, err) := go_pair fr in
          let d' := {| br := rd'; Err := match err with Some e => Some e | None => Err d end |} in
          Done ((r, Err d'), d')
      end
  end.

Definition DecodeMultiBulk (d : Decoder)
    : fueled ((option (list Resp) * option Error) * Decoder) :=
  match Err d with
  | Some _ => Done ((None, Some ErrFailedDecoder), d)
  | None =>
      match decodeMultiBulk (enough (br d)) (br d) with
      | OutOfFuel => OutOfFuel
      | Done (Ret m, rd') => Done ((m, None), {| br := rd'; Err := Err d |})
      | Done (Raise e, rd') => Done ((None, Some e), {| br := rd'; Err := Some e |})
      end
  end.

Definition DecodeFromBytes (p : list byte) := Decode (NewDecoderBuffer p).
Definition DecodeMultiBulkFromBytes (p : list byte) := DecodeMultiBulk (NewDecoderBuffer p).


(** ** Sequences of calls on one decoder *)

(** The two entry points of a decoder, and what a call to one returns. *)
Inductive Call : Set := CallDecode | CallDecodeMultiBulk.

Inductive Reply : Type :=
| ReplyResp (r : option Resp) (err : option Error)
| ReplyMulti (m : option (list Resp)) (err : option Error).

Definition reply_err (rep : Reply) : option Error :=
  match rep with
  | ReplyResp _ err => err
  | ReplyMulti _ err => err
  end.

Definition call (c : Call) (d : Decoder) : fueled (Reply * Decoder) :=
  match c with
  | CallDecode =>
      match Decode d with
      | OutOfFuel => OutOfFuel
      | Done ((r, err), d') => Done (ReplyResp r err, d')
      end
  | CallDecodeMultiBulk =>
      match DecodeMultiBulk d with
      | OutOfFuel => OutOfFuel
      | Done ((m, err), d') => Done (ReplyMulti m err, d')
      end
  end.

(** A sequence of calls on one decoder, with the replies in order. *)
Fixpoint calls (cs : list Call) (d : Decoder) : fueled (list Reply * Decoder) :=
  match cs with
  | [] => Done ([], d)
  | c :: cs' =>
      match call c d with
      | OutOfFuel => OutOfFuel
      | Done (rep, d') =>
          match calls cs' d' with
          | OutOfFuel => OutOfFuel
          | Done (reps, d'') => Done (rep :: reps, d'')
          end
      end
  end.

(** The reply [nil, ErrFailedDecoder] of each entry point. *)
Definition failed_reply (c : Call) : Reply :=
  match c with
  | CallDecode => ReplyResp None (Some ErrFailedDecoder)
  | CallDecodeMultiBulk => ReplyMulti None (Some ErrFailedDecoder)
  end.

(** A text without line feed. *)
Definition no_LF (text : list byte) : Prop :=
  Forall (fun c => Byte.eqb c LF = false) text.

(** A procedure that, on readers no longer than [bound], returns and does
    not lengthen the reader. *)
Definition returns_within {A : Type} (bound : nat)
    (f : bufio2.Reader -> fueled (A * bufio2.Reader)) : Prop :=
  forall rd, (length rd <= bound)%nat ->
    exists a rd', f rd = Done (a, rd') /\ (length rd' <= length rd)%nat.


(** * The router *)

(** Modelled from the spec: [models.MaxSlotNum], the fixed cardinality
    [N = 1024] of the slot space. *)
Definition MaxSlotNum : Z := 1024.

(** Modelled from the spec: the slot descriptor [models.Slot] of the control
    surface (section 6) and the two forwarding-kind tags; package [models]
    is not among the sources at hand.  The tags are two distinct integers,
    as the [switch] of [FillSlot] requires. *)
Module models.

Definition ForwardSync : Z := 0.
Definition ForwardSemiAsync : Z := 1.

Record Slot : Type := mkSlot {
  Id : Z;
  Locked : bool;
  Switched : bool;
  BackendAddr : string;
  BackendAddrGroupId : Z;
  MigrateFrom : string;
  MigrateFromGroupId : Z;
  ForwardMethod : Z;
  ReplicaGroups : list (list string)
}.

(** [&models.Slot{Id: i}]: every other field has its zero value. *)
Definition empty (i : Z) : Slot :=
  {| Id := i; Locked := false; Switched := false;
     BackendAddr := ""; BackendAddrGroupId := 0;
     MigrateFrom := ""; MigrateFromGroupId := 0;
     ForwardMethod := 0; ReplicaGroups := [] |}.

End models.

Inductive RouterError : Set :=
| ErrClosedRouter
| ErrInvalidSlotId
| ErrInvalidMethod.

(** The two implementations of the interface [forwardMethod]. *)
Inductive forwardMethod : Set := forwardSync | forwardSemiAsync.

(** Modelled from the spec: [GetId] of a forwarding method, its tag. *)
Definition GetId (method : forwardMethod) : Z :=
  match method with
  | forwardSync => models.ForwardSync
  | forwardSemiAsync => models.ForwardSemiAsync
  end.

(** Modelled from the spec: the shared backend pool (section 4.3), whose
    source is not at hand.  A pool interns its connections by address and
    counts the references to each: it is the map from the addresses in use
    to their counts.  A shared handle [*sharedBackendConn] is nil or stands
    for an address; [Retain] allocates the entry of an unknown address and
    increments the count of a known one, [Release] decrements, and reaching
    zero closes the connections and removes the entry; releasing nil does
    nothing. *)
Abbreviation sharedBackendConnPool := (gmap string nat).
Abbreviation sharedBackendConn := (option string).

Definition Retain (addr : string) (p : sharedBackendConnPool) : sharedBackendConnPool :=
  <[addr := S (default 0%nat (p !! addr))]> p.

Definition Release (bc : sharedBackendConn) (p : sharedBackendConnPool)
    : sharedBackendConnPool :=
  match bc with
  | None => p
  | Some addr =>
      match p !! addr with
      | Some (S (S n)) => <[addr := S n]> p
      | _ => delete addr p
      end
  end.

(** [bc.Addr()], the empty string for nil. *)
Definition Addr (bc : sharedBackendConn) : string := default ""%string bc.

(** Modelled from the spec: the routing cell [Slot] (section 3), whose
    source is not at hand, with the fields the router reads and writes:
    [slot.id], [slot.lock.hold], [slot.backend.bc], [slot.backend.id],
    [slot.migrate.bc], [slot.migrate.id], [slot.replicaGroups],
    [slot.method] and [slot.switched] (the last two as [slot_method] and
    [slot_switched]).  The count of requests in flight is
    not part of it: [blockAndWait] returns once they are drained. *)
Record Slot : Type := mkSlot {
  slot_id : Z;
  lock_hold : bool;
  backend_bc : sharedBackendConn;
  backend_id : Z;
  migrate_bc : sharedBackendConn;
  migrate_id : Z;
  replicaGroups : list (list string);
  slot_method : forwardMethod;
  slot_switched : bool
}.

(** Modelled from the spec: [snapshot] "returns a copy of the descriptor
    (ids, addresses, replica groups, forwarding kind, lock flag, switched
    flag) ...; never mutates". *)
Definition snapshot (slot : Slot) : models.Slot :=
  {| models.Id := slot_id slot;
     models.Locked := lock_hold slot;
     models.Switched := slot_switched slot;
     models.BackendAddr := Addr (backend_bc slot);
     models.BackendAddrGroupId := backend_id slot;
     models.MigrateFrom := Addr (migrate_bc slot);
     models.MigrateFromGroupId := migrate_id slot;
     models.ForwardMethod := GetId (slot_method slot);
     models.ReplicaGroups := replicaGroups slot |}.

(** What a reconfiguration does besides changing the router: it drains a
    slot behind its barrier ([blockAndWait]), reopens it ([unblock]) and
    writes a line to the log.  Each event names the slot by [slot.id]. *)
Inductive Event : Set :=
| EvBlockAndWait (id : Z)
| EvUnblock (id : Z)
| EvWarn (id : Z) (switched : bool).

Definition event_slot (ev : Event) : Z :=
  match ev with
  | EvBlockAndWait id => id
  | EvUnblock id => id
  | EvWarn id _ => id
  end.

(** The fields of [Config] the router reads. *)
Record Config : Type := mkConfig {
  BackendPrimaryOnly : bool;
  ProductAuth : string
}.

(** The router.  [trace] is not a field of the source: it records, latest
    first, the events of the reconfigurations run so far. *)
Record Router : Type := mkRouter {
  pool_primary : sharedBackendConnPool;
  pool_replica : sharedBackendConnPool;
  slots : list Slot;
  config : Config;
  online : bool;
  closed : bool;
  trace : list Event
}.

(** [s.slots[id]]: [None] stands for the panic of an index out of range. *)
Definition slot_at (id : Z) (cells : list Slot) : option Slot :=
  if id <? 0 then None else cells !! Z.to_nat id.

Definition NewRouter (cfg : Config) : Router :=
  {| pool_primary := ∅;
     pool_replica := ∅;
     slots :=
       map (fun i : nat =>
              {| slot_id := Z.of_nat i; lock_hold := false;
                 backend_bc := None; backend_id := 0;
                 migrate_bc := None; migrate_id := 0;
                 replicaGroups := []; slot_method := forwardSync; slot_switched := false |})
           (seq 0 (Z.to_nat MaxSlotNum));
     config := cfg;
     online := false;
     closed := false;
     trace := [] |}.

Definition Start (s : Router) : Router :=
  if closed s then s
  else {| pool_primary := pool_primary s; pool_replica := pool_replica s;
          slots := slots s; config := config s;
          online := true; closed := closed s; trace := trace s |}.

Definition isOnline (s : Router) : bool := online s && negb (closed s).

Definition HasSwitched (s : Router) : bool := existsb slot_switched (slots s).

(** The release of every connection of the replica groups of a slot. *)
Definition release_groups (groups : list (list string)) (p : sharedBackendConnPool)
    : sharedBackendConnPool :=
  fold_left (fun p group => fold_left (fun p bc => Release (Some bc) p) group p) groups p.

(** The loop over [m.ReplicaGroups]: every address of every group is
    retained, and the groups that are not empty are appended. *)
Definition retain_groups (groups : list (list string)) (p : sharedBackendConnPool)
    : list (list string) * sharedBackendConnPool :=
  fold_left
    (fun '(acc, p) addrs =>
       let p' := fold_left (fun p addr => Retain addr p) addrs p in
       if (length addrs =? 0)%nat then (acc, p') else (acc ++ [addrs], p'))
    groups ([], p).

(** [fillSlot], the reconfiguration of one slot.  [method] is [None] for a
    nil interface. *)
Definition fillSlot (m : models.Slot) (switched : bool) (method : option forwardMethod)
    (s : Router) : option Router :=
  match slot_at (models.Id m) (slots s) with
  | None => None
  | Some slot =>
      (* slot.blockAndWait() *)
      let tr := EvBlockAndWait (slot_id slot) :: trace s in
      (* the old handles are released *)
      let primary := Release (backend_bc slot) (pool_primary s) in
      let primary := Release (migrate_bc slot) primary in
      let replica := release_groups (replicaGroups slot) (pool_replica s) in
      (* the new ones are retained *)
      let addr := models.BackendAddr m in
      let '(bbc, bid, primary) :=
        if negb (String.length addr =? 0)%nat
        then (Some addr, models.BackendAddrGroupId m, Retain addr primary)
        else (None, 0, primary) in
      let from := models.MigrateFrom m in
      let '(mbc, mid, primary) :=
        if negb (String.length from =? 0)%nat
        then (Some from, models.MigrateFromGroupId m, Retain from primary)
        else (None, 0, primary) in
      let '(groups, replica) :=
        if negb (BackendPrimaryOnly (config s))
        then retain_groups (models.ReplicaGroups m) replica
        else ([], replica) in
      let method' := match method with Some f => f | None => slot_method slot end in
      (* if !m.Locked { slot.unblock() } *)
      let hold := if negb (models.Locked m) then false else true in
      let tr := if negb (models.Locked m) then EvUnblock (slot_id slot) :: tr else tr in
      let tr := if negb (closed s) then EvWarn (slot_id slot) switched :: tr else tr in
      let slot' :=
        {| slot_id := slot_id slot; lock_hold := hold;
           backend_bc := bbc; backend_id := bid;
           migrate_bc := mbc; migrate_id := mid;
           replicaGroups := groups; slot_method := method'; slot_switched := switched |} in
      Some {| pool_primary := primary; pool_replica := replica;
              slots := <[Z.to_nat (models.Id m) := slot']> (slots s);
              config := config s; online := online s; closed := closed s;
              trace := tr |}
  end.

(** [FillSlot], the entry point of the topology controller. *)
Definition FillSlot (m : models.Slot) (s : Router) : option (Router * option RouterError) :=
  if closed s then Some (s, Some ErrClosedRouter)
  else if (models.Id m <? 0) || (MaxSlotNum <=? models.Id m) then Some (s, Some ErrInvalidSlotId)
  else
    let method :=
      if models.ForwardMethod m =? models.ForwardSync then Some forwardSync
      else if models.ForwardMethod m =? models.ForwardSemiAsync then Some forwardSemiAsync
      else None in
    match method with
    | None => Some (s, Some ErrInvalidMethod)
    | Some f =>
        match fillSlot m false (Some f) s with
        | None => None
        | Some s' => Some (s', None)
        end
    end.

(** [for _, i := range l { step(i) }]; a panic ends the loop. *)
Fixpoint for_each (step : Z -> Router -> option Router) (l : list nat) (s : Router)
    : option Router :=
  match l with
  | [] => Some s
  | i :: l' =>
      match step (Z.of_nat i) s with
      | None => None
      | Some s' => for_each step l' s'
      end
  end.

(** [for i := range s.slots { step(i) }]: the step at every index of the
    array in turn. *)
Definition for_range_slots (step : Z -> Router -> option Router) (s : Router)
    : option Router :=
  for_each step (seq 0 (length (slots s))) s.

Definition Close (s : Router) : option Router :=
  if closed s then Some s
  else
    let s1 := {| pool_primary := pool_primary s; pool_replica := pool_replica s;
                 slots := slots s; config := config s;
                 online := online s; closed := true; trace := trace s |} in
    for_range_slots (fun i => fillSlot (models.empty i) false None) s1.

Definition KeepAlive (s : Router) : Router * option RouterError :=
  if closed s then (s, Some ErrClosedRouter) else (s, None).

(** Modelled from the spec: the info cache of package [redis], queried by
    [GetRunId].  For the time of one call it is a function from addresses
    to run-ids, the empty string standing for a run-id that could not be
    determined (the probe failed or timed out). *)
Definition InfoCache : Type := string -> string.

Definition GetRunId (cache : InfoCache) (addr : string) : string := cache addr.

(** [masters[id]]: the empty string when the map has no such key. *)
Definition masters_at (masters : gmap Z string) (gid : Z) : string :=
  default ""%string (masters !! gid).

(** The closure [hasSameRunId] of [trySwitchMaster]. *)
Definition hasSameRunId (cache : InfoCache) (addr1 addr2 : string) : bool :=
  if negb (String.eqb addr1 addr2) then
    let rid1 := GetRunId cache addr1 in
    let rid2 := GetRunId cache addr2 in
    negb (String.eqb rid1 "") && String.eqb rid1 rid2
  else true.

(** The descriptor and the flag [switched] that [trySwitchMaster] has
    computed when it reaches [if switched]. *)
Definition switch_plan (masters : gmap Z string) (cache : InfoCache) (m : models.Slot)
    : models.Slot * bool :=
  let switched := false in
  let '(m, switched) :=
    let addr := masters_at masters (models.BackendAddrGroupId m) in
    if negb (String.eqb addr "") && negb (hasSameRunId cache addr (models.BackendAddr m))
    then ({| models.Id := models.Id m; models.Locked := models.Locked m;
             models.Switched := models.Switched m;
             models.BackendAddr := addr;
             models.BackendAddrGroupId := models.BackendAddrGroupId m;
             models.MigrateFrom := models.MigrateFrom m;
             models.MigrateFromGroupId := models.MigrateFromGroupId m;
             models.ForwardMethod := models.ForwardMethod m;
             models.ReplicaGroups := models.ReplicaGroups m |}, true)
    else (m, switched) in
  let addr := masters_at masters (models.MigrateFromGroupId m) in
  if negb (String.eqb addr "") && negb (hasSameRunId cache addr (models.MigrateFrom m))
  then ({| models.Id := models.Id m; models.Locked := models.Locked m;
           models.Switched := models.Switched m;
           models.BackendAddr := models.BackendAddr m;
           models.BackendAddrGroupId := models.BackendAddrGroupId m;
           models.MigrateFrom := addr;
           models.MigrateFromGroupId := models.MigrateFromGroupId m;
           models.ForwardMethod := models.ForwardMethod m;
           models.ReplicaGroups := models.ReplicaGroups m |}, true)
  else (m, switched).

Definition trySwitchMaster (id : Z) (masters : gmap Z string) (cache : InfoCache)
    (s : Router) : option Router :=
  match slot_at id (slots s) with
  | None => None
  | Some slot =>
      let '(m, switched) := switch_plan masters cache (snapshot slot) in
      if switched then fillSlot m true None s else Some s
  end.

(** [SwitchMasters]; [cache] is what the probes of this call answer. *)
Definition SwitchMasters (masters : gmap Z string) (cache : InfoCache) (s : Router)
    : option (Router * option RouterError) :=
  if closed s then Some (s, Some ErrClosedRouter)
  else
    match for_range_slots (fun i => trySwitchMaster i masters cache) s with
    | None => None
    | Some s' => Some (s', None)
    end.

(** The array [[MaxSlotNum]Slot] of a router has [MaxSlotNum] cells. *)
Definition full_array (s : Router) : Prop :=
  length (slots s) = Z.to_nat MaxSlotNum.

(** [NewRouter] numbers the cells, and nothing in the router renumbers
    them: the cell at index [i] has [slot.id = i]. *)
Definition wf_router (s : Router) : Prop :=
  full_array s
  /\ forall (i : nat) (slot : Slot), slots s !! i = Some slot -> slot_id slot = Z.of_nat i.

(** The code of [trySwitchMaster] leaves a group alone when [masters] has no
    address for it, or the address the slot holds, or another address whose
    run-id is known and is the run-id of the address the slot holds. *)
Definition same_master (masters : gmap Z string) (cache : InfoCache)
    (gid : Z) (current : string) : Prop :=
  let addr := masters_at masters gid in
  addr = ""%string \/ addr = current
  \/ (GetRunId cache addr <> ""%string /\ GetRunId cache addr = GetRunId cache current).

(** ** Dispatch *)

Section Dispatch.

(** The request, the extraction of its hash key, the hash ([uint32], a
    natural number) and the forwarding of a request by one slot belong to
    files that are not at hand ([request.go], [mapper.go], [slots.go]):
    they are parameters.  [forward] works on the slot it is called on. *)
Variable Request : Type.
Variable getHashKey : Request -> list byte.
Variable Hash : list byte -> N.
Variable forward : Slot -> Request -> option (list byte) -> Slot * option RouterError.

Definition with_slot (id : Z) (slot : Slot) (s : Router) : Router :=
  {| pool_primary := pool_primary s; pool_replica := pool_replica s;
     slots := <[Z.to_nat id := slot]> (slots s);
     config := config s; online := online s; closed := closed s; trace := trace s |}.

Definition dispatch (r : Request) (s : Router) : option (Router * option RouterError) :=
  let hkey := getHashKey r in
  let id := Z.of_N (Hash hkey) mod MaxSlotNum in
  match slot_at id (slots s) with
  | None => None
  | Some slot =>
      let '(slot', err) := forward slot r (Some hkey) in
      Some (with_slot id slot' s, err)
  end.

Definition dispatchSlot (r : Request) (id : Z) (s : Router)
    : option (Router * option RouterError) :=
  if (id <? 0) || (MaxSlotNum <=? id) then Some (s, Some ErrInvalidSlotId)
  else
    match slot_at id (slots s) with
    | None => None
    | Some slot =>
        let '(slot', err) := forward slot r None in
        Some (with_slot id slot' s, err)
    end.

(** The operations of a router, and a run of them in sequence. *)
Inductive Op : Type :=
| OpStart
| OpClose
| OpFillSlot (m : models.Slot)
| OpSwitchMasters (masters : gmap Z string) (cache : InfoCache)
| OpKeepAlive
| OpDispatch (r : Request)
| OpDispatchSlot (r : Request) (id : Z).

Definition step (op : Op) (s : Router) : option Router :=
  match op with
  | OpStart => Some (Start s)
  | OpClose => Close s
  | OpFillSlot m => fst <$> FillSlot m s
  | OpSwitchMasters masters cache => fst <$> SwitchMasters masters cache s
  | OpKeepAlive => Some (fst (KeepAlive s))
  | OpDispatch r => fst <$> dispatch r s
  | OpDispatchSlot r id => fst <$> dispatchSlot r id s
  end.

Fixpoint run (ops : list Op) (s : Router) : option Router :=
  match ops with
  | [] => Some s
  | op :: ops' =>
      match step op s with
      | None => None
      | Some s' => run ops' s'
      end
  end.

End Dispatch.

(** ** Example configurations *)

Module example.

Definition cfg : Config := {| BackendPrimaryOnly := false; ProductAuth := "" |}.

(** Slot 0 bound to the primary [10.0.0.1] of group 1, with two replica
    groups. *)
Definition desc : models.Slot :=
  {| models.Id := 0; models.Locked := false; models.Switched := false;
     models.BackendAddr := "10.0.0.1"; models.BackendAddrGroupId := 1;
     models.MigrateFrom := ""; models.MigrateFromGroupId := 0;
     models.ForwardMethod := models.ForwardSync;
     models.ReplicaGroups := [["10.0.1.1"; "10.0.1.2"]; ["10.0.1.1"]] |}%string.

(** A new router after [FillSlot(desc)]. *)
Definition router : Router :=
  match FillSlot desc (NewRouter cfg) with
  | Some (s, _) => s
  | None => NewRouter cfg
  end.

(** The cell 0 of [router]. *)
Definition slot0 : Slot :=
  {| slot_id := 0; lock_hold := false;
     backend_bc := Some "10.0.0.1"; backend_id := 1;
     migrate_bc := None; migrate_id := 0;
     replicaGroups := [["10.0.1.1"; "10.0.1.2"]; ["10.0.1.1"]];
     slot_method := forwardSync; slot_switched := false |}%string.

(** An info cache that cannot determine any run-id. *)
Definition unknown : InfoCache := fun _ => ""%string.

(** An info cache that reports a run-id for [10.0.0.1] only. *)
Definition restarted : InfoCache :=
  fun addr => if String.eqb addr "10.0.0.1" then "run-id-after-restart"%string else ""%string.

(** Requests as lists of words, keyed by their second word and hashed by
    its length: stand-ins for the parameters of [dispatch]. *)
Definition Request : Type := list (list byte).
Definition getHashKey (r : Request) : list byte := nth 1 r [].
Definition Hash (key : list byte) : N := N.of_nat (length key).
Definition forward (slot : Slot) (r : Request) (hkey : option (list byte))
    : Slot * option RouterError :=
  (slot, match backend_bc slot with Some _ => None | None => Some ErrInvalidMethod end).

End example.

(** * Further definitions *)

(** ** Decimal numerals and frames on the wire *)

Definition all_digits (ds : list byte) : Prop :=
  Forall (fun c => is_digit c = true) ds.

(** The number a run of decimal digits denotes, read after the digits that
    denote [n]. *)
Definition decimal_from (n : Z) (ds : list byte) : Z :=
  fold_left (fun acc c => acc * 10 + (byte_val c - byte_val "0")) ds n.

Definition decimal_value (ds : list byte) : Z := decimal_from 0 ds.

(** The tags of the frames that hold one line of text, and all five tags. *)
Definition is_text_tag (tag : byte) : Prop :=
  tag = TypeString \/ tag = TypeError \/ tag = TypeInt.

Definition is_frame_tag (tag : byte) : Prop :=
  is_text_tag tag \/ tag = TypeBulkBytes \/ tag = TypeArray.

(** [chunk] is the wire form of the frame [r] for [decodeResp]: read in
    front of any other bytes, it decodes to [r] and leaves those bytes. *)
Definition decodes_to (chunk : list byte) (r : Resp) : Prop :=
  forall rest : list byte,
    decodeResp (enough (chunk ++ rest)) (chunk ++ rest) = Done (Frame r, rest).

(** The words of a line: its maximal runs of bytes other than the space,
    [cur] being the word under way. *)
Fixpoint fields_from (cur : list byte) (b : list byte) : list (list byte) :=
  match b with
  | [] => match cur with [] => [] | _ => [cur] end
  | c :: b' =>
      if Byte.eqb c SP then
        match cur with
        | [] => fields_from [] b'
        | _ => cur :: fields_from [] b'
        end
      else fields_from (cur ++ [c]) b'
  end.

Definition fields (b : list byte) : list (list byte) := fields_from [] b.

(** A line of words: [lead] spaces, the word [first], then each further
    word after one space and [k] more, and [trail] spaces at the end. *)
Definition inline_line (lead : nat) (first : list byte) (more : list (nat * list byte))
    (trail : nat) : list byte :=
  repeat SP lead ++ first
  ++ concat (map (fun kw : nat * list byte => repeat SP (S (fst kw)) ++ snd kw) more)
  ++ repeat SP trail.

(** A word of an inline command: not empty, without space or line feed. *)
Definition is_word (w : list byte) : Prop :=
  w <> [] /\ ~ In SP w /\ ~ In LF w.

(** ** Snapshots of the router *)

(** [GetSlot]: nil for an id out of range, else the snapshot of the cell.
    The outer [None] stands for the panic of an index out of range, which a
    whole array excludes. *)
Definition GetSlot (id : Z) (s : Router) : option (option models.Slot) :=
  if (id <? 0) || (MaxSlotNum <=? id) then Some None
  else
    match slot_at id (slots s) with
    | None => None
    | Some slot => Some (Some (snapshot slot))
    end.

(** [GetSlots]: the snapshots of all cells, in order. *)
Definition GetSlots (s : Router) : list models.Slot := map snapshot (slots s).

(** ** The handles a router holds *)

(** The handles of a slot on connections of the primary pool (its backend
    and its migration source) and of the replica pool (the members of its
    replica groups). *)
Definition primary_handles (slot : Slot) : list string :=
  match backend_bc slot with Some a => [a] | None => [] end
  ++ match migrate_bc slot with Some a => [a] | None => [] end.

Definition replica_handles (slot : Slot) : list string := concat (replicaGroups slot).

(** How many of the handles [l] are on the address [a]. *)
Definition count_of (a : string) (l : list string) : nat :=
  length (filter (fun x => x = a) l).

(** The pool [p] holds exactly the addresses with a count, each with it. *)
Definition counts (p : gmap string nat) (f : string -> nat) : Prop :=
  forall a : string, p !! a = if decide (f a = 0%nat) then None else Some (f a).

(** The pool [p] counts exactly the handles that the slots [cells] hold
    according to [handles]: an address is in the pool when some slot holds a
    handle on it, with the number of these handles as its count. *)
Definition pool_counts (p : gmap string nat) (handles : Slot -> list string)
    (cells : list Slot) : Prop :=
  forall a : string,
    p !! a = (let c := count_of a (concat (map handles cells)) in
              if decide (c = 0%nat) then None else Some c).

Definition balanced (s : Router) : Prop :=
  pool_counts (pool_primary s) primary_handles (slots s)
  /\ pool_counts (pool_replica s) replica_handles (slots s).

(** The shape [fillSlot] gives a slot: a handle is on a non-empty address,
    a group id without a handle is zero, no replica group is empty, and
    there is none when the configuration asks for primaries only. *)
Definition slot_normal (cfg : Config) (slot : Slot) : Prop :=
  backend_bc slot <> Some ""%string
  /\ (backend_bc slot = None -> backend_id slot = 0)
  /\ migrate_bc slot <> Some ""%string
  /\ (migrate_bc slot = None -> migrate_id slot = 0)
  /\ Forall (fun group => group <> []) (replicaGroups slot)
  /\ (BackendPrimaryOnly cfg = true -> replicaGroups slot = []).

(** The invariant of a router. *)
Definition router_inv (s : Router) : Prop :=
  wf_router s /\ balanced s /\ Forall (slot_normal (config s)) (slots s).

(** The slot that [fillSlot] installs in place of [slot]. *)
Definition filled (cfg : Config) (m : models.Slot) (switched : bool)
    (method : option forwardMethod) (slot : Slot) : Slot :=
  let addr := models.BackendAddr m in
  let from := models.MigrateFrom m in
  {| slot_id := slot_id slot;
     lock_hold := models.Locked m;
     backend_bc := if (String.length addr =? 0)%nat then None else Some addr;
     backend_id := if (String.length addr =? 0)%nat then 0 else models.BackendAddrGroupId m;
     migrate_bc := if (String.length from =? 0)%nat then None else Some from;
     migrate_id := if (String.length from =? 0)%nat then 0 else models.MigrateFromGroupId m;
     replicaGroups :=
       if BackendPrimaryOnly cfg then []
       else filter (fun group => group <> []) (models.ReplicaGroups m);
     slot_method := match method with Some f => f | None => slot_method slot end;
     slot_switched := switched |}.

(** A slot with no connection, open and not switched. *)
Definition is_empty (slot : Slot) : Prop :=
  backend_bc slot = None /\ backend_id slot = 0
  /\ migrate_bc slot = None /\ migrate_id slot = 0
  /\ replicaGroups slot = [] /\ lock_hold slot = false /\ slot_switched slot = false.

(** What a master switch may do to a slot: nothing, or new addresses for
    its backend or migration source together with [switched = true]; the
    ids, the lock, the replica groups and the method stay. *)
Definition switch_only (masters : gmap Z string) (slot slot' : Slot) : Prop :=
  slot_id slot' = slot_id slot
  /\ lock_hold slot' = lock_hold slot
  /\ backend_id slot' = backend_id slot
  /\ migrate_id slot' = migrate_id slot
  /\ replicaGroups slot' = replicaGroups slot
  /\ slot_method slot' = slot_method slot
  /\ (backend_bc slot' = backend_bc slot
      \/ backend_bc slot' = Some (masters_at masters (backend_id slot)))
  /\ (migrate_bc slot' = migrate_bc slot
      \/ migrate_bc slot' = Some (masters_at masters (migrate_id slot)))
  /\ (slot' = slot \/ slot_switched slot' = true).

(** ** The tuning of [GOMAXPROCS] ([cmd/proxy/main.go]) *)

(** One reading of [utils.CPUUsage] in [AutoGOMAXPROCS], as the loop sees
    it: an error, or a usage per processor that is below 0.30, above 0.70 or
    neither (the two floating-point comparisons of the [switch]). *)
Inductive Reading : Set := ReadingError | Below30 | Above70 | Between.

(** The sampling loop [for i := 0; i < len(usage) && more == 0; i++] from
    index [i] on, with [todo] indices left and [reading i] the reading taken
    at index [i]; it returns [less] and [more]. *)
Fixpoint usage_loop (min max ncpu : Z) (reading : nat -> Reading) (i todo : nat)
    (less more : Z) : Z * Z :=
  match todo with
  | O => (less, more)
  | S todo' =>
      if negb (more =? 0) then (less, more)
      else
        match reading i with
        | ReadingError => usage_loop min max ncpu reading (S i) todo' less more
        | Below30 =>
            if min <? ncpu then usage_loop min max ncpu reading (S i) todo' (less + 1) more
            else usage_loop min max ncpu reading (S i) todo' less more
        | Above70 =>
            if ncpu <? max then usage_loop min max ncpu reading (S i) todo' less (more + 1)
            else usage_loop min max ncpu reading (S i) todo' less more
        | Between => usage_loop min max ncpu reading (S i) todo' less more
        end
  end.

(** One round of [AutoGOMAXPROCS(min, max)]: the value [nn] it computes from
    the current [ncpu] and the ten readings of the round ([GOMAXPROCS] is
    set to it when it differs from [ncpu]). *)
Definition AutoGOMAXPROCS_round (min max ncpu : Z) (reading : nat -> Reading) : Z :=
  let '(less, more) := usage_loop min max ncpu reading 0 10 0 0 in
  if negb (more =? 0) then wrap64 (ncpu + Z.quot (wrap64 (wrap64 (max - ncpu) + 3)) 4)
  else if less =? 10 then wrap64 (ncpu - 1)
  else ncpu.
(** * Properties of the decoder *)

(** ** [Btoi64] against [strconv.ParseInt] *)

Lemma wrap64_small (z : Z) : - 2 ^ 63 <= z < 2 ^ 63 -> wrap64 z = z.
Proof.
  intros Hz. unfold wrap64.
  rewrite Z.mod_small by lia. lia.
Qed.

Lemma is_digit_range (c : byte) :
  is_digit c = true -> 0 <= byte_val c - byte_val "0" <= 9.
Proof.
  unfold is_digit. rewrite andb_true_iff, !Z.leb_le.
  change (byte_val "0") with 48. change (byte_val "9") with 57. lia.
Qed.

(** When the fast path's loop reaches the end of the slice, [ParseUint]'s
    loop accepts the same digits with the same value: nine digits cannot
    overflow. *)
Lemma Btoi64_loop_ParseUint (ds : list byte) : forall (i n : Z),
  0 <= n ->
  (n + 1) * 10 ^ Z.of_nat (length ds) <= 10 ^ 9 ->
  fst (Btoi64_loop ds i n) = i + Z.of_nat (length ds) ->
  strconv.ParseUint_loop ds n = inr (snd (Btoi64_loop ds i n))
  /\ 0 <= snd (Btoi64_loop ds i n) < 10 ^ 9.
Proof.
  induction ds as [|c ds IH]; intros i n Hn Hbound Hend.
  - simpl in *. split; [reflexivity | lia].
  - cbn [Btoi64_loop strconv.ParseUint_loop] in *.
    destruct (is_digit c) eqn:Hc.
    + pose proof (is_digit_range c Hc) as Hd.
      assert (Hpow : 1 <= 10 ^ Z.of_nat (length ds)) by (apply Z.pow_le_mono_r with (b := 0); lia).
      assert (Hlen : 10 ^ Z.of_nat (length (c :: ds)) = 10 * 10 ^ Z.of_nat (length ds)).
      { cbn [length]. rewrite Nat2Z.inj_succ, Z.pow_succ_r by lia. reflexivity. }
      rewrite Hlen in Hbound.
      assert (Hsmall : n < 10 ^ 9) by nia.
      unfold wrap8 in *. rewrite (Z.mod_small (byte_val c - byte_val "0")) in * by lia.
      rewrite (wrap64_small (n * 10)) in * by lia.
      rewrite (wrap64_small (byte_val c - byte_val "0" + n * 10)) in * by lia.
      replace (byte_val c - byte_val "0" + n * 10) with (n * 10 + (byte_val c - byte_val "0")) in * by lia.
      assert (Hcut : (strconv.cutoff <=? n) = false).
      { apply Z.leb_gt. unfold strconv.cutoff, strconv.maxUint64.
        change (2 ^ 64 - 1) with 18446744073709551615.
        change (18446744073709551615 / 10) with 1844674407370955161. lia. }
      assert (Hmax : (strconv.maxUint64 <? n * 10 + (byte_val c - byte_val "0")) = false).
      { apply Z.ltb_ge. unfold strconv.maxUint64. lia. }
      cbv zeta. rewrite Hcut, Hmax.
      apply IH.
      * lia.
      * nia.
      * rewrite Hend. cbn [length]. lia.
    + cbn [fst length] in Hend. lia.
Qed.

Lemma pow10_le (k : nat) : (k <= 9)%nat -> 10 ^ Z.of_nat k <= 10 ^ 9.
Proof. intros Hk. apply Z.pow_le_mono_r; lia. Qed.

(** Whatever the fast path returns is what [ParseInt] returns. *)
Lemma Btoi64_fast_sound (b : list byte) (n : Z) :
  Btoi64_fast b = Some n -> strconv.ParseInt b = inr n.
Proof.
  unfold Btoi64_fast.
  destruct (negb (Z.of_nat (length b) =? 0) && (Z.of_nat (length b) <? 10)) eqn:Hlen;
    [|discriminate].
  apply andb_true_iff in Hlen as [Hne Hlt].
  apply Z.ltb_lt in Hlt.
  destruct b as [|c b]; [discriminate|].
  cbn [length] in Hlt.
  unfold strconv.ParseInt.
  destruct (Byte.eqb c "-") eqn:Hminus.
  - apply byte_dec_bl in Hminus. subst c.
    change (Byte.eqb "-" "+") with false. cbv iota.
    change (skipn (Z.to_nat 1) ("-"%byte :: b)) with b.
    destruct (negb (Z.of_nat (length ("-"%byte :: b)) =? 1)) eqn:Hone; [|discriminate].
    destruct (Btoi64_loop b 1 0) as [i' n'] eqn:Hloop.
    destruct (Z.of_nat (length ("-"%byte :: b)) =? i') eqn:Hend; [|discriminate].
    intros [= <-].
    apply Z.eqb_eq in Hend.
    apply negb_true_iff, Z.eqb_neq in Hone.
    cbn [length] in Hend, Hone.
    destruct (Btoi64_loop_ParseUint b 1 0) as [Hu Hr].
    + lia.
    + rewrite Z.mul_1_l. apply pow10_le. lia.
    + rewrite Hloop. cbn [fst]. lia.
    + rewrite Hloop in Hu, Hr. cbn [snd] in Hu, Hr.
      destruct b as [|c' b]; [cbn [length] in Hone; lia|].
      unfold strconv.ParseUint. rewrite Hu.
      cbn [negb andb].
      replace (2 ^ 63 <? n') with false by (symmetry; apply Z.ltb_ge; lia).
      rewrite wrap64_small by lia. reflexivity.
  - destruct (Byte.eqb c "+") eqn:Hplus.
    + change (skipn (Z.to_nat 1) (c :: b)) with b.
      destruct (negb (Z.of_nat (length (c :: b)) =? 1)) eqn:Hone; [|discriminate].
      destruct (Btoi64_loop b 1 0) as [i' n'] eqn:Hloop.
      destruct (Z.of_nat (length (c :: b)) =? i') eqn:Hend; [|discriminate].
      intros [= <-].
      apply Z.eqb_eq in Hend.
      apply negb_true_iff, Z.eqb_neq in Hone.
      cbn [length] in Hend, Hone.
      destruct (Btoi64_loop_ParseUint b 1 0) as [Hu Hr].
      * lia.
      * rewrite Z.mul_1_l. apply pow10_le. lia.
      * rewrite Hloop. cbn [fst]. lia.
      * rewrite Hloop in Hu, Hr. cbn [snd] in Hu, Hr.
        destruct b as [|c' b]; [cbn [length] in Hone; lia|].
        unfold strconv.ParseUint. rewrite Hu.
        cbn [negb andb].
        replace (2 ^ 63 <=? n') with false by (symmetry; apply Z.leb_gt; lia).
        reflexivity.
    + change (skipn (Z.to_nat 0) (c :: b)) with (c :: b).
      destruct (negb (Z.of_nat (length (c :: b)) =? 0)) eqn:Hzero; [|discriminate].
      destruct (Btoi64_loop (c :: b) 0 0) as [i' n'] eqn:Hloop.
      destruct (Z.of_nat (length (c :: b)) =? i') eqn:Hend; [|discriminate].
      intros [= <-].
      apply Z.eqb_eq in Hend.
      destruct (Btoi64_loop_ParseUint (c :: b) 0 0) as [Hu Hr].
      * lia.
      * rewrite Z.mul_1_l. apply pow10_le. cbn [length]. lia.
      * rewrite Hloop. cbn [fst]. lia.
      * rewrite Hloop in Hu, Hr. cbn [snd] in Hu, Hr.
        unfold strconv.ParseUint. rewrite Hu.
        cbn [negb andb].
        replace (2 ^ 63 <=? n') with false by (symmetry; apply Z.leb_gt; lia).
        reflexivity.
Qed.

(** The result of [Btoi64] on every input, in terms of [ParseInt] alone. *)
Lemma Btoi64_as_ParseInt (b : list byte) :
  Btoi64 b =
  match strconv.ParseInt b with
  | inl e => Raise (ErrNum e)
  | inr n => Ret n
  end.
Proof.
  unfold Btoi64.
  destruct (Btoi64_fast b) as [n|] eqn:Hfast; [|reflexivity].
  rewrite (Btoi64_fast_sound b n Hfast). reflexivity.
Qed.

(** C9: [Btoi64] computes exactly what [strconv.ParseInt(string(b), 10, 64)]
    computes, on every byte string: the same value where the parse succeeds
    and an error (the parser's own) where it fails.  The fast path for fewer
    than ten bytes never returns anything else than the fallback would. *)
Theorem Btoi64_refines_ParseInt (b : list byte) :
  (forall n : Z, strconv.ParseInt b = inr n <-> Btoi64 b = Ret n)
  /\ (forall e : NumErr, strconv.ParseInt b = inl e <-> Btoi64 b = Raise (ErrNum e))
  /\ (forall e : Error, Btoi64 b = Raise e -> exists ne, e = ErrNum ne).
Proof.
  rewrite Btoi64_as_ParseInt.
  destruct (strconv.ParseInt b) as [e|n].
  - split; [|split].
    + intros n. split; discriminate.
    + intros e'. split; [intros [= ->]; reflexivity | intros [= ->]; reflexivity].
    + intros e' [= <-]. exists e. reflexivity.
  - split; [|split].
    + intros n'. split; [intros [= ->]; reflexivity | intros [= ->]; reflexivity].
    + intros e. split; discriminate.
    + intros e. discriminate.
Qed.

(** ** The sticky error *)

Lemma call_sets_Err (c : Call) (d d' : Decoder) (rep : Reply) :
  call c d = Done (rep, d') -> reply_err rep <> None -> Err d' <> None.
Proof.
  destruct c; unfold call, Decode, DecodeMultiBulk.
  - destruct (Err d) as [e0|] eqn:He0.
    + intros H _. injection H as <- <-. congruence.
    + destruct (decodeResp (enough (br d)) (br d)) as [[fr rd']|]; [|discriminate].
      destruct fr as [r|r e]; cbn; intros H; injection H as <- <-; cbn;
        intros Hne; exact Hne.
  - destruct (Err d) as [e0|] eqn:He0.
    + intros H _. injection H as <- <-. congruence.
    + destruct (decodeMultiBulk (enough (br d)) (br d)) as [[[m|e] rd']|]; [| |discriminate];
        intros H; injection H as <- <-; cbn.
      * intros Hne. exact Hne.
      * intros _. discriminate.
Qed.

Lemma call_failed (c : Call) (d : Decoder) :
  Err d <> None -> call c d = Done (failed_reply c, d).
Proof.
  intros Hd. destruct c; unfold call, Decode, DecodeMultiBulk;
    destruct (Err d); (reflexivity || contradiction).
Qed.

Lemma calls_failed (cs : list Call) (d : Decoder) :
  Err d <> None -> calls cs d = Done (map failed_reply cs, d).
Proof.
  intros Hd. induction cs as [|c cs IH]; [reflexivity|].
  cbn [calls map]. rewrite (call_failed c d Hd), IH. reflexivity.
Qed.

(** C4: once a call to [Decode] or [DecodeMultiBulk] has returned an error,
    every later call to either entry point, in any order and whatever bytes
    the reader still holds, returns nil with [ErrFailedDecoder] and leaves the
    decoder as it is. *)
Theorem failed_decoder_is_sticky (c : Call) (d d' : Decoder) (rep : Reply) :
  call c d = Done (rep, d') ->
  reply_err rep <> None ->
  forall cs : list Call, calls cs d' = Done (map failed_reply cs, d').
Proof.
  intros Hcall Herr cs.
  apply calls_failed. exact (call_sets_Err c d d' rep Hcall Herr).
Qed.

Lemma failed_decoder_is_sticky_witness :
  let d := NewDecoderBuffer (bytes "?" ++ bytes "+OK" ++ CRLF) in
  let d' := {| br := bytes "+OK" ++ CRLF; Err := Some (ErrBadRespType "?") |} in
  call CallDecode d = Done (ReplyResp None (Some (ErrBadRespType "?")), d')
  /\ calls [CallDecode; CallDecodeMultiBulk; CallDecode] d'
     = Done ([ReplyResp None (Some ErrFailedDecoder);
              ReplyMulti None (Some ErrFailedDecoder);
              ReplyResp None (Some ErrFailedDecoder)], d').
Proof.
  split; [reflexivity|].
  apply (failed_decoder_is_sticky CallDecode
           (NewDecoderBuffer (bytes "?" ++ bytes "+OK" ++ CRLF))
           _ (ReplyResp None (Some (ErrBadRespType "?")))).
  - reflexivity.
  - discriminate.
Defined.

(** ** Reading one line *)

Lemma cut_app (delim : byte) (line rest : list byte) :
  Forall (fun c => Byte.eqb c delim = false) line ->
  bufio2.cut delim (line ++ delim :: rest) = Some (line ++ [delim], rest).
Proof.
  induction 1 as [|c line Hc _ IH]; cbn [bufio2.cut app].
  - rewrite (byte_dec_lb (eq_refl delim)). reflexivity.
  - rewrite Hc, IH. reflexivity.
Qed.

Lemma cut_split (delim : byte) (rd : bufio2.Reader) (line rest : list byte) :
  bufio2.cut delim rd = Some (line, rest) -> rd = line ++ rest.
Proof.
  revert line. induction rd as [|c rd IH]; intros line; cbn [bufio2.cut]; [discriminate|].
  destruct (Byte.eqb c delim).
  - intros [= <- <-]. reflexivity.
  - destruct (bufio2.cut delim rd) as [[line' rest']|]; [|discriminate].
    intros [= <- <-]. cbn [app]. f_equal. apply IH. reflexivity.
Qed.

(** A line [text CR LF] with no [LF] in [text] is read whole, and its text
    is what remains after the terminator is checked and cut off. *)
Lemma line_text (text : list byte) :
  let b := (text ++ [CR]) ++ [LF] in
  let n := Z.of_nat (length b) - 2 in
  (n <? 0) || negb (Byte.eqb (at_ b n) CR) = false /\ upto b n = text.
Proof.
  cbv zeta.
  assert (Hn : Z.of_nat (length ((text ++ [CR]) ++ [LF])) - 2 = Z.of_nat (length text)).
  { rewrite !length_app. cbn [length]. lia. }
  rewrite Hn. split.
  - apply orb_false_iff. split; [apply Z.ltb_ge; lia|].
    unfold at_. rewrite Nat2Z.id, <- app_assoc.
    rewrite app_nth2 by lia. rewrite Nat.sub_diag. reflexivity.
  - unfold upto. rewrite Nat2Z.id, <- app_assoc.
    rewrite firstn_app, Nat.sub_diag, firstn_all. cbn [firstn]. apply app_nil_r.
Qed.

Lemma ReadSlice_line (text rest : list byte) :
  no_LF text ->
  bufio2.ReadSlice LF (text ++ CRLF ++ rest) = (Ret ((text ++ [CR]) ++ [LF]), rest).
Proof.
  intros Htext. unfold bufio2.ReadSlice, CRLF.
  change (text ++ [CR; LF] ++ rest) with (text ++ [CR] ++ LF :: rest).
  rewrite app_assoc, cut_app; [reflexivity|].
  apply Forall_app. split; [exact Htext|]. constructor; [reflexivity|constructor].
Qed.

Lemma decodeTextBytes_line (text rest : list byte) :
  no_LF text -> decodeTextBytes (text ++ CRLF ++ rest) = (Ret text, rest).
Proof.
  intros Htext. unfold decodeTextBytes, bufio2.ReadBytes.
  rewrite (ReadSlice_line text rest Htext).
  destruct (line_text text) as [Hcheck Hcut]. rewrite Hcheck, Hcut. reflexivity.
Qed.

Lemma decodeInt_line (text rest : list byte) :
  no_LF text -> decodeInt (text ++ CRLF ++ rest) = (Btoi64 text, rest).
Proof.
  intros Htext. unfold decodeInt.
  rewrite (ReadSlice_line text rest Htext).
  destruct (line_text text) as [Hcheck Hcut]. rewrite Hcheck, Hcut. reflexivity.
Qed.

(** A numeral that [ParseInt] accepts is made of a sign and digits: it holds
    no line feed. *)
Lemma ParseUint_loop_no_LF (s : list byte) : forall (n m : Z),
  strconv.ParseUint_loop s n = inr m -> no_LF s.
Proof.
  induction s as [|c s IH]; intros n m; cbn [strconv.ParseUint_loop].
  - intros _. constructor.
  - destruct (is_digit c) eqn:Hc; [|discriminate].
    destruct (strconv.cutoff <=? n); [discriminate|]. cbv zeta.
    destruct (strconv.maxUint64 <? _); [discriminate|].
    intros Hrec. constructor; [|exact (IH _ _ Hrec)].
    destruct (Byte.eqb c LF) eqn:Heq; [|reflexivity].
    apply byte_dec_bl in Heq. subst c. discriminate Hc.
Qed.

Lemma ParseInt_no_LF (s : list byte) (n : Z) :
  strconv.ParseInt s = inr n -> no_LF s.
Proof.
  unfold strconv.ParseInt. destruct s as [|c s]; [discriminate|].
  assert (Hloop : forall t m, strconv.ParseUint t = inr m -> no_LF t).
  { intros t m. unfold strconv.ParseUint. destruct t; [discriminate|].
    apply ParseUint_loop_no_LF. }
  destruct (Byte.eqb c "+") eqn:Hplus; [|destruct (Byte.eqb c "-") eqn:Hminus].
  - apply byte_dec_bl in Hplus. subst c.
    destruct (strconv.ParseUint s) as [e|un] eqn:Hu; [discriminate|].
    intros _. constructor; [reflexivity|exact (Hloop _ _ Hu)].
  - apply byte_dec_bl in Hminus. subst c.
    destruct (strconv.ParseUint s) as [e|un] eqn:Hu; [discriminate|].
    intros _. constructor; [reflexivity|exact (Hloop _ _ Hu)].
  - destruct (strconv.ParseUint (c :: s)) as [e|un] eqn:Hu; [discriminate|].
    intros _. exact (Hloop _ _ Hu).
Qed.

(** The header line of a frame whose length field is the numeral [hdr]. *)
Lemma decodeInt_numeral (hdr rest : list byte) (n : Z) :
  strconv.ParseInt hdr = inr n -> decodeInt (hdr ++ CRLF ++ rest) = (Ret n, rest).
Proof.
  intros Hparse. rewrite (decodeInt_line hdr rest (ParseInt_no_LF hdr n Hparse)).
  rewrite Btoi64_as_ParseInt, Hparse. reflexivity.
Qed.

(** ** Bulk strings *)

(** [Decode] on a frame tagged [$] is [decodeBulkBytes] on what follows the
    tag. *)
Lemma Decode_bulk (rd : bufio2.Reader) :
  Decode (NewDecoderBuffer (TypeBulkBytes :: rd)) =
  match decodeBulkBytes rd with
  | (Ret v, rd') =>
      Done ((Some (mkResp TypeBulkBytes v None), None), {| br := rd'; Err := None |})
  | (Raise e, rd') =>
      Done ((Some (mkResp TypeBulkBytes None None), Some e), {| br := rd'; Err := Some e |})
  end.
Proof.
  unfold Decode, NewDecoderBuffer, enough. cbn [Err br length decodeResp bufio2.ReadByte].
  change (Byte.eqb TypeBulkBytes TypeString || Byte.eqb TypeBulkBytes TypeError
          || Byte.eqb TypeBulkBytes TypeInt) with false.
  change (Byte.eqb TypeBulkBytes TypeBulkBytes) with true. cbv iota.
  destruct (decodeBulkBytes rd) as [[v|e] rd']; reflexivity.
Qed.

(** A bulk whose declared length [n] is within the limit and whose payload
    of [n] bytes and terminator are present. *)
Lemma decodeBulkBytes_payload (hdr payload rest : list byte) (n : Z) :
  strconv.ParseInt hdr = inr n ->
  0 <= n <= MaxBulkBytesLen ->
  Z.of_nat (length payload) = n ->
  decodeBulkBytes (hdr ++ CRLF ++ payload ++ CRLF ++ rest) = (Ret (Some payload), rest).
Proof.
  intros Hparse Hn Hlen. unfold decodeBulkBytes.
  rewrite (decodeInt_numeral hdr _ n Hparse).
  destruct (Z.ltb_spec n (-1)); [lia|].
  destruct (Z.ltb_spec MaxBulkBytesLen n); [lia|].
  destruct (Z.eqb_spec n (-1)); [lia|].
  unfold bufio2.ReadFull.
  assert (Htake : Z.to_nat (n + 2) = length (payload ++ CRLF)).
  { rewrite length_app. unfold CRLF. cbn [length]. lia. }
  destruct (Z.ltb_spec (Z.of_nat (length (payload ++ CRLF ++ rest))) (n + 2)) as [Hshort|_].
  { rewrite !length_app in Hshort. unfold CRLF in Hshort. cbn [length] in Hshort. lia. }
  rewrite app_assoc, Htake.
  rewrite firstn_app, Nat.sub_diag, firstn_all, skipn_app, Nat.sub_diag, skipn_all.
  cbn [firstn skipn app]. rewrite app_nil_r.
  assert (Hcr : at_ (payload ++ CRLF) n = CR).
  { unfold at_. rewrite <- Hlen, Nat2Z.id, app_nth2 by lia.
    rewrite Nat.sub_diag. reflexivity. }
  assert (Hlf : at_ (payload ++ CRLF) (n + 1) = LF).
  { unfold at_. replace (Z.to_nat (n + 1)) with (S (length payload)) by lia.
    rewrite app_nth2 by lia.
    replace (S (length payload) - length payload)%nat with 1%nat by lia. reflexivity. }
  rewrite Hcr, Hlf. change (negb (Byte.eqb CR CR) || negb (Byte.eqb LF LF)) with false.
  cbv iota. unfold upto. rewrite <- Hlen, Nat2Z.id.
  rewrite firstn_app, Nat.sub_diag, firstn_all. cbn [firstn]. rewrite app_nil_r.
  reflexivity.
Qed.





(** ** Null values *)



(** ** Inline requests *)

(** A line of spaces only yields no word. *)
Lemma split_loop_spaces (k : nat) : forall (todo r : nat),
  (r + todo = S k)%nat ->
  split_loop (repeat SP k) todo r r [] = [].
Proof.
  induction todo as [|todo IH]; intros r Hr; [reflexivity|].
  cbn [split_loop].
  assert (Hcond : (r =? length (repeat SP k))%nat || Byte.eqb (nth r (repeat SP k) x00) SP = true).
  { rewrite repeat_length. destruct (Nat.eqb_spec r k) as [|Hne]; [reflexivity|].
    cbn [orb]. rewrite nth_repeat_lt by lia. reflexivity. }
  rewrite Hcond, Nat.ltb_irrefl. apply IH. lia.
Qed.

Lemma repeat_SP_no_LF (k : nat) : no_LF (repeat SP k).
Proof. induction k; constructor; [reflexivity|assumption]. Qed.

(** C7: at the multi-bulk entry point, [PING\r\n] decodes to the array of
    the one bulk string [PING]; the bare line [\r\n] decodes to nil without
    an error; a line of one or more spaces only, as [   \r\n], fails with
    [ErrBadMultiBulkLen] ("bad multi-bulk len"). *)
Theorem inline_multi_bulk (rest : list byte) (k : nat) :
  DecodeMultiBulkFromBytes (bytes "PING" ++ CRLF ++ rest)
  = Done ((Some [NewBulkBytes (bytes "PING")], None), {| br := rest; Err := None |})
  /\ DecodeMultiBulkFromBytes (CRLF ++ rest)
     = Done ((None, None), {| br := rest; Err := None |})
  /\ DecodeMultiBulkFromBytes (bytes "   " ++ CRLF)
     = Done ((None, Some ErrBadMultiBulkLen), {| br := []; Err := Some ErrBadMultiBulkLen |})
  /\ DecodeMultiBulkFromBytes (repeat SP (S k) ++ CRLF ++ rest)
     = Done ((None, Some ErrBadMultiBulkLen), {| br := rest; Err := Some ErrBadMultiBulkLen |}).
Proof.
  split; [reflexivity|]. split; [reflexivity|]. split; [reflexivity|].
  unfold DecodeMultiBulkFromBytes, DecodeMultiBulk, NewDecoderBuffer, decodeMultiBulk.
  cbn [Err br repeat app bufio2.PeekByte].
  change (negb (Byte.eqb SP TypeArray)) with true. cbv iota.
  unfold decodeSingleLineMultiBulk.
  change (SP :: repeat SP k ++ CRLF ++ rest) with (repeat SP (S k) ++ CRLF ++ rest).
  rewrite (decodeTextBytes_line _ rest (repeat_SP_no_LF (S k))).
  rewrite repeat_length. cbn [Nat.eqb].
  pose proof (split_loop_spaces (S k) (S (S k)) 0 eq_refl) as Hsplit.
  rewrite Hsplit. reflexivity.
Qed.

(** ** The fuel of [Decode] never runs out *)

Lemma ReadSlice_shrinks (delim : byte) (rd rd' : bufio2.Reader) (r : res (list byte)) :
  bufio2.ReadSlice delim rd = (r, rd') -> (length rd' <= length rd)%nat.
Proof.
  unfold bufio2.ReadSlice.
  destruct (bufio2.cut delim rd) as [[line rest]|] eqn:Hcut.
  - intros [= <- <-]. rewrite (cut_split _ _ _ _ Hcut), length_app. lia.
  - intros [= <- <-]. cbn [length]. lia.
Qed.

Lemma decodeTextBytes_shrinks (rd rd' : bufio2.Reader) (r : res (list byte)) :
  decodeTextBytes rd = (r, rd') -> (length rd' <= length rd)%nat.
Proof.
  unfold decodeTextBytes, bufio2.ReadBytes.
  destruct (bufio2.ReadSlice LF rd) as [[b|e] rd1] eqn:Hread;
    pose proof (ReadSlice_shrinks _ _ _ _ Hread).
  - destruct (_ || _); intros [= <- <-]; assumption.
  - intros [= <- <-]; assumption.
Qed.

Lemma decodeInt_shrinks (rd rd' : bufio2.Reader) (r : res Z) :
  decodeInt rd = (r, rd') -> (length rd' <= length rd)%nat.
Proof.
  unfold decodeInt.
  destruct (bufio2.ReadSlice LF rd) as [[b|e] rd1] eqn:Hread;
    pose proof (ReadSlice_shrinks _ _ _ _ Hread).
  - destruct (_ || _); intros [= <- <-]; assumption.
  - intros [= <- <-]; assumption.
Qed.

Lemma ReadFull_shrinks (n : Z) (rd rd' : bufio2.Reader) (r : res (list byte)) :
  bufio2.ReadFull n rd = (r, rd') -> (length rd' <= length rd)%nat.
Proof.
  unfold bufio2.ReadFull. destruct (_ <? _); intros [= <- <-].
  - cbn [length]. lia.
  - rewrite length_skipn. lia.
Qed.

Lemma decodeBulkBytes_shrinks (rd rd' : bufio2.Reader) (r : res (option (list byte))) :
  decodeBulkBytes rd = (r, rd') -> (length rd' <= length rd)%nat.
Proof.
  unfold decodeBulkBytes.
  destruct (decodeInt rd) as [[n|e] rd1] eqn:Hint;
    pose proof (decodeInt_shrinks _ _ _ Hint).
  - destruct (n <? -1); [intros [= <- <-]; assumption|].
    destruct (MaxBulkBytesLen <? n); [intros [= <- <-]; assumption|].
    destruct (n =? -1); [intros [= <- <-]; assumption|].
    destruct (bufio2.ReadFull (n + 2) rd1) as [[b|e] rd2] eqn:Hfull;
      pose proof (ReadFull_shrinks _ _ _ _ Hfull).
    + destruct (_ || _); intros [= <- <-]; lia.
    + intros [= <- <-]; lia.
  - intros [= <- <-]; assumption.
Qed.

Lemma decode_elems_returns (bound : nat) (elem : bufio2.Reader -> fueled (res Resp * bufio2.Reader)) :
  returns_within bound elem ->
  forall count, returns_within bound (decode_elems elem count).
Proof.
  intros Helem count. induction count as [|count IH]; intros rd Hrd; cbn [decode_elems].
  - exists (Ret []), rd. split; [reflexivity|lia].
  - destruct (Helem rd Hrd) as (r & rd1 & -> & Hrd1).
    destruct r as [r|e].
    + destruct (IH rd1 ltac:(lia)) as (rs & rd2 & -> & Hrd2).
      destruct rs as [rs|e]; eexists _, rd2; (split; [reflexivity|lia]).
    + eexists _, rd1. split; [reflexivity|lia].
Qed.

Lemma checked_returns (bound : nat) (dec : bufio2.Reader -> fueled (frame_res * bufio2.Reader)) :
  returns_within bound dec -> returns_within bound (fun rd => checked (dec rd)).
Proof.
  intros Hdec rd Hrd. destruct (Hdec rd Hrd) as (fr & rd1 & -> & Hrd1).
  destruct fr; eexists _, rd1; (split; [reflexivity|lia]).
Qed.

Lemma decodeArray_with_returns (bound : nat)
    (dec : bufio2.Reader -> fueled (frame_res * bufio2.Reader)) :
  returns_within bound dec -> returns_within bound (decodeArray_with dec).
Proof.
  intros Hdec rd Hrd. unfold decodeArray_with.
  destruct (decodeInt rd) as [[n|e] rd1] eqn:Hint;
    pose proof (decodeInt_shrinks _ _ _ Hint).
  - destruct (n <? -1); [eexists _, rd1; split; [reflexivity|lia]|].
    destruct (MaxArrayLen <? n); [eexists _, rd1; split; [reflexivity|lia]|].
    destruct (n =? -1); [eexists _, rd1; split; [reflexivity|lia]|].
    destruct (decode_elems_returns bound _ (checked_returns bound dec Hdec) (Z.to_nat n) rd1)
      as (rs & rd2 & -> & Hrd2); [lia|].
    destruct rs; eexists _, rd2; (split; [reflexivity|lia]).
  - eexists _, rd1. split; [reflexivity|lia].
Qed.

(** Fuel above the length of the reader is enough for [decodeResp]. *)
Lemma decodeResp_enough_fuel (fuel : nat) :
  forall bound, (bound < fuel)%nat -> returns_within bound (decodeResp fuel).
Proof.
  induction fuel as [|fuel IH]; intros bound Hbound rd Hrd; [lia|].
  cbn [decodeResp]. destruct rd as [|b rd]; cbn [bufio2.ReadByte].
  - eexists _, []. split; [reflexivity|cbn [length]; lia].
  - cbn [length] in *.
    destruct (_ || _).
    { destruct (decodeTextBytes rd) as [[v|e] rd1] eqn:Htext;
        pose proof (decodeTextBytes_shrinks _ _ _ Htext);
        eexists _, rd1; (split; [reflexivity|lia]). }
    destruct (Byte.eqb b TypeBulkBytes).
    { destruct (decodeBulkBytes rd) as [[v|e] rd1] eqn:Hbulk;
        pose proof (decodeBulkBytes_shrinks _ _ _ Hbulk);
        eexists _, rd1; (split; [reflexivity|lia]). }
    destruct (Byte.eqb b TypeArray).
    { destruct (decodeArray_with_returns (length rd) (decodeResp fuel)
                  (IH (length rd) ltac:(lia)) rd (Nat.le_refl _))
        as (a & rd1 & -> & Hrd1).
      destruct a; eexists _, rd1; (split; [reflexivity|lia]). }
    eexists _, rd. split; [reflexivity|lia].
Qed.

Lemma decodeMultiBulk_enough_fuel (rd : bufio2.Reader) :
  exists m rd', decodeMultiBulk (enough rd) rd = Done (m, rd').
Proof.
  unfold decodeMultiBulk. destruct rd as [|b rd]; cbn [bufio2.PeekByte].
  - eexists _, _. reflexivity.
  - destruct (negb _).
    + destruct (decodeSingleLineMultiBulk (b :: rd)) as [m rd']. eexists _, _. reflexivity.
    + cbn [bufio2.ReadByte].
      destruct (decodeInt rd) as [[n|e] rd1] eqn:Hint;
        pose proof (decodeInt_shrinks _ _ _ Hint); [|eexists _, _; reflexivity].
      destruct (n <=? 0); [eexists _, _; reflexivity|].
      destruct (MaxArrayLen <? n); [eexists _, _; reflexivity|].
      assert (Helem : returns_within (length rd) (bulk_elem (enough (b :: rd)))).
      { intros rd2 Hrd2. unfold bulk_elem.
        destruct (decodeResp_enough_fuel (enough (b :: rd)) (length rd)
                    ltac:(unfold enough; cbn [length]; lia) rd2 Hrd2)
          as (fr & rd3 & -> & Hrd3).
        destruct fr as [r|r e]; cbn [checked].
        - destruct (negb _); eexists _, rd3; (split; [reflexivity|lia]).
        - eexists _, rd3. split; [reflexivity|lia]. }
      destruct (decode_elems_returns _ _ Helem (Z.to_nat n) rd1 H) as (rs & rd2 & -> & _).
      destruct rs; eexists _, _; reflexivity.
Qed.

(** Both entry points return on every decoder. *)
Lemma Decode_returns (d : Decoder) : exists out d', Decode d = Done (out, d').
Proof.
  unfold Decode. destruct (Err d); [eexists _, _; reflexivity|].
  destruct (decodeResp_enough_fuel (enough (br d)) (length (br d))
              ltac:(unfold enough; lia) (br d) (Nat.le_refl _))
    as (fr & rd' & -> & _).
  destruct (go_pair fr). eexists _, _. reflexivity.
Qed.

Lemma DecodeMultiBulk_returns (d : Decoder) :
  exists out d', DecodeMultiBulk d = Done (out, d').
Proof.
  unfold DecodeMultiBulk. destruct (Err d); [eexists _, _; reflexivity|].
  destruct (decodeMultiBulk_enough_fuel (br d)) as (m & rd' & ->).
  destruct m; eexists _, _; reflexivity.
Qed.


(** More fuel changes nothing: what [decodeResp] returns with some fuel it
    returns with any larger one. *)
Lemma decode_elems_mono (elem1 elem2 : bufio2.Reader -> fueled (res Resp * bufio2.Reader)) :
  (forall rd out, elem1 rd = Done out -> elem2 rd = Done out) ->
  forall count rd out,
    decode_elems elem1 count rd = Done out -> decode_elems elem2 count rd = Done out.
Proof.
  intros Helem count. induction count as [|count IH]; intros rd out; cbn [decode_elems].
  - intros H. exact H.
  - destruct (elem1 rd) as [[r rd1]|] eqn:H1; [|discriminate].
    rewrite (Helem rd _ H1).
    destruct r as [r|e]; [|intros H; exact H].
    destruct (decode_elems elem1 count rd1) as [[rs rd2]|] eqn:H2; [|discriminate].
    rewrite (IH rd1 _ H2). intros H. exact H.
Qed.

Lemma decodeArray_with_mono (dec1 dec2 : bufio2.Reader -> fueled (frame_res * bufio2.Reader)) :
  (forall rd out, dec1 rd = Done out -> dec2 rd = Done out) ->
  forall rd out,
    decodeArray_with dec1 rd = Done out -> decodeArray_with dec2 rd = Done out.
Proof.
  intros Hdec rd out. unfold decodeArray_with.
  destruct (decodeInt rd) as [[n|e] rd1]; [|intros H; exact H].
  destruct (n <? -1); [intros H; exact H|].
  destruct (MaxArrayLen <? n); [intros H; exact H|].
  destruct (n =? -1); [intros H; exact H|].
  destruct (decode_elems (fun rd0 => checked (dec1 rd0)) (Z.to_nat n) rd1)
    as [[rs rd2]|] eqn:H1; [|discriminate].
  rewrite (decode_elems_mono (fun rd0 => checked (dec1 rd0)) (fun rd0 => checked (dec2 rd0)))
    with (out := (rs, rd2)); [intros H; exact H| |exact H1].
  intros rd0 out0. destruct (dec1 rd0) as [[fr rd3]|] eqn:H0; [|discriminate].
  rewrite (Hdec rd0 _ H0). intros H. exact H.
Qed.

Lemma decodeResp_S (fuel : nat) (rd : bufio2.Reader) :
  decodeResp (S fuel) rd =
  match bufio2.ReadByte rd with
  | (Raise e, rd') => Done (Broken None e, rd')
  | (Ret b, rd') =>
      if Byte.eqb b TypeString || Byte.eqb b TypeError || Byte.eqb b TypeInt then
        match decodeTextBytes rd' with
        | (Ret v, rd'') => Done (Frame (mkResp b (Some v) None), rd'')
        | (Raise e, rd'') => Done (Broken (Some (mkResp b None None)) e, rd'')
        end
      else if Byte.eqb b TypeBulkBytes then
        match decodeBulkBytes rd' with
        | (Ret v, rd'') => Done (Frame (mkResp b v None), rd'')
        | (Raise e, rd'') => Done (Broken (Some (mkResp b None None)) e, rd'')
        end
      else if Byte.eqb b TypeArray then
        match decodeArray fuel rd' with
        | OutOfFuel => OutOfFuel
        | Done (Ret a, rd'') => Done (Frame (mkResp b None a), rd'')
        | Done (Raise e, rd'') => Done (Broken (Some (mkResp b None None)) e, rd'')
        end
      else Done (Broken None (ErrBadRespType b), rd')
  end.
Proof. reflexivity. Qed.

Lemma decodeResp_fuel_mono (fuel : nat) : forall rd out,
  decodeResp fuel rd = Done out -> decodeResp (S fuel) rd = Done out.
Proof.
  induction fuel as [|fuel IH]; intros rd out; [discriminate|].
  rewrite (decodeResp_S fuel rd), (decodeResp_S (S fuel) rd).
  destruct (bufio2.ReadByte rd) as [[b|e] rd1]; [|intros H; exact H].
  destruct (_ || _); [intros H; exact H|].
  destruct (Byte.eqb b TypeBulkBytes); [intros H; exact H|].
  destruct (Byte.eqb b TypeArray); [|intros H; exact H].
  unfold decodeArray.
  destruct (decodeArray_with (decodeResp fuel) rd1) as [[a rd2]|] eqn:Harr; [|discriminate].
  rewrite (decodeArray_with_mono (decodeResp fuel) (decodeResp (S fuel)) IH rd1 _ Harr).
  intros H. exact H.
Qed.

(** * Properties of the router *)

(** ** [fillSlot] *)

Lemma slot_at_Some (id : Z) (cells : list Slot) (slot : Slot) :
  slot_at id cells = Some slot <-> 0 <= id /\ cells !! Z.to_nat id = Some slot.
Proof.
  unfold slot_at. destruct (Z.ltb_spec id 0); split.
  - discriminate.
  - intros [? _]. lia.
  - intros H'. split; [lia|exact H'].
  - intros [_ H']. exact H'.
Qed.

Lemma slot_at_of_nat (i : nat) (cells : list Slot) :
  slot_at (Z.of_nat i) cells = cells !! i.
Proof.
  unfold slot_at. destruct (Z.ltb_spec (Z.of_nat i) 0); [lia|].
  rewrite Nat2Z.id. reflexivity.
Qed.

(** What [fillSlot] does to the router: the cell [m.Id] is replaced, the
    flags stay, and the events it adds are those of that slot, the first of
    them its drain. *)
Lemma fillSlot_inv (m : models.Slot) (sw : bool) (meth : option forwardMethod)
    (s : Router) (slot : Slot) :
  slot_at (models.Id m) (slots s) = Some slot ->
  exists (slot' : Slot) (evs : list Event) (s' : Router),
    fillSlot m sw meth s = Some s'
    /\ slots s' = <[Z.to_nat (models.Id m) := slot']> (slots s)
    /\ config s' = config s /\ online s' = online s /\ closed s' = closed s
    /\ trace s' = evs ++ trace s
    /\ Forall (fun ev => event_slot ev = slot_id slot) evs
    /\ In (EvBlockAndWait (slot_id slot)) evs
    /\ slot_id slot' = slot_id slot
    /\ slot_switched slot' = sw
    /\ backend_bc slot' =
         (if (String.length (models.BackendAddr m) =? 0)%nat then None
          else Some (models.BackendAddr m)).
Proof.
  intros Hslot. unfold fillSlot. rewrite Hslot.
  destruct (String.length (models.BackendAddr m) =? 0)%nat;
    destruct (String.length (models.MigrateFrom m) =? 0)%nat;
    cbn [negb];
    destruct (BackendPrimaryOnly (config s)); cbn [negb];
    try destruct (retain_groups (models.ReplicaGroups m) _) as [groups replica];
    destruct (models.Locked m); destruct (closed s) eqn:Hclosed; cbn [negb];
    eexists _, _, _; (split; [reflexivity|]); cbn [slots config online closed trace];
    (split; [reflexivity|]); (split; [reflexivity|]); (split; [reflexivity|]);
    (split; [reflexivity|]);
    (split; [first [ exact (eq_refl : _ = [_; _; _] ++ _)
                   | exact (eq_refl : _ = [_; _] ++ _)
                   | exact (eq_refl : _ = [_] ++ _) ]|]);
    (split; [repeat constructor|]);
    (split; [cbn [In]; tauto|]);
    repeat split.
Qed.

Lemma NewRouter_wf (cfg : Config) : wf_router (NewRouter cfg).
Proof.
  split.
  - unfold full_array, NewRouter. cbn [slots]. rewrite length_map, length_seq. reflexivity.
  - intros i slot. unfold NewRouter. cbn [slots].
    change (map ?f ?l) with (f <$> l).
    rewrite list_lookup_fmap.
    destruct (seq 0 (Z.to_nat MaxSlotNum) !! i) as [k|] eqn:Hk; [|discriminate].
    apply lookup_seq in Hk as [-> _]. intros [= <-]. reflexivity.
Qed.

Lemma wf_slot_at (s : Router) (i : nat) (slot : Slot) :
  wf_router s -> slots s !! i = Some slot -> slot_at (slot_id slot) (slots s) = Some slot.
Proof.
  intros [_ Hids] Hi. rewrite (Hids i slot Hi), slot_at_of_nat. exact Hi.
Qed.

(** [fillSlot] on the descriptor of the cell [i] keeps the router well
    formed and every other cell as it is. *)
Lemma fillSlot_cell (m : models.Slot) (sw : bool) (meth : option forwardMethod)
    (s : Router) (i : nat) (slot : Slot) :
  wf_router s ->
  slots s !! i = Some slot ->
  models.Id m = Z.of_nat i ->
  exists (slot' : Slot) (evs : list Event) (s' : Router),
    fillSlot m sw meth s = Some s'
    /\ wf_router s'
    /\ slots s' = <[i := slot']> (slots s)
    /\ closed s' = closed s
    /\ trace s' = evs ++ trace s
    /\ Forall (fun ev => event_slot ev = Z.of_nat i) evs
    /\ In (EvBlockAndWait (Z.of_nat i)) evs
    /\ slot_switched slot' = sw
    /\ backend_bc slot' =
         (if (String.length (models.BackendAddr m) =? 0)%nat then None
          else Some (models.BackendAddr m)).
Proof.
  intros [Hlen Hids] Hi Hid.
  assert (Hat : slot_at (models.Id m) (slots s) = Some slot).
  { rewrite Hid, slot_at_of_nat. exact Hi. }
  destruct (fillSlot_inv m sw meth s slot Hat)
    as (slot' & evs & s' & Hfill & Hslots & _ & _ & Hclosed & Htrace & Hevs & Hdrain & Hsid & Hsw & Hbc).
  rewrite Hid, Nat2Z.id in Hslots. rewrite (Hids i slot Hi) in Hevs, Hdrain, Hsid.
  exists slot', evs, s'. repeat split; try assumption.
  - unfold full_array. rewrite Hslots, length_insert. exact Hlen.
  - intros j slotj. rewrite Hslots.
    destruct (decide (i = j)) as [<-|Hne].
    + rewrite list_lookup_insert_eq by (apply lookup_lt_Some in Hi; exact Hi).
      intros [= <-]. exact Hsid.
    + rewrite list_lookup_insert_ne by exact Hne. apply Hids.
Qed.

(** ** [trySwitchMaster] *)

Lemma hasSameRunId_true (cache : InfoCache) (addr cur : string) :
  hasSameRunId cache addr cur = true <->
  addr = cur \/ (GetRunId cache addr <> ""%string /\ GetRunId cache addr = GetRunId cache cur).
Proof.
  unfold hasSameRunId.
  destruct (String.eqb_spec addr cur) as [->|Hne]; cbn [negb].
  - split; [intros _; left; reflexivity | reflexivity].
  - rewrite andb_true_iff, negb_true_iff, String.eqb_neq, String.eqb_eq.
    split; [intros H; right; exact H | intros [H|H]; [contradiction|exact H]].
Qed.

Lemma same_master_keeps (masters : gmap Z string) (cache : InfoCache) (gid : Z) (cur : string) :
  same_master masters cache gid cur <->
  negb (String.eqb (masters_at masters gid) "")
  && negb (hasSameRunId cache (masters_at masters gid) cur) = false.
Proof.
  unfold same_master. cbv zeta.
  rewrite andb_false_iff, !negb_false_iff, String.eqb_eq, hasSameRunId_true. tauto.
Qed.

Lemma switch_plan_Id (masters : gmap Z string) (cache : InfoCache) (m : models.Slot) :
  models.Id (fst (switch_plan masters cache m)) = models.Id m.
Proof.
  unfold switch_plan. cbv zeta.
  destruct (negb _ && negb (hasSameRunId cache _ (models.BackendAddr m)));
    cbn [models.MigrateFromGroupId models.MigrateFrom];
    destruct (negb _ && negb _); reflexivity.
Qed.

Lemma switch_plan_keeps (masters : gmap Z string) (cache : InfoCache) (m : models.Slot) :
  same_master masters cache (models.BackendAddrGroupId m) (models.BackendAddr m) ->
  same_master masters cache (models.MigrateFromGroupId m) (models.MigrateFrom m) ->
  switch_plan masters cache m = (m, false).
Proof.
  intros Hb%same_master_keeps Hm%same_master_keeps.
  unfold switch_plan. cbv zeta. rewrite Hb, Hm. reflexivity.
Qed.

(** With a new address for the backend group whose run-id is unknown, the
    plan is to switch to that address. *)
Lemma switch_plan_unknown (masters : gmap Z string) (cache : InfoCache) (m : models.Slot) :
  masters_at masters (models.BackendAddrGroupId m) <> ""%string ->
  masters_at masters (models.BackendAddrGroupId m) <> models.BackendAddr m ->
  GetRunId cache (masters_at masters (models.BackendAddrGroupId m)) = ""%string ->
  snd (switch_plan masters cache m) = true
  /\ models.BackendAddr (fst (switch_plan masters cache m))
     = masters_at masters (models.BackendAddrGroupId m).
Proof.
  intros Hne Hnew Hrid.
  assert (Hcond : negb (String.eqb (masters_at masters (models.BackendAddrGroupId m)) "")
                  && negb (hasSameRunId cache (masters_at masters (models.BackendAddrGroupId m))
                             (models.BackendAddr m)) = true).
  { apply andb_true_iff. split.
    - apply negb_true_iff, String.eqb_neq. exact Hne.
    - apply negb_true_iff. unfold hasSameRunId.
      destruct (String.eqb_spec (masters_at masters (models.BackendAddrGroupId m))
                  (models.BackendAddr m)) as [Heq|_]; [contradiction|].
      cbn [negb]. rewrite Hrid. reflexivity. }
  unfold switch_plan. cbv zeta. rewrite Hcond. clear Hcond.
  cbn [models.MigrateFromGroupId models.MigrateFrom].
  destruct (negb _ && negb _); split; reflexivity.
Qed.

Lemma trySwitchMaster_keeps (masters : gmap Z string) (cache : InfoCache)
    (s : Router) (i : nat) (slot : Slot) :
  slots s !! i = Some slot ->
  same_master masters cache (backend_id slot) (Addr (backend_bc slot)) ->
  same_master masters cache (migrate_id slot) (Addr (migrate_bc slot)) ->
  trySwitchMaster (Z.of_nat i) masters cache s = Some s.
Proof.
  intros Hi Hb Hm. unfold trySwitchMaster.
  rewrite slot_at_of_nat, Hi.
  rewrite (switch_plan_keeps masters cache (snapshot slot) Hb Hm). reflexivity.
Qed.

(** A step of the loop of [SwitchMasters] at [j] leaves the cell [i] alone
    and adds no event of the slot [i]. *)
Lemma trySwitchMaster_frame (masters : gmap Z string) (cache : InfoCache)
    (s : Router) (i j : nat) (slot : Slot) :
  wf_router s ->
  i <> j ->
  (j < length (slots s))%nat ->
  slots s !! i = Some slot ->
  exists (s' : Router) (evs : list Event),
    trySwitchMaster (Z.of_nat j) masters cache s = Some s'
    /\ wf_router s'
    /\ slots s' !! i = Some slot
    /\ closed s' = closed s
    /\ trace s' = evs ++ trace s
    /\ Forall (fun ev => event_slot ev <> Z.of_nat i) evs.
Proof.
  intros Hwf Hne Hj Hi.
  destruct (lookup_lt_is_Some_2 (slots s) j Hj) as [slotj Hslotj].
  unfold trySwitchMaster. rewrite slot_at_of_nat, Hslotj.
  destruct (switch_plan masters cache (snapshot slotj)) as [m sw] eqn:Hplan.
  destruct sw.
  - assert (Hid : models.Id m = Z.of_nat j).
    { pose proof (switch_plan_Id masters cache (snapshot slotj)) as Hid.
      rewrite Hplan in Hid. cbn [fst snapshot models.Id] in Hid.
      rewrite Hid. apply (proj2 Hwf j slotj Hslotj). }
    destruct (fillSlot_cell m true None s j slotj Hwf Hslotj Hid)
      as (slot' & evs & s' & Hfill & Hwf' & Hslots & Hclosed & Htrace & Hevs & _).
    exists s', evs. repeat split; try assumption; try apply Hwf'.
    + rewrite Hslots, list_lookup_insert_ne by congruence. exact Hi.
    + eapply Forall_impl; [exact Hevs|]. cbv beta. intros ev ->. lia.
  - exists s, []. repeat split; try assumption; try apply Hwf. constructor.
Qed.

Lemma for_each_app (step : Z -> Router -> option Router) (l1 l2 : list nat) (s : Router) :
  for_each step (l1 ++ l2) s =
  match for_each step l1 s with
  | None => None
  | Some s' => for_each step l2 s'
  end.
Proof.
  revert s. induction l1 as [|i l1 IH]; intros s; cbn [for_each app]; [reflexivity|].
  destruct (step (Z.of_nat i) s); [apply IH|reflexivity].
Qed.

(** The loop of [SwitchMasters] over indices other than [i]. *)
Lemma switch_range_frame (masters : gmap Z string) (cache : InfoCache)
    (i : nat) (slot : Slot) (l : list nat) :
  ~ In i l ->
  forall s : Router,
    wf_router s ->
    Forall (fun j => (j < length (slots s))%nat) l ->
    slots s !! i = Some slot ->
    exists (s' : Router) (evs : list Event),
      for_each (fun k => trySwitchMaster k masters cache) l s = Some s'
      /\ wf_router s'
      /\ slots s' !! i = Some slot
      /\ closed s' = closed s
      /\ trace s' = evs ++ trace s
      /\ Forall (fun ev => event_slot ev <> Z.of_nat i) evs.
Proof.
  induction l as [|j l IH]; intros Hnotin s Hwf Hl Hi.
  - exists s, []. repeat split; try assumption; try apply Hwf. constructor.
  - cbn [for_each].
    apply Forall_cons in Hl as [Hj Hl].
    destruct (trySwitchMaster_frame masters cache s i j slot Hwf) as
      (s1 & evs1 & -> & Hwf1 & Hi1 & Hclosed1 & Htrace1 & Hevs1); try assumption.
    { intros ->. apply Hnotin. left. reflexivity. }
    destruct (IH ltac:(intros Hin; apply Hnotin; right; exact Hin) s1 Hwf1) as
      (s2 & evs2 & Hrun & Hwf2 & Hi2 & Hclosed2 & Htrace2 & Hevs2); try assumption.
    { destruct Hwf as [Hlen _], Hwf1 as [Hlen1 _]. unfold full_array in *.
      rewrite Hlen1, <- Hlen. exact Hl. }
    exists s2, (evs2 ++ evs1). repeat split; try assumption; try apply Hwf2.
    + congruence.
    + rewrite Htrace2, Htrace1, app_assoc. reflexivity.
    + apply Forall_app. split; assumption.
Qed.

Lemma length_zero_empty (a : string) : (String.length a =? 0)%nat = true <-> a = ""%string.
Proof.
  destruct a; cbn; split; (reflexivity || discriminate).
Qed.

(** The step of the loop of [SwitchMasters] at the cell [i] itself. *)
Lemma trySwitchMaster_at (masters : gmap Z string) (cache : InfoCache)
    (s : Router) (i : nat) (slot : Slot) :
  wf_router s ->
  slots s !! i = Some slot ->
  exists (s' : Router) (slot' : Slot) (evs : list Event),
    trySwitchMaster (Z.of_nat i) masters cache s = Some s'
    /\ wf_router s'
    /\ slots s' !! i = Some slot'
    /\ closed s' = closed s
    /\ trace s' = evs ++ trace s
    /\ (same_master masters cache (backend_id slot) (Addr (backend_bc slot)) ->
        same_master masters cache (migrate_id slot) (Addr (migrate_bc slot)) ->
        slot' = slot /\ evs = [])
    /\ (masters_at masters (backend_id slot) <> ""%string ->
        masters_at masters (backend_id slot) <> Addr (backend_bc slot) ->
        GetRunId cache (masters_at masters (backend_id slot)) = ""%string ->
        slot_switched slot' = true
        /\ backend_bc slot' = Some (masters_at masters (backend_id slot))
        /\ In (EvBlockAndWait (Z.of_nat i)) evs).
Proof.
  intros Hwf Hi. unfold trySwitchMaster. rewrite slot_at_of_nat, Hi.
  destruct (switch_plan masters cache (snapshot slot)) as [m sw] eqn:Hplan.
  destruct sw.
  - assert (Hid : models.Id m = Z.of_nat i).
    { pose proof (switch_plan_Id masters cache (snapshot slot)) as Hid.
      rewrite Hplan in Hid. cbn [fst snapshot models.Id] in Hid.
      rewrite Hid. apply (proj2 Hwf i slot Hi). }
    destruct (fillSlot_cell m true None s i slot Hwf Hi Hid)
      as (slot' & evs & s' & Hfill & Hwf' & Hslots & Hclosed & Htrace & Hevs & Hdrain & Hsw & Hbc).
    exists s', slot', evs.
    split; [exact Hfill|]. split; [exact Hwf'|].
    split; [rewrite Hslots; apply list_lookup_insert_eq; apply lookup_lt_Some in Hi; exact Hi|].
    split; [exact Hclosed|]. split; [exact Htrace|]. split.
    + intros Hb Hm.
      pose proof (switch_plan_keeps masters cache (snapshot slot) Hb Hm) as Hkeep.
      rewrite Hplan in Hkeep. discriminate Hkeep.
    + intros Hne Hnew Hrid.
      destruct (switch_plan_unknown masters cache (snapshot slot) Hne Hnew Hrid) as [_ Haddr].
      rewrite Hplan in Haddr. cbn [fst snapshot models.BackendAddrGroupId] in Haddr.
      split; [exact Hsw|]. split; [|exact Hdrain].
      rewrite Hbc, Haddr.
      destruct (String.length (masters_at masters (backend_id slot)) =? 0)%nat eqn:Hzero;
        [|reflexivity].
      apply length_zero_empty in Hzero. contradiction.
  - exists s, slot, [].
    split; [reflexivity|]. split; [exact Hwf|]. split; [exact Hi|].
    split; [reflexivity|]. split; [reflexivity|]. split.
    + intros _ _. split; reflexivity.
    + intros Hne Hnew Hrid.
      destruct (switch_plan_unknown masters cache (snapshot slot) Hne Hnew Hrid) as [Hsw _].
      rewrite Hplan in Hsw. discriminate Hsw.
Qed.

Lemma seq_split_at (i n : nat) :
  (i < n)%nat -> seq 0 n = seq 0 i ++ i :: seq (S i) (n - S i).
Proof.
  intros Hi. replace n with (i + S (n - S i))%nat at 1 by lia.
  rewrite seq_app. reflexivity.
Qed.

(** What a whole run of [SwitchMasters] does to the cell [i]. *)
Lemma SwitchMasters_at (masters : gmap Z string) (cache : InfoCache)
    (s : Router) (i : nat) (slot : Slot) :
  wf_router s ->
  slots s !! i = Some slot ->
  exists (s' : Router) (err : option RouterError) (evs : list Event),
    SwitchMasters masters cache s = Some (s', err)
    /\ wf_router s'
    /\ trace s' = evs ++ trace s
    /\ (same_master masters cache (backend_id slot) (Addr (backend_bc slot)) ->
        same_master masters cache (migrate_id slot) (Addr (migrate_bc slot)) ->
        slots s' !! i = Some slot
        /\ Forall (fun ev => event_slot ev <> Z.of_nat i) evs)
    /\ (closed s = false ->
        masters_at masters (backend_id slot) <> ""%string ->
        masters_at masters (backend_id slot) <> Addr (backend_bc slot) ->
        GetRunId cache (masters_at masters (backend_id slot)) = ""%string ->
        exists slot' : Slot,
          slots s' !! i = Some slot'
          /\ slot_switched slot' = true
          /\ backend_bc slot' = Some (masters_at masters (backend_id slot))
          /\ In (EvBlockAndWait (Z.of_nat i)) evs).
Proof.
  intros Hwf Hi. unfold SwitchMasters.
  destruct (closed s) eqn:Hclosed.
  { exists s, (Some ErrClosedRouter), [].
    split; [reflexivity|]. split; [exact Hwf|]. split; [reflexivity|]. split.
    - intros _ _. split; [exact Hi|constructor].
    - discriminate. }
  pose proof (lookup_lt_Some _ _ _ Hi) as Hlt.
  unfold for_range_slots. rewrite (seq_split_at i _ Hlt), for_each_app.
  destruct (switch_range_frame masters cache i slot (seq 0 i)) with (s := s)
    as (s1 & evs1 & -> & Hwf1 & Hi1 & Hclosed1 & Htrace1 & Hevs1); try assumption.
  { rewrite in_seq. lia. }
  { apply Forall_forall. intros j Hj%elem_of_seq. lia. }
  cbn [for_each].
  destruct (trySwitchMaster_at masters cache s1 i slot Hwf1 Hi1)
    as (s2 & slot2 & evs2 & -> & Hwf2 & Hi2 & Hclosed2 & Htrace2 & Hkeep & Hswitch).
  assert (Hlen2 : length (slots s2) = length (slots s)).
  { destruct Hwf as [Hlen _], Hwf2 as [Hlen2 _]. unfold full_array in *. congruence. }
  destruct (switch_range_frame masters cache i slot2 (seq (S i) (length (slots s) - S i)))
    with (s := s2) as (s3 & evs3 & -> & Hwf3 & Hi3 & Hclosed3 & Htrace3 & Hevs3); try assumption.
  { rewrite in_seq. lia. }
  { apply Forall_forall. intros j Hj%elem_of_seq. lia. }
  exists s3, None, (evs3 ++ evs2 ++ evs1). split; [reflexivity|].
  split; [exact Hwf3|]. split.
  { rewrite Htrace3, Htrace2, Htrace1, !app_assoc. reflexivity. }
  split.
  - intros Hb Hm. destruct (Hkeep Hb Hm) as [-> ->]. split; [exact Hi3|].
    apply Forall_app. split; [exact Hevs3|exact Hevs1].
  - intros _ Hne Hnew Hrid. destruct (Hswitch Hne Hnew Hrid) as (Hsw & Hbc & Hdrain).
    exists slot2. repeat split; try assumption.
    apply in_or_app. right. apply in_or_app. left. exact Hdrain.
Qed.

Lemma FillSlot_wf (m : models.Slot) (s s' : Router) (err : option RouterError) :
  wf_router s -> FillSlot m s = Some (s', err) -> wf_router s'.
Proof.
  intros Hwf. unfold FillSlot.
  destruct (closed s); [intros [= <- _]; exact Hwf|].
  destruct (Z.ltb_spec (models.Id m) 0) as [|Hlo]; cbn [orb]; [intros [= <- _]; exact Hwf|].
  destruct (Z.leb_spec MaxSlotNum (models.Id m)) as [|Hhi]; [intros [= <- _]; exact Hwf|].
  assert (Hlt : (Z.to_nat (models.Id m) < length (slots s))%nat).
  { destruct Hwf as [Hlen _]. unfold full_array in Hlen. rewrite Hlen. lia. }
  destruct (lookup_lt_is_Some_2 _ _ Hlt) as [slot Hslot].
  assert (Hid : models.Id m = Z.of_nat (Z.to_nat (models.Id m))) by lia.
  destruct (if models.ForwardMethod m =? models.ForwardSync then _ else _) as [f|];
    [|intros [= <- _]; exact Hwf].
  destruct (fillSlot_cell m false (Some f) s _ slot Hwf Hslot Hid)
    as (slot' & evs & s1 & -> & Hwf1 & _).
  intros [= <- _]. exact Hwf1.
Qed.

Lemma example_router_wf : wf_router example.router.
Proof.
  unfold example.router.
  destruct (FillSlot example.desc (NewRouter example.cfg)) as [[s err]|] eqn:Hfill.
  - exact (FillSlot_wf _ _ _ _ (NewRouter_wf _) Hfill).
  - apply NewRouter_wf.
Qed.




(** C2 fails: the map gives group 1 the address [10.0.0.1] that slot 0
    holds, the info cache reports a run-id for that address, and
    [SwitchMasters] changes nothing at all: run-ids are compared only when the
    address strings differ, and the router keeps no run-id of its own. *)
Lemma same_address_not_reconfigured :
  let masters : gmap Z string := {[ 1 := "10.0.0.1"%string ]} in
  GetRunId example.restarted "10.0.0.1" = "run-id-after-restart"%string
  /\ (backend_bc <$> slot_at 0 (slots example.router)) = Some (Some "10.0.0.1"%string)
  /\ (backend_id <$> slot_at 0 (slots example.router)) = Some 1
  /\ SwitchMasters masters example.restarted example.router = Some (example.router, None)
  /\ (slot_switched <$> slot_at 0 (slots example.router)) = Some false.
Proof. vm_compute. repeat split. Qed.

(** C2, amended: when the map gives a slot's backend group the address the
    slot holds (and its migrate-from group no address or the address the slot
    holds), the slot is left as it is whatever run-id the info cache reports
    for that address: its step of the loop changes nothing, and the whole call
    neither re-fills nor drains it. *)
Theorem same_address_no_switch (masters : gmap Z string) (s : Router) (i : nat) (slot : Slot) :
  wf_router s ->
  slots s !! i = Some slot ->
  masters_at masters (backend_id slot) = Addr (backend_bc slot) ->
  masters_at masters (migrate_id slot) = ""%string
  \/ masters_at masters (migrate_id slot) = Addr (migrate_bc slot) ->
  forall cache : InfoCache,
    trySwitchMaster (Z.of_nat i) masters cache s = Some s
    /\ exists (s' : Router) (err : option RouterError) (evs : list Event),
         SwitchMasters masters cache s = Some (s', err)
         /\ slots s' !! i = Some slot
         /\ trace s' = evs ++ trace s
         /\ Forall (fun ev => event_slot ev <> Z.of_nat i) evs.
Proof.
  intros Hwf Hi Hb Hm cache.
  assert (Hsb : same_master masters cache (backend_id slot) (Addr (backend_bc slot))).
  { right. left. exact Hb. }
  assert (Hsm : same_master masters cache (migrate_id slot) (Addr (migrate_bc slot))).
  { destruct Hm as [Hm|Hm]; [left; exact Hm | right; left; exact Hm]. }
  split.
  - exact (trySwitchMaster_keeps masters cache s i slot Hi Hsb Hsm).
  - destruct (SwitchMasters_at masters cache s i slot Hwf Hi)
      as (s' & err & evs & Hrun & _ & Htrace & Hkeep & _).
    destruct (Hkeep Hsb Hsm) as [Hslot Hevs].
    exists s', err, evs. split; [exact Hrun|]. split; [exact Hslot|].
    split; [exact Htrace|exact Hevs].
Qed.

Lemma same_address_no_switch_witness :
  let masters : gmap Z string := {[ 1 := "10.0.0.1"%string ]} in
  let cache : InfoCache := example.restarted in
  trySwitchMaster 0 masters cache example.router = Some example.router
  /\ exists (s' : Router) (err : option RouterError) (evs : list Event),
       SwitchMasters masters cache example.router = Some (s', err)
       /\ slots s' !! 0%nat = Some example.slot0
       /\ trace s' = evs ++ trace example.router
       /\ Forall (fun ev => event_slot ev <> 0) evs.
Proof.
  apply (same_address_no_switch {[ 1 := "10.0.0.1"%string ]} example.router 0 example.slot0).
  - exact example_router_wf.
  - vm_compute. reflexivity.
  - vm_compute. reflexivity.
  - left. vm_compute. reflexivity.
Defined.

(** ** [FillSlot] *)

(** C3: [FillSlot] returns [ErrClosedRouter] whenever the router is closed;
    otherwise [ErrInvalidSlotId] whenever the slot id of the descriptor is
    outside [0, 1024); otherwise [ErrInvalidMethod] whenever the
    forwarding-kind tag is neither sync nor semi-async; it fails in no other
    case (it then runs [fillSlot] with the method of the tag), and when it
    fails the router, hence every slot, is as before. *)
Theorem FillSlot_errors (m : models.Slot) (s : Router) :
  full_array s ->
  exists (s' : Router) (err : option RouterError),
    FillSlot m s = Some (s', err)
    /\ (closed s = true -> err = Some ErrClosedRouter)
    /\ (closed s = false -> ~ (0 <= models.Id m < 1024) -> err = Some ErrInvalidSlotId)
    /\ (closed s = false -> 0 <= models.Id m < 1024 ->
        models.ForwardMethod m <> models.ForwardSync ->
        models.ForwardMethod m <> models.ForwardSemiAsync ->
        err = Some ErrInvalidMethod)
    /\ (closed s = false -> 0 <= models.Id m < 1024 ->
        forall f : forwardMethod, models.ForwardMethod m = GetId f ->
        err = None /\ fillSlot m false (Some f) s = Some s')
    /\ (err <> None -> s' = s).
Proof.
  intros Hlen. unfold FillSlot.
  destruct (closed s) eqn:Hclosed.
  { exists s, (Some ErrClosedRouter). split; [reflexivity|].
    repeat split; try discriminate; reflexivity. }
  destruct (Z.ltb_spec (models.Id m) 0) as [Hlo|Hlo]; cbn [orb].
  { exists s, (Some ErrInvalidSlotId). split; [reflexivity|].
    split; [discriminate|]. split; [reflexivity|].
    split; [intros _ Hr; lia|]. split; [intros _ Hr; lia|reflexivity]. }
  destruct (Z.leb_spec MaxSlotNum (models.Id m)) as [Hhi|Hhi].
  { exists s, (Some ErrInvalidSlotId). split; [reflexivity|].
    split; [discriminate|]. split; [reflexivity|]. unfold MaxSlotNum in Hhi.
    split; [intros _ Hr; lia|]. split; [intros _ Hr; lia|reflexivity]. }
  unfold MaxSlotNum in Hhi.
  assert (Hat : exists slot, slot_at (models.Id m) (slots s) = Some slot).
  { destruct (lookup_lt_is_Some_2 (slots s) (Z.to_nat (models.Id m))) as [slot Hslot].
    - unfold full_array, MaxSlotNum in Hlen. rewrite Hlen. lia.
    - exists slot. apply slot_at_Some. split; [lia|exact Hslot]. }
  destruct Hat as [slot Hat].
  destruct (Z.eqb_spec (models.ForwardMethod m) models.ForwardSync) as [Hsync|Hsync].
  { destruct (fillSlot_inv m false (Some forwardSync) s slot Hat) as (slot' & evs & s' & Hfill & _).
    rewrite Hfill. exists s', None. split; [reflexivity|].
    split; [discriminate|]. split; [intros _ Hr; lia|].
    split; [intros _ _ Hne; contradiction|].
    split; [|intros Hne; contradiction].
    intros _ _ f Hf. split; [reflexivity|].
    destruct f; [exact Hfill|]. rewrite Hsync in Hf. discriminate Hf. }
  destruct (Z.eqb_spec (models.ForwardMethod m) models.ForwardSemiAsync) as [Hsemi|Hsemi].
  { destruct (fillSlot_inv m false (Some forwardSemiAsync) s slot Hat)
      as (slot' & evs & s' & Hfill & _).
    rewrite Hfill. exists s', None. split; [reflexivity|].
    split; [discriminate|]. split; [intros _ Hr; lia|].
    split; [intros _ _ _ Hne; contradiction|].
    split; [|intros Hne; contradiction].
    intros _ _ f Hf. split; [reflexivity|].
    destruct f; [|exact Hfill]. rewrite Hsemi in Hf. discriminate Hf. }
  exists s, (Some ErrInvalidMethod). split; [reflexivity|].
  split; [discriminate|]. split; [intros _ Hr; lia|].
  split; [reflexivity|]. split; [|reflexivity].
  intros _ _ f Hf. destruct f; contradiction.
Qed.

Lemma FillSlot_errors_witness :
  let m := example.desc in
  let s := example.router in
  exists (s' : Router) (err : option RouterError),
    FillSlot m s = Some (s', err)
    /\ (closed s = true -> err = Some ErrClosedRouter)
    /\ (closed s = false -> ~ (0 <= models.Id m < 1024) -> err = Some ErrInvalidSlotId)
    /\ (closed s = false -> 0 <= models.Id m < 1024 ->
        models.ForwardMethod m <> models.ForwardSync ->
        models.ForwardMethod m <> models.ForwardSemiAsync ->
        err = Some ErrInvalidMethod)
    /\ (closed s = false -> 0 <= models.Id m < 1024 ->
        forall f : forwardMethod, models.ForwardMethod m = GetId f ->
        err = None /\ fillSlot m false (Some f) s = Some s')
    /\ (err <> None -> s' = s).
Proof.
  apply (FillSlot_errors example.desc example.router).
  exact (proj1 example_router_wf).
Defined.

(** The three failures of [FillSlot] on examples: a closed router, a slot id
    of 1024, a forwarding-kind tag of 7. *)
Example FillSlot_failures :
  (snd <$> (Close example.router ≫= FillSlot example.desc)) = Some (Some ErrClosedRouter)
  /\ FillSlot (models.empty 1024) example.router = Some (example.router, Some ErrInvalidSlotId)
  /\ FillSlot (models.empty (-1)) example.router = Some (example.router, Some ErrInvalidSlotId)
  /\ FillSlot {| models.Id := 5; models.Locked := false; models.Switched := false;
                 models.BackendAddr := "10.0.0.9"; models.BackendAddrGroupId := 2;
                 models.MigrateFrom := ""; models.MigrateFromGroupId := 0;
                 models.ForwardMethod := 7; models.ReplicaGroups := [] |} example.router
     = Some (example.router, Some ErrInvalidMethod).
Proof. vm_compute. repeat split. Qed.

(** ** [dispatch] and the life cycle *)

Section DispatchProperties.

Variable Request : Type.
Variable getHashKey : Request -> list byte.
Variable Hash : list byte -> N.
Variable forward : Slot -> Request -> option (list byte) -> Slot * option RouterError.

Local Abbreviation dispatch := (dispatch Request getHashKey Hash forward).
Local Abbreviation dispatchSlot := (dispatchSlot Request forward).
Local Abbreviation step := (step Request getHashKey Hash forward).
Local Abbreviation run := (run Request getHashKey Hash forward).

Lemma slot_in_range (s : Router) (id : Z) :
  full_array s -> 0 <= id < MaxSlotNum -> exists slot, slot_at id (slots s) = Some slot.
Proof.
  intros Hlen Hid.
  destruct (lookup_lt_is_Some_2 (slots s) (Z.to_nat id)) as [slot Hslot].
  - unfold full_array in Hlen. rewrite Hlen. lia.
  - exists slot. apply slot_at_Some. split; [lia|exact Hslot].
Qed.

Lemma slot_at_insert_ne (cells : list Slot) (id j : Z) (slot : Slot) :
  0 <= id -> j <> id -> slot_at j (<[Z.to_nat id := slot]> cells) = slot_at j cells.
Proof.
  intros Hid Hne. unfold slot_at. destruct (Z.ltb_spec j 0); [reflexivity|].
  apply list_lookup_insert_ne. lia.
Qed.

Lemma dispatch_at (r : Request) (s : Router) :
  full_array s ->
  let hkey := getHashKey r in
  let id := Z.of_N (Hash hkey) mod 1024 in
  exists slot : Slot,
    0 <= id < 1024
    /\ slot_at id (slots s) = Some slot
    /\ dispatch r s
       = Some (with_slot id (fst (forward slot r (Some hkey))) s,
               snd (forward slot r (Some hkey))).
Proof.
  intros Hlen hkey id.
  assert (Hid : 0 <= id < 1024) by (apply Z.mod_pos_bound; lia).
  destruct (slot_in_range s id Hlen Hid) as [slot Hslot].
  exists slot. split; [exact Hid|]. split; [exact Hslot|].
  unfold dispatch. fold hkey. change (Z.of_N (Hash hkey) mod MaxSlotNum) with id.
  rewrite Hslot. destruct (forward slot r (Some hkey)). reflexivity.
Qed.

Lemma with_slot_full (id : Z) (slot : Slot) (s : Router) :
  full_array s -> full_array (with_slot id slot s).
Proof.
  unfold full_array, with_slot. cbn [slots]. rewrite length_insert. intros H. exact H.
Qed.

(** C8: [dispatch] selects the slot whose id is the hash of the hash key
    modulo 1024, hands the request and the key to the [forward] of exactly
    that slot and returns what it returns; no other slot, and nothing else
    of the router, is touched. *)
Theorem dispatch_selects_slot (r : Request) (s : Router) :
  full_array s ->
  let hkey := getHashKey r in
  let id := Z.of_N (Hash hkey) mod 1024 in
  exists (slot : Slot) (s' : Router),
    0 <= id < 1024
    /\ slot_at id (slots s) = Some slot
    /\ dispatch r s = Some (s', snd (forward slot r (Some hkey)))
    /\ slot_at id (slots s') = Some (fst (forward slot r (Some hkey)))
    /\ (forall j : Z, j <> id -> slot_at j (slots s') = slot_at j (slots s))
    /\ pool_primary s' = pool_primary s /\ pool_replica s' = pool_replica s
    /\ online s' = online s /\ closed s' = closed s /\ trace s' = trace s.
Proof.
  intros Hlen hkey id.
  destruct (dispatch_at r s Hlen) as (slot & Hid & Hslot & Hrun).
  fold hkey in Hid, Hslot, Hrun. fold id in Hid, Hslot, Hrun.
  exists slot, (with_slot id (fst (forward slot r (Some hkey))) s).
  split; [exact Hid|]. split; [exact Hslot|]. split; [exact Hrun|]. split.
  { cbn [with_slot slots]. apply slot_at_Some. split; [lia|].
    apply list_lookup_insert_eq. apply slot_at_Some in Hslot as [_ Hslot].
    exact (lookup_lt_Some _ _ _ Hslot). }
  split.
  { intros j Hj. cbn [with_slot slots]. apply slot_at_insert_ne; lia. }
  repeat split.
Qed.

Lemma for_each_fillSlot_empty (l : list nat) : forall s : Router,
  Forall (fun j => (j < length (slots s))%nat) l ->
  exists s' : Router,
    for_each (fun i => fillSlot (models.empty i) false None) l s = Some s'
    /\ length (slots s') = length (slots s)
    /\ closed s' = closed s /\ online s' = online s.
Proof.
  induction l as [|j l IH]; intros s Hl; cbn [for_each].
  - exists s. repeat split.
  - apply Forall_cons in Hl as [Hj Hl].
    destruct (lookup_lt_is_Some_2 (slots s) j Hj) as [slot Hslot].
    destruct (fillSlot_inv (models.empty (Z.of_nat j)) false None s slot)
      as (slot' & evs & s1 & -> & Hslots & _ & Honline & Hclosed & _).
    { cbn [models.empty models.Id]. rewrite slot_at_of_nat. exact Hslot. }
    assert (Hlen1 : length (slots s1) = length (slots s)).
    { rewrite Hslots. apply length_insert. }
    destruct (IH s1) as (s2 & -> & Hlen2 & Hclosed2 & Honline2).
    { rewrite Hlen1. exact Hl. }
    exists s2. split; [reflexivity|]. repeat split; congruence.
Qed.

(** [Close] returns, and leaves a closed router with its array whole. *)
Lemma Close_closes (s : Router) :
  exists s' : Router,
    Close s = Some s' /\ closed s' = true
    /\ length (slots s') = length (slots s) /\ online s' = online s.
Proof.
  unfold Close. destruct (closed s) eqn:Hclosed.
  - exists s. repeat split. exact Hclosed.
  - unfold for_range_slots. cbn [slots].
    destruct (for_each_fillSlot_empty (seq 0 (length (slots s)))
                {| pool_primary := pool_primary s; pool_replica := pool_replica s;
                   slots := slots s; config := config s; online := online s;
                   closed := true; trace := trace s |})
      as (s' & Hrun & Hlen & Hclosed' & Honline').
    { apply Forall_forall. intros j Hj%elem_of_seq. cbn [slots]. lia. }
    exists s'. repeat split; assumption.
Qed.

(** On a closed router every operation returns and leaves it closed, with
    its [online] flag and its array's length as they were. *)
Lemma step_closed (op : Op Request) (s : Router) :
  full_array s -> closed s = true ->
  exists s' : Router,
    step op s = Some s' /\ full_array s' /\ closed s' = true /\ online s' = online s.
Proof.
  intros Hlen Hclosed. destruct op as [| |m|masters cache| |r|r id]; cbn [step].
  - exists s. unfold Start. rewrite Hclosed. repeat split; assumption.
  - exists s. unfold Close. rewrite Hclosed. repeat split; assumption.
  - exists s. unfold FillSlot. rewrite Hclosed. repeat split; assumption.
  - exists s. unfold SwitchMasters. rewrite Hclosed. repeat split; assumption.
  - exists s. unfold KeepAlive. rewrite Hclosed. repeat split; assumption.
  - destruct (dispatch_at r s Hlen) as (slot & _ & _ & Hrun).
    rewrite Hrun. cbn [fmap option_fmap option_map fst].
    eexists. split; [reflexivity|].
    split; [apply with_slot_full; exact Hlen|]. split; [exact Hclosed|reflexivity].
  - unfold dispatchSlot.
    destruct (Z.ltb_spec id 0) as [Hlo|Hlo]; cbn [orb].
    { exists s. repeat split; assumption. }
    destruct (Z.leb_spec MaxSlotNum id) as [Hhi|Hhi].
    { exists s. repeat split; assumption. }
    destruct (slot_in_range s id Hlen ltac:(lia)) as [slot ->].
    destruct (forward slot r None) as [slot' err].
    cbn [fmap option_fmap option_map fst].
    eexists. split; [reflexivity|].
    split; [apply with_slot_full; exact Hlen|]. split; [exact Hclosed|reflexivity].
Qed.

Lemma run_closed (ops : list (Op Request)) : forall s : Router,
  full_array s -> closed s = true ->
  exists s' : Router,
    run ops s = Some s' /\ full_array s' /\ closed s' = true /\ online s' = online s.
Proof.
  induction ops as [|op ops IH]; intros s Hlen Hclosed; cbn [run].
  - exists s. repeat split; assumption.
  - destruct (step_closed op s Hlen Hclosed) as (s1 & -> & Hlen1 & Hclosed1 & Honline1).
    destruct (IH s1 Hlen1 Hclosed1) as (s2 & Hrun & Hlen2 & Hclosed2 & Honline2).
    exists s2. repeat split; try assumption. congruence.
Qed.

(** C10: [Close] closes the router, and after it, whatever operations are
    run in whatever order, the router is closed and not online; in every
    such state [Start] returns with the router as it was, the [online] flag
    not set, and [Close] returns with the router as it was, no slot walked
    again. *)
Theorem closed_router_stays_closed (s : Router) :
  full_array s ->
  exists s1 : Router,
    Close s = Some s1
    /\ closed s1 = true
    /\ forall ops : list (Op Request),
         exists s2 : Router,
           run ops s1 = Some s2
           /\ closed s2 = true
           /\ isOnline s2 = false
           /\ Start s2 = s2
           /\ Close s2 = Some s2.
Proof.
  intros Hlen.
  destruct (Close_closes s) as (s1 & HClose & Hclosed1 & Hlen1 & _).
  exists s1. split; [exact HClose|]. split; [exact Hclosed1|].
  intros ops.
  destruct (run_closed ops s1) as (s2 & Hrun & _ & Hclosed2 & _).
  { unfold full_array in *. congruence. }
  { exact Hclosed1. }
  exists s2. split; [exact Hrun|]. split; [exact Hclosed2|].
  split; [unfold isOnline; rewrite Hclosed2; apply andb_false_r|].
  split; [unfold Start; rewrite Hclosed2; reflexivity|].
  unfold Close. rewrite Hclosed2. reflexivity.
Qed.

End DispatchProperties.

Lemma dispatch_selects_slot_witness :
  let r : example.Request := [bytes "GET"; bytes "foo"] in
  let s := example.router in
  let forward := example.forward in
  let hkey := example.getHashKey r in
  let id := Z.of_N (example.Hash hkey) mod 1024 in
  exists (slot : Slot) (s' : Router),
    0 <= id < 1024
    /\ slot_at id (slots s) = Some slot
    /\ dispatch example.Request example.getHashKey example.Hash forward r s
       = Some (s', snd (forward slot r (Some hkey)))
    /\ slot_at id (slots s') = Some (fst (forward slot r (Some hkey)))
    /\ (forall j : Z, j <> id -> slot_at j (slots s') = slot_at j (slots s))
    /\ pool_primary s' = pool_primary s /\ pool_replica s' = pool_replica s
    /\ online s' = online s /\ closed s' = closed s /\ trace s' = trace s.
Proof.
  apply (dispatch_selects_slot example.Request example.getHashKey example.Hash
           example.forward [bytes "GET"; bytes "foo"] example.router).
  exact (proj1 example_router_wf).
Defined.

Lemma closed_router_stays_closed_witness :
  exists s1 : Router,
    Close example.router = Some s1
    /\ closed s1 = true
    /\ forall ops : list (Op example.Request),
         exists s2 : Router,
           run example.Request example.getHashKey example.Hash example.forward ops s1 = Some s2
           /\ closed s2 = true
           /\ isOnline s2 = false
           /\ Start s2 = s2
           /\ Close s2 = Some s2.
Proof.
  apply (closed_router_stays_closed example.Request example.getHashKey example.Hash
           example.forward example.router).
  exact (proj1 example_router_wf).
Defined.

(** A run on the example: started, closed, then started, re-filled and
    closed again; the router stays closed and off line, and the second
    [Close] adds no event. *)
Example life_cycle :
  let run := run example.Request example.getHashKey example.Hash example.forward in
  let s1 := run [OpStart _; OpClose _] example.router in
  let s2 := s1 ≫= run [OpStart _; OpFillSlot _ example.desc; OpDispatch _ [bytes "GET"; bytes "foo"];
                       OpClose _] in
  (isOnline <$> run [OpStart _] example.router) = Some true
  /\ (online <$> s1) = Some true /\ (closed <$> s1) = Some true
  /\ (isOnline <$> s1) = Some false
  /\ (isOnline <$> s2) = Some false
  /\ ((fun s => length (trace s)) <$> s2) = ((fun s => length (trace s)) <$> s1).
Proof. vm_compute. repeat split. Qed.

(** * Further properties of the decoder *)

(** ** [Btoi64] and decimal notation *)

Lemma decimal_from_ge (ds : list byte) : forall n : Z,
  all_digits ds -> 0 <= n -> n <= decimal_from n ds.
Proof.
  induction ds as [|c ds IH]; intros n Hds Hn; cbn [decimal_from fold_left]; [lia|].
  apply Forall_cons in Hds as [Hc Hds].
  pose proof (is_digit_range c Hc) as Hd.
  etransitivity; [|apply (IH _ Hds); lia]. lia.
Qed.

(** [ParseUint]'s loop computes the decimal value, or reports that it does
    not fit 64 bits. *)
Lemma ParseUint_loop_decimal (ds : list byte) : forall n : Z,
  all_digits ds -> 0 <= n <= strconv.maxUint64 ->
  strconv.ParseUint_loop ds n =
  if decimal_from n ds <=? strconv.maxUint64 then inr (decimal_from n ds) else inl ErrRange.
Proof.
  induction ds as [|c ds IH]; intros n Hds Hn; cbn [strconv.ParseUint_loop decimal_from fold_left].
  - destruct (Z.leb_spec n strconv.maxUint64); [reflexivity|lia].
  - apply Forall_cons in Hds as [Hc Hds]. rewrite Hc.
    pose proof (is_digit_range c Hc) as Hd.
    assert (Hcut : strconv.cutoff = 1844674407370955162) by reflexivity.
    assert (Hmax : strconv.maxUint64 = 18446744073709551615) by reflexivity.
    pose proof (decimal_from_ge ds (n * 10 + (byte_val c - byte_val "0")) Hds ltac:(lia)) as Hge.
    fold (decimal_from (n * 10 + (byte_val c - byte_val "0")) ds) in *.
    destruct (Z.leb_spec strconv.cutoff n) as [Hbig|Hsmall].
    + destruct (Z.leb_spec (decimal_from (n * 10 + (byte_val c - byte_val "0")) ds)
                  strconv.maxUint64); [lia|reflexivity].
    + cbv zeta.
      destruct (Z.ltb_spec strconv.maxUint64 (n * 10 + (byte_val c - byte_val "0"))) as [Hover|Hfit].
      * destruct (Z.leb_spec (decimal_from (n * 10 + (byte_val c - byte_val "0")) ds)
                    strconv.maxUint64); [lia|reflexivity].
      * apply IH; [exact Hds|lia].
Qed.

Lemma ParseUint_decimal (ds : list byte) :
  ds <> [] -> all_digits ds ->
  strconv.ParseUint ds =
  if decimal_value ds <=? strconv.maxUint64 then inr (decimal_value ds) else inl ErrRange.
Proof.
  intros Hne Hds. unfold strconv.ParseUint, decimal_value.
  destruct ds as [|c ds]; [contradiction|].
  apply ParseUint_loop_decimal; [exact Hds|].
  unfold strconv.maxUint64. lia.
Qed.

Lemma digit_not_sign (c : byte) :
  is_digit c = true -> Byte.eqb c "+" = false /\ Byte.eqb c "-" = false.
Proof.
  intros Hc. split.
  - destruct (Byte.eqb c "+") eqn:Heq; [|reflexivity].
    apply byte_dec_bl in Heq. subst c. discriminate Hc.
  - destruct (Byte.eqb c "-") eqn:Heq; [|reflexivity].
    apply byte_dec_bl in Heq. subst c. discriminate Hc.
Qed.

Lemma decimal_value_nonneg (ds : list byte) : all_digits ds -> 0 <= decimal_value ds.
Proof. intros Hds. apply (decimal_from_ge ds 0 Hds). lia. Qed.

(** [ParseInt] on a numeral: an optional sign and a non-empty run of
    digits. *)
Lemma ParseInt_decimal (ds : list byte) :
  ds <> [] -> all_digits ds ->
  let v := decimal_value ds in
  strconv.ParseInt ds = (if v <? 2 ^ 63 then inr v else inl ErrRange)
  /\ strconv.ParseInt ("+"%byte :: ds) = (if v <? 2 ^ 63 then inr v else inl ErrRange)
  /\ strconv.ParseInt ("-"%byte :: ds) = (if v <=? 2 ^ 63 then inr (- v) else inl ErrRange).
Proof.
  intros Hne Hds v.
  pose proof (ParseUint_decimal ds Hne Hds) as Hu. fold v in Hu.
  pose proof (decimal_value_nonneg ds Hds) as Hv. fold v in Hv.
  assert (Hmax : strconv.maxUint64 = 18446744073709551615) by reflexivity.
  assert (H63 : 2 ^ 63 = 9223372036854775808) by reflexivity.
  split; [|split].
  - unfold strconv.ParseInt. destruct ds as [|c ds]; [contradiction|].
    destruct (digit_not_sign c (Forall_inv Hds)) as [-> ->].
    rewrite Hu. cbn [negb andb].
    destruct (Z.leb_spec v strconv.maxUint64);
      destruct (Z.leb_spec (2 ^ 63) v); destruct (Z.ltb_spec v (2 ^ 63));
      try reflexivity; lia.
  - unfold strconv.ParseInt. change (Byte.eqb "+" "+") with true. cbv iota.
    rewrite Hu. cbn [negb andb].
    destruct (Z.leb_spec v strconv.maxUint64);
      destruct (Z.leb_spec (2 ^ 63) v); destruct (Z.ltb_spec v (2 ^ 63));
      try reflexivity; lia.
  - unfold strconv.ParseInt. change (Byte.eqb "-" "+") with false.
    change (Byte.eqb "-" "-") with true. cbv iota.
    rewrite Hu. cbn [negb andb].
    destruct (Z.leb_spec v strconv.maxUint64);
      destruct (Z.ltb_spec (2 ^ 63) v); destruct (Z.leb_spec v (2 ^ 63));
      try reflexivity; lia.
Qed.

(** X1: on a non-empty run of decimal digits [Btoi64] returns the number
    the digits denote when it is below [2^63] and a range error otherwise;
    a leading [+] changes nothing; with a leading [-] it returns the
    negated number when the digits denote at most [2^63] and a range error
    otherwise.  Leading zeros are accepted. *)
Theorem Btoi64_decimal (ds : list byte) :
  ds <> [] -> all_digits ds ->
  let v := decimal_value ds in
  Btoi64 ds = (if v <? 2 ^ 63 then Ret v else Raise (ErrNum ErrRange))
  /\ Btoi64 ("+"%byte :: ds) = (if v <? 2 ^ 63 then Ret v else Raise (ErrNum ErrRange))
  /\ Btoi64 ("-"%byte :: ds) = (if v <=? 2 ^ 63 then Ret (- v) else Raise (ErrNum ErrRange)).
Proof.
  intros Hne Hds v.
  destruct (ParseInt_decimal ds Hne Hds) as (H0 & Hplus & Hminus). fold v in H0, Hplus, Hminus.
  rewrite !Btoi64_as_ParseInt, H0, Hplus, Hminus.
  destruct (v <? 2 ^ 63); destruct (v <=? 2 ^ 63); repeat split.
Qed.

Lemma Btoi64_decimal_witness :
  let ds := bytes "9223372036854775808" in
  let v := decimal_value ds in
  Btoi64 ds = (if v <? 2 ^ 63 then Ret v else Raise (ErrNum ErrRange))
  /\ Btoi64 ("+"%byte :: ds) = (if v <? 2 ^ 63 then Ret v else Raise (ErrNum ErrRange))
  /\ Btoi64 ("-"%byte :: ds) = (if v <=? 2 ^ 63 then Ret (- v) else Raise (ErrNum ErrRange)).
Proof.
  apply (Btoi64_decimal (bytes "9223372036854775808")).
  - discriminate.
  - repeat constructor.
Defined.

Lemma ParseUint_loop_digits (s : list byte) : forall (n m : Z),
  strconv.ParseUint_loop s n = inr m -> all_digits s.
Proof.
  induction s as [|c s IH]; intros n m; cbn [strconv.ParseUint_loop].
  - intros _. constructor.
  - destruct (is_digit c) eqn:Hc; [|discriminate].
    destruct (strconv.cutoff <=? n); [discriminate|]. cbv zeta.
    destruct (strconv.maxUint64 <? _); [discriminate|].
    intros Hrec. constructor; [exact Hc|exact (IH _ _ Hrec)].
Qed.

(** X2: whatever [Btoi64] accepts is an optional sign followed by at least
    one decimal digit and nothing else, and the value returned is the number
    so written, within the range of [int64]. *)
Theorem Btoi64_accepts_numerals (b : list byte) (n : Z) :
  Btoi64 b = Ret n ->
  exists ds : list byte,
    ds <> [] /\ all_digits ds
    /\ ((b = ds \/ b = "+"%byte :: ds) /\ n = decimal_value ds
        \/ b = "-"%byte :: ds /\ n = - decimal_value ds)
    /\ - 2 ^ 63 <= n < 2 ^ 63.
Proof.
  rewrite Btoi64_as_ParseInt.
  destruct (strconv.ParseInt b) as [e|n'] eqn:Hparse; [discriminate|].
  intros [= ->].
  assert (Hshape : forall t un, strconv.ParseUint t = inr un ->
            t <> [] /\ all_digits t /\ un = decimal_value t /\ 0 <= un).
  { intros t un Hu. assert (Hne : t <> []) by (intros ->; discriminate Hu).
    assert (Hds : all_digits t).
    { unfold strconv.ParseUint in Hu. destruct t; [contradiction|].
      exact (ParseUint_loop_digits _ _ _ Hu). }
    rewrite (ParseUint_decimal t Hne Hds) in Hu.
    destruct (decimal_value t <=? strconv.maxUint64); [|discriminate].
    injection Hu as <-. repeat split; try assumption.
    apply decimal_value_nonneg. exact Hds. }
  assert (H63 : 2 ^ 63 = 9223372036854775808) by reflexivity.
  unfold strconv.ParseInt in Hparse. destruct b as [|c b]; [discriminate|].
  destruct (Byte.eqb c "+") eqn:Hplus; [|destruct (Byte.eqb c "-") eqn:Hminus].
  - apply byte_dec_bl in Hplus. subst c.
    destruct (strconv.ParseUint b) as [e|un] eqn:Hu; [discriminate|].
    destruct (Hshape b un Hu) as (Hne & Hds & -> & Hpos).
    cbn [negb andb] in Hparse.
    destruct (Z.leb_spec (2 ^ 63) (decimal_value b)); [discriminate|].
    injection Hparse as <-. exists b. repeat split; try assumption; try lia.
    left. split; [right; reflexivity|reflexivity].
  - apply byte_dec_bl in Hminus. subst c.
    destruct (strconv.ParseUint b) as [e|un] eqn:Hu; [discriminate|].
    destruct (Hshape b un Hu) as (Hne & Hds & -> & Hpos).
    cbn [negb andb] in Hparse.
    destruct (Z.ltb_spec (2 ^ 63) (decimal_value b)); [discriminate|].
    injection Hparse as <-. exists b. repeat split; try assumption; try lia.
    right. split; reflexivity.
  - destruct (strconv.ParseUint (c :: b)) as [e|un] eqn:Hu; [discriminate|].
    destruct (Hshape (c :: b) un Hu) as (Hne & Hds & -> & Hpos).
    cbn [negb andb] in Hparse.
    destruct (Z.leb_spec (2 ^ 63) (decimal_value (c :: b))); [discriminate|].
    injection Hparse as <-. exists (c :: b). repeat split; try assumption; try lia.
    left. split; [left; reflexivity|reflexivity].
Qed.

Lemma Btoi64_accepts_numerals_witness :
  exists ds : list byte,
    ds <> [] /\ all_digits ds
    /\ ((bytes "-0042" = ds \/ bytes "-0042" = "+"%byte :: ds) /\ -42 = decimal_value ds
        \/ bytes "-0042" = "-"%byte :: ds /\ -42 = - decimal_value ds)
    /\ - 2 ^ 63 <= -42 < 2 ^ 63.
Proof.
  apply (Btoi64_accepts_numerals (bytes "-0042") (-42)). reflexivity.
Defined.

(** ** Frames on the wire *)

Lemma decodeResp_fuel_le (f1 f2 : nat) (rd : bufio2.Reader) (out : frame_res * bufio2.Reader) :
  (f1 <= f2)%nat -> decodeResp f1 rd = Done out -> decodeResp f2 rd = Done out.
Proof.
  induction 1 as [|f2 _ IH]; intros Hdone; [exact Hdone|].
  apply decodeResp_fuel_mono, IH, Hdone.
Qed.

(** With fuel above the length of the reader, [decodeResp] returns what it
    returns for [Decode]. *)
Lemma decodeResp_any_fuel (fuel : nat) (rd : bufio2.Reader) :
  (length rd < fuel)%nat -> decodeResp fuel rd = decodeResp (enough rd) rd.
Proof.
  intros Hfuel.
  destruct (decodeResp_enough_fuel (enough rd) (length rd) ltac:(unfold enough; lia)
              rd (Nat.le_refl _)) as (fr & rd' & Hdone & _).
  rewrite Hdone. apply (decodeResp_fuel_le (enough rd)); [unfold enough; lia|exact Hdone].
Qed.

Lemma no_LF_In (text : list byte) : ~ In LF text -> no_LF text.
Proof.
  induction text as [|c text IH]; intros Hin; constructor.
  - destruct (Byte.eqb c LF) eqn:Heq; [|reflexivity].
    apply byte_dec_bl in Heq. exfalso. apply Hin. left. exact Heq.
  - apply IH. intros H. apply Hin. right. exact H.
Qed.

Lemma Decode_decodes_to (chunk rest : list byte) (r : Resp) :
  decodes_to chunk r ->
  DecodeFromBytes (chunk ++ rest) = Done ((Some r, None), {| br := rest; Err := None |}).
Proof.
  intros Hchunk. unfold DecodeFromBytes, Decode, NewDecoderBuffer. cbn [Err br].
  rewrite (Hchunk rest). reflexivity.
Qed.

Lemma text_decodes_to (tag : byte) (text : list byte) :
  is_text_tag tag -> no_LF text ->
  decodes_to (tag :: text ++ CRLF) (mkResp tag (Some text) None).
Proof.
  intros Htag Htext rest. unfold enough.
  cbn [app length decodeResp bufio2.ReadByte].
  assert (Hcase : Byte.eqb tag TypeString || Byte.eqb tag TypeError || Byte.eqb tag TypeInt = true).
  { destruct Htag as [->|[->| ->]]; reflexivity. }
  rewrite Hcase, <- app_assoc, (decodeTextBytes_line text rest Htext). reflexivity.
Qed.

(** X3: a simple-string, error or integer frame decodes to its tag and the
    text of its line, whatever bytes other than a line feed the text holds:
    an integer frame is not checked to hold a number, and a carriage return
    inside the text is kept. *)
Theorem text_frame_decodes (tag : byte) (text rest : list byte) :
  is_text_tag tag ->
  ~ In LF text ->
  DecodeFromBytes (tag :: text ++ CRLF ++ rest)
  = Done ((Some (mkResp tag (Some text) None), None), {| br := rest; Err := None |}).
Proof.
  intros Htag Htext.
  change (tag :: text ++ CRLF ++ rest) with ((tag :: text) ++ CRLF ++ rest).
  rewrite app_assoc.
  apply (Decode_decodes_to ((tag :: text) ++ CRLF) rest).
  apply (text_decodes_to tag text Htag (no_LF_In text Htext)).
Qed.

Lemma text_frame_decodes_witness :
  DecodeFromBytes (TypeInt :: bytes "not a number" ++ [CR] ++ CRLF ++ bytes "+OK")
  = Done ((Some (mkResp TypeInt (Some (bytes "not a number" ++ [CR])) None), None),
          {| br := bytes "+OK"; Err := None |}).
Proof.
  apply (text_frame_decodes TypeInt (bytes "not a number" ++ [CR]) (bytes "+OK")).
  - right. right. reflexivity.
  - vm_compute. intuition discriminate.
Defined.

(** A line that ends in a line feed with no carriage return before it. *)
Lemma bare_LF_check (text : list byte) :
  (forall t, text <> t ++ [CR]) ->
  let b := text ++ [LF] in
  let n := Z.of_nat (length b) - 2 in
  (n <? 0) || negb (Byte.eqb (at_ b n) CR) = true.
Proof.
  intros Hend. cbv zeta. rewrite length_app. cbn [length].
  destruct text as [|c0 text0] using rev_ind.
  - reflexivity.
  - clear IHtext0. rewrite length_app. cbn [length].
    replace (Z.of_nat (length text0 + 1 + 1) - 2) with (Z.of_nat (length text0)) by lia.
    apply orb_true_iff. right. apply negb_true_iff.
    unfold at_. rewrite Nat2Z.id, <- app_assoc, app_nth2 by lia.
    rewrite Nat.sub_diag. cbn [app nth].
    destruct (Byte.eqb c0 CR) eqn:Heq; [|reflexivity].
    apply byte_dec_bl in Heq. subst c0. exfalso. exact (Hend text0 eq_refl).
Qed.

Lemma ReadSlice_bare_LF (text rest : list byte) :
  no_LF text -> bufio2.ReadSlice LF (text ++ LF :: rest) = (Ret (text ++ [LF]), rest).
Proof.
  intros Htext. unfold bufio2.ReadSlice. rewrite (cut_app LF text rest Htext). reflexivity.
Qed.

Lemma decodeTextBytes_bare_LF (text rest : list byte) :
  no_LF text -> (forall t, text <> t ++ [CR]) ->
  decodeTextBytes (text ++ LF :: rest) = (Raise ErrBadCRLFEnd, rest).
Proof.
  intros Htext Hend. unfold decodeTextBytes, bufio2.ReadBytes.
  rewrite (ReadSlice_bare_LF text rest Htext), (bare_LF_check text Hend). reflexivity.
Qed.

Lemma decodeInt_bare_LF (text rest : list byte) :
  no_LF text -> (forall t, text <> t ++ [CR]) ->
  decodeInt (text ++ LF :: rest) = (Raise ErrBadCRLFEnd, rest).
Proof.
  intros Htext Hend. unfold decodeInt.
  rewrite (ReadSlice_bare_LF text rest Htext), (bare_LF_check text Hend). reflexivity.
Qed.

(** X4: a frame of any of the five kinds whose first line ends in a line
    feed that no carriage return precedes is rejected with [ErrBadCRLFEnd],
    before its text or its length field is looked at. *)
Theorem bare_LF_rejected (tag : byte) (text rest : list byte) :
  is_frame_tag tag ->
  ~ In LF text ->
  (forall t, text <> t ++ [CR]) ->
  DecodeFromBytes (tag :: text ++ LF :: rest)
  = Done ((Some (mkResp tag None None), Some ErrBadCRLFEnd),
          {| br := rest; Err := Some ErrBadCRLFEnd |}).
Proof.
  intros Htag Htext%no_LF_In Hend.
  unfold DecodeFromBytes, Decode, NewDecoderBuffer, enough.
  cbn [Err br length decodeResp bufio2.ReadByte].
  destruct Htag as [[->|[->| ->]]|[->| ->]].
  - change (Byte.eqb TypeString TypeString || _ || _) with true. cbv iota.
    rewrite (decodeTextBytes_bare_LF text rest Htext Hend). reflexivity.
  - change (Byte.eqb TypeError TypeString || _ || _) with true. cbv iota.
    rewrite (decodeTextBytes_bare_LF text rest Htext Hend). reflexivity.
  - change (Byte.eqb TypeInt TypeString || _ || _) with true. cbv iota.
    rewrite (decodeTextBytes_bare_LF text rest Htext Hend). reflexivity.
  - change (Byte.eqb TypeBulkBytes TypeString || _ || _) with false.
    change (Byte.eqb TypeBulkBytes TypeBulkBytes) with true. cbv iota.
    unfold decodeBulkBytes. rewrite (decodeInt_bare_LF text rest Htext Hend). reflexivity.
  - change (Byte.eqb TypeArray TypeString || _ || _) with false.
    change (Byte.eqb TypeArray TypeBulkBytes) with false.
    change (Byte.eqb TypeArray TypeArray) with true. cbv iota.
    unfold decodeArray_with. rewrite (decodeInt_bare_LF text rest Htext Hend). reflexivity.
Qed.

Lemma bare_LF_rejected_witness :
  DecodeFromBytes (TypeBulkBytes :: bytes "3" ++ LF :: bytes "abc" ++ CRLF)
  = Done ((Some (mkResp TypeBulkBytes None None), Some ErrBadCRLFEnd),
          {| br := bytes "abc" ++ CRLF; Err := Some ErrBadCRLFEnd |}).
Proof.
  apply (bare_LF_rejected TypeBulkBytes (bytes "3") (bytes "abc" ++ CRLF)).
  - right. left. reflexivity.
  - vm_compute. intuition discriminate.
  - intros [|c [|c' t]]; discriminate.
Defined.

(** ** Bulk strings of any length *)

(** After the header of a bulk of [n] bytes: the payload and the two bytes
    that follow it. *)
Lemma decodeBulkBytes_body (hdr payload rest : list byte) (n : Z) (c1 c2 : byte) :
  strconv.ParseInt hdr = inr n ->
  0 <= n <= MaxBulkBytesLen ->
  Z.of_nat (length payload) = n ->
  decodeBulkBytes (hdr ++ CRLF ++ payload ++ c1 :: c2 :: rest)
  = (if negb (Byte.eqb c1 CR) || negb (Byte.eqb c2 LF) then Raise ErrBadCRLFEnd
     else Ret (Some payload), rest).
Proof.
  intros Hparse Hn Hlen. unfold decodeBulkBytes.
  rewrite (decodeInt_numeral hdr _ n Hparse).
  destruct (Z.ltb_spec n (-1)); [lia|].
  destruct (Z.ltb_spec MaxBulkBytesLen n); [lia|].
  destruct (Z.eqb_spec n (-1)); [lia|].
  unfold bufio2.ReadFull.
  change (payload ++ c1 :: c2 :: rest) with (payload ++ [c1; c2] ++ rest).
  assert (Htake : Z.to_nat (n + 2) = length (payload ++ [c1; c2])).
  { rewrite length_app. cbn [length]. lia. }
  destruct (Z.ltb_spec (Z.of_nat (length (payload ++ [c1; c2] ++ rest))) (n + 2)) as [Hshort|_].
  { rewrite !length_app in Hshort. cbn [length] in Hshort. lia. }
  rewrite app_assoc, Htake.
  rewrite firstn_app, Nat.sub_diag, firstn_all, skipn_app, Nat.sub_diag, skipn_all.
  cbn [firstn skipn app]. rewrite app_nil_r.
  assert (H1 : at_ (payload ++ [c1; c2]) n = c1).
  { unfold at_. rewrite <- Hlen, Nat2Z.id, app_nth2 by lia.
    rewrite Nat.sub_diag. reflexivity. }
  assert (H2 : at_ (payload ++ [c1; c2]) (n + 1) = c2).
  { unfold at_. replace (Z.to_nat (n + 1)) with (S (length payload)) by lia.
    rewrite app_nth2 by lia.
    replace (S (length payload) - length payload)%nat with 1%nat by lia. reflexivity. }
  rewrite H1, H2.
  destruct (negb (Byte.eqb c1 CR) || negb (Byte.eqb c2 LF)); [reflexivity|].
  unfold upto. rewrite <- Hlen, Nat2Z.id.
  rewrite firstn_app, Nat.sub_diag, firstn_all. cbn [firstn]. rewrite app_nil_r.
  reflexivity.
Qed.

(** X5: bulk strings are binary-safe.  A bulk frame whose header is a
    numeral of [n], with [0 <= n <= 512 MiB], followed by [n] bytes and
    [CR LF], decodes to exactly those [n] bytes, whatever they are (carriage
    returns and line feeds included), and leaves what follows the frame in
    the reader; for [n = 0] the value is the empty string, not null. *)
Theorem bulk_frame_decodes (hdr payload rest : list byte) :
  strconv.ParseInt hdr = inr (Z.of_nat (length payload)) ->
  Z.of_nat (length payload) <= 512 * 1024 * 1024 ->
  DecodeFromBytes (TypeBulkBytes :: hdr ++ CRLF ++ payload ++ CRLF ++ rest)
  = Done ((Some (mkResp TypeBulkBytes (Some payload) None), None),
          {| br := rest; Err := None |}).
Proof.
  intros Hparse Hn. unfold DecodeFromBytes. rewrite Decode_bulk.
  rewrite (decodeBulkBytes_payload hdr payload rest _ Hparse); [reflexivity| |reflexivity].
  unfold MaxBulkBytesLen. lia.
Qed.

Lemma bulk_frame_decodes_witness :
  DecodeFromBytes (bytes "$4" ++ CRLF ++ [CR; LF; CR; LF] ++ CRLF ++ bytes ":1")
  = Done ((Some (mkResp TypeBulkBytes (Some [CR; LF; CR; LF]) None), None),
          {| br := bytes ":1"; Err := None |})
  /\ DecodeFromBytes (bytes "$0" ++ CRLF ++ [] ++ CRLF ++ [])
     = Done ((Some (mkResp TypeBulkBytes (Some []) None), None), {| br := []; Err := None |}).
Proof.
  split.
  - apply (bulk_frame_decodes (bytes "4") [CR; LF; CR; LF] (bytes ":1")); [reflexivity|].
    cbn [length]. lia.
  - apply (bulk_frame_decodes (bytes "0") [] []); [reflexivity|]. cbn [length]. lia.
Defined.

(** X6: a bulk frame whose payload of the declared length is followed by
    two bytes other than [CR LF] is rejected with [ErrBadCRLFEnd]: no value
    is returned and the decoder is left failed. *)
Theorem bulk_bad_terminator (hdr payload rest : list byte) (c1 c2 : byte) :
  strconv.ParseInt hdr = inr (Z.of_nat (length payload)) ->
  Z.of_nat (length payload) <= 512 * 1024 * 1024 ->
  c1 <> CR \/ c2 <> LF ->
  DecodeFromBytes (TypeBulkBytes :: hdr ++ CRLF ++ payload ++ c1 :: c2 :: rest)
  = Done ((Some (mkResp TypeBulkBytes None None), Some ErrBadCRLFEnd),
          {| br := rest; Err := Some ErrBadCRLFEnd |}).
Proof.
  intros Hparse Hn Hterm. unfold DecodeFromBytes. rewrite Decode_bulk.
  rewrite (decodeBulkBytes_body hdr payload rest _ c1 c2 Hparse); [| |reflexivity].
  - assert (Hbad : negb (Byte.eqb c1 CR) || negb (Byte.eqb c2 LF) = true).
    { apply orb_true_iff. destruct Hterm as [H1|H2]; [left|right]; apply negb_true_iff.
      - destruct (Byte.eqb c1 CR) eqn:Heq; [apply byte_dec_bl in Heq; contradiction|reflexivity].
      - destruct (Byte.eqb c2 LF) eqn:Heq; [apply byte_dec_bl in Heq; contradiction|reflexivity]. }
    rewrite Hbad. reflexivity.
  - unfold MaxBulkBytesLen. lia.
Qed.

Lemma bulk_bad_terminator_witness :
  DecodeFromBytes (bytes "$3" ++ CRLF ++ bytes "abc" ++ "d"%byte :: CR :: [LF])
  = Done ((Some (mkResp TypeBulkBytes None None), Some ErrBadCRLFEnd),
          {| br := [LF]; Err := Some ErrBadCRLFEnd |}).
Proof.
  apply (bulk_bad_terminator (bytes "3") (bytes "abc") [LF] "d" CR); [reflexivity| |].
  - cbn [length bytes]. vm_compute. discriminate.
  - left. discriminate.
Defined.

(** X7: a bulk frame whose stream ends before the declared payload and its
    terminator are complete fails with the reader's error and leaves the
    decoder failed: nothing of a partial payload is returned. *)
Theorem bulk_truncated (hdr avail : list byte) (n : Z) :
  strconv.ParseInt hdr = inr n ->
  0 <= n <= 512 * 1024 * 1024 ->
  Z.of_nat (length avail) < n + 2 ->
  exists (e : IOErr) (d : Decoder),
    DecodeFromBytes (TypeBulkBytes :: hdr ++ CRLF ++ avail)
    = Done ((Some (mkResp TypeBulkBytes None None), Some (ErrIO e)), d)
    /\ Err d = Some (ErrIO e).
Proof.
  intros Hparse Hn Hshort. unfold DecodeFromBytes. rewrite Decode_bulk.
  unfold decodeBulkBytes. rewrite (decodeInt_numeral hdr avail n Hparse).
  destruct (Z.ltb_spec n (-1)); [lia|].
  destruct (Z.ltb_spec MaxBulkBytesLen n); [unfold MaxBulkBytesLen in *; lia|].
  destruct (Z.eqb_spec n (-1)); [lia|].
  unfold bufio2.ReadFull.
  destruct (Z.ltb_spec (Z.of_nat (length avail)) (n + 2)); [|lia].
  eexists _, _. split; reflexivity.
Qed.

Lemma bulk_truncated_witness :
  exists (e : IOErr) (d : Decoder),
    DecodeFromBytes (TypeBulkBytes :: bytes "5" ++ CRLF ++ bytes "abc")
    = Done ((Some (mkResp TypeBulkBytes None None), Some (ErrIO e)), d)
    /\ Err d = Some (ErrIO e).
Proof.
  apply (bulk_truncated (bytes "5") (bytes "abc") 5); [reflexivity|lia|].
  vm_compute. reflexivity.
Defined.

(** ** Arrays and requests *)

Lemma bulk_decodes_to (hdr payload : list byte) :
  strconv.ParseInt hdr = inr (Z.of_nat (length payload)) ->
  Z.of_nat (length payload) <= MaxBulkBytesLen ->
  decodes_to (TypeBulkBytes :: hdr ++ CRLF ++ payload ++ CRLF)
             (mkResp TypeBulkBytes (Some payload) None).
Proof.
  intros Hparse Hn rest. unfold enough.
  cbn [app length decodeResp bufio2.ReadByte].
  change (Byte.eqb TypeBulkBytes TypeString || _ || _) with false.
  change (Byte.eqb TypeBulkBytes TypeBulkBytes) with true. cbv iota.
  rewrite <- !app_assoc.
  rewrite (decodeBulkBytes_payload hdr payload rest _ Hparse); [reflexivity| |reflexivity].
  lia.
Qed.

Lemma null_bulk_decodes_to (hdr : list byte) :
  strconv.ParseInt hdr = inr (-1) ->
  decodes_to (TypeBulkBytes :: hdr ++ CRLF) (mkResp TypeBulkBytes None None).
Proof.
  intros Hparse rest. unfold enough.
  cbn [app length decodeResp bufio2.ReadByte].
  change (Byte.eqb TypeBulkBytes TypeString || _ || _) with false.
  change (Byte.eqb TypeBulkBytes TypeBulkBytes) with true. cbv iota.
  rewrite <- app_assoc. unfold decodeBulkBytes.
  rewrite (decodeInt_numeral hdr rest (-1) Hparse). reflexivity.
Qed.

(** The elements of an array, one wire form after the other. *)
Lemma decode_elems_chunks (fuel : nat) (chunks : list (list byte)) (frames : list Resp) :
  Forall2 decodes_to chunks frames ->
  forall rest : list byte,
    (length (concat chunks ++ rest) < fuel)%nat ->
    decode_elems (fun rd => checked (decodeResp fuel rd)) (length frames) (concat chunks ++ rest)
    = Done (Ret frames, rest).
Proof.
  induction 1 as [|chunk r chunks frames Hchunk _ IH]; intros rest Hfuel.
  - reflexivity.
  - cbn [concat length decode_elems]. cbn [concat] in Hfuel. rewrite <- app_assoc in *.
    rewrite (decodeResp_any_fuel fuel _ Hfuel), (Hchunk (concat chunks ++ rest)).
    cbn [checked]. rewrite IH; [reflexivity|].
    rewrite length_app in Hfuel. lia.
Qed.

Lemma array_decodes_to (hdr : list byte) (chunks : list (list byte)) (frames : list Resp) :
  strconv.ParseInt hdr = inr (Z.of_nat (length frames)) ->
  Z.of_nat (length frames) <= MaxArrayLen ->
  Forall2 decodes_to chunks frames ->
  decodes_to (TypeArray :: hdr ++ CRLF ++ concat chunks) (mkResp TypeArray None (Some frames)).
Proof.
  intros Hparse Hn Hchunks rest. unfold enough.
  cbn [app length]. rewrite decodeResp_S. cbn [bufio2.ReadByte].
  change (Byte.eqb TypeArray TypeString || _ || _) with false.
  change (Byte.eqb TypeArray TypeBulkBytes) with false.
  change (Byte.eqb TypeArray TypeArray) with true. cbv iota.
  rewrite <- !app_assoc. unfold decodeArray, decodeArray_with.
  rewrite (decodeInt_numeral hdr _ _ Hparse).
  destruct (Z.ltb_spec (Z.of_nat (length frames)) (-1)); [lia|].
  destruct (Z.ltb_spec MaxArrayLen (Z.of_nat (length frames))); [lia|].
  destruct (Z.eqb_spec (Z.of_nat (length frames)) (-1)); [lia|].
  rewrite Nat2Z.id, (decode_elems_chunks _ chunks frames Hchunks rest); [reflexivity|].
  rewrite !length_app. lia.
Qed.

(** X8: arrays decode element by element.  An array frame whose header is
    a numeral of [n], with [0 <= n <= 1 Mi], followed by the wire forms of
    [n] frames (of any kind, arrays included) decodes to the array of these
    frames in order and consumes exactly these bytes; for [n = 0] it is the
    empty array, not the null one.  The frame so built is again a wire form,
    so arrays nest. *)
Theorem array_frame_decodes (hdr : list byte) (chunks : list (list byte)) (frames : list Resp) :
  strconv.ParseInt hdr = inr (Z.of_nat (length frames)) ->
  Z.of_nat (length frames) <= 1024 * 1024 ->
  Forall2 decodes_to chunks frames ->
  decodes_to (TypeArray :: hdr ++ CRLF ++ concat chunks) (mkResp TypeArray None (Some frames))
  /\ forall rest : list byte,
       DecodeFromBytes (TypeArray :: hdr ++ CRLF ++ concat chunks ++ rest)
       = Done ((Some (mkResp TypeArray None (Some frames)), None),
               {| br := rest; Err := None |}).
Proof.
  intros Hparse Hn Hchunks.
  assert (Hwire := array_decodes_to hdr chunks frames Hparse Hn Hchunks).
  split; [exact Hwire|]. intros rest.
  replace (TypeArray :: hdr ++ CRLF ++ concat chunks ++ rest)
    with ((TypeArray :: hdr ++ CRLF ++ concat chunks) ++ rest)
    by (cbn [app]; rewrite <- !app_assoc; reflexivity).
  apply Decode_decodes_to, Hwire.
Qed.

Lemma array_frame_decodes_witness :
  let inner := bytes "*1" ++ CRLF ++ bytes "$-1" ++ CRLF in
  let chunks := [bytes "$3" ++ CRLF ++ bytes "abc" ++ CRLF; bytes ":12" ++ CRLF; inner] in
  let frames := [mkResp TypeBulkBytes (Some (bytes "abc")) None;
                 mkResp TypeInt (Some (bytes "12")) None;
                 mkResp TypeArray None (Some [mkResp TypeBulkBytes None None])] in
  decodes_to (TypeArray :: bytes "3" ++ CRLF ++ concat chunks)
             (mkResp TypeArray None (Some frames))
  /\ forall rest : list byte,
       DecodeFromBytes (TypeArray :: bytes "3" ++ CRLF ++ concat chunks ++ rest)
       = Done ((Some (mkResp TypeArray None (Some frames)), None),
               {| br := rest; Err := None |}).
Proof.
  apply (array_frame_decodes (bytes "3")).
  - reflexivity.
  - cbn [length]. lia.
  - constructor; [|constructor; [|constructor; [|constructor]]].
    + apply (bulk_decodes_to (bytes "3") (bytes "abc")); [reflexivity|].
      unfold MaxBulkBytesLen. vm_compute. discriminate.
    + apply (text_decodes_to TypeInt (bytes "12")).
      * right. right. reflexivity.
      * repeat constructor.
    + apply (array_decodes_to (bytes "1") [bytes "$-1" ++ CRLF] [mkResp TypeBulkBytes None None]).
      * reflexivity.
      * unfold MaxArrayLen. cbn [length]. lia.
      * constructor; [|constructor].
        apply (null_bulk_decodes_to (bytes "-1")). reflexivity.
Defined.




Lemma bulk_elem_chunk (fuel : nat) (chunk rest : list byte) (r : Resp) :
  decodes_to chunk r ->
  (length (chunk ++ rest) < fuel)%nat ->
  bulk_elem fuel (chunk ++ rest)
  = Done (if negb (Byte.eqb (Typ r) TypeBulkBytes) then Raise ErrBadMultiBulkContent else Ret r,
          rest).
Proof.
  intros Hchunk Hfuel. unfold bulk_elem.
  rewrite (decodeResp_any_fuel fuel _ Hfuel), (Hchunk rest). cbn [checked].
  destruct (negb _); reflexivity.
Qed.

(** The elements of a request: bulk strings up to the first frame, if any,
    that is not one. *)
Lemma decode_elems_bulks (fuel : nat) (chunks : list (list byte)) (frames : list Resp) :
  Forall2 decodes_to chunks frames ->
  Forall (fun r => Typ r = TypeBulkBytes) frames ->
  forall (count : nat) (tail : list byte),
    (length (concat chunks ++ tail) < fuel)%nat ->
    decode_elems (bulk_elem fuel) (length frames + count) (concat chunks ++ tail)
    = match decode_elems (bulk_elem fuel) count tail with
      | Done (Ret rs, rd) => Done (Ret (frames ++ rs), rd)
      | other => other
      end.
Proof.
  induction 1 as [|chunk r chunks frames Hchunk _ IH]; intros Hbulk count tail Hfuel.
  - cbn [length Nat.add concat app].
    destruct (decode_elems (bulk_elem fuel) count tail) as [[[rs|e] rd]|]; reflexivity.
  - apply Forall_cons in Hbulk as [Hr Hbulk].
    cbn [concat length Nat.add decode_elems]. cbn [concat] in Hfuel.
    rewrite <- app_assoc in *.
    rewrite (bulk_elem_chunk fuel chunk _ r Hchunk Hfuel), Hr.
    change (negb (Byte.eqb TypeBulkBytes TypeBulkBytes)) with false. cbv iota.
    rewrite (IH Hbulk count tail) by (rewrite length_app in Hfuel; lia).
    destruct (decode_elems (bulk_elem fuel) count tail) as [[[rs|e] rd]|]; reflexivity.
Qed.

Lemma DecodeMultiBulk_array (hdr body : list byte) (n : Z) :
  strconv.ParseInt hdr = inr n ->
  0 < n <= MaxArrayLen ->
  DecodeMultiBulkFromBytes (TypeArray :: hdr ++ CRLF ++ body)
  = match decode_elems (bulk_elem (enough (TypeArray :: hdr ++ CRLF ++ body))) (Z.to_nat n) body with
    | OutOfFuel => OutOfFuel
    | Done (Raise e, rd) => Done ((None, Some e), {| br := rd; Err := Some e |})
    | Done (Ret multi, rd) => Done ((Some multi, None), {| br := rd; Err := None |})
    end.
Proof.
  intros Hparse Hn.
  unfold DecodeMultiBulkFromBytes, DecodeMultiBulk, NewDecoderBuffer, decodeMultiBulk.
  cbn [Err br bufio2.PeekByte bufio2.ReadByte].
  change (negb (Byte.eqb TypeArray TypeArray)) with false. cbv iota.
  rewrite (decodeInt_numeral hdr body n Hparse).
  destruct (Z.leb_spec n 0); [lia|].
  destruct (Z.ltb_spec MaxArrayLen n); [lia|].
  destruct (decode_elems _ _ body) as [[[multi|e] rd]|]; reflexivity.
Qed.

(** X10: a request in array form.  At the multi-bulk entry point an array
    header that is a numeral of [n], with [1 <= n <= 1 Mi], followed by the
    wire forms of [n] bulk strings (null ones included) decodes to these [n]
    bulk strings in order and leaves what follows the request in the
    reader. *)
Theorem multi_bulk_request (hdr : list byte) (chunks : list (list byte)) (frames : list Resp)
    (rest : list byte) :
  frames <> [] ->
  strconv.ParseInt hdr = inr (Z.of_nat (length frames)) ->
  Z.of_nat (length frames) <= 1024 * 1024 ->
  Forall2 decodes_to chunks frames ->
  Forall (fun r => Typ r = TypeBulkBytes) frames ->
  DecodeMultiBulkFromBytes (TypeArray :: hdr ++ CRLF ++ concat chunks ++ rest)
  = Done ((Some frames, None), {| br := rest; Err := None |}).
Proof.
  intros Hne Hparse Hn Hchunks Hbulk.
  rewrite (DecodeMultiBulk_array hdr _ _ Hparse).
  - rewrite Nat2Z.id.
    pose proof (decode_elems_bulks (enough (TypeArray :: hdr ++ CRLF ++ concat chunks ++ rest))
                  chunks frames Hchunks Hbulk 0 rest) as Helems.
    rewrite Nat.add_0_r in Helems. rewrite Helems.
    + cbn [decode_elems]. rewrite app_nil_r. reflexivity.
    + unfold enough. cbn [length]. rewrite !length_app. lia.
  - unfold MaxArrayLen. destruct frames; [contradiction|]. cbn [length] in *. lia.
Qed.

Lemma multi_bulk_request_witness :
  DecodeMultiBulkFromBytes
    (TypeArray :: bytes "2" ++ CRLF
     ++ concat [bytes "$3" ++ CRLF ++ bytes "GET" ++ CRLF; bytes "$-1" ++ CRLF]
     ++ bytes "PING" ++ CRLF)
  = Done ((Some [mkResp TypeBulkBytes (Some (bytes "GET")) None;
                 mkResp TypeBulkBytes None None], None),
          {| br := bytes "PING" ++ CRLF; Err := None |}).
Proof.
  apply (multi_bulk_request (bytes "2")).
  - discriminate.
  - reflexivity.
  - cbn [length]. lia.
  - constructor; [|constructor; [|constructor]].
    + apply (bulk_decodes_to (bytes "3") (bytes "GET")); [reflexivity|].
      vm_compute. discriminate.
    + apply (null_bulk_decodes_to (bytes "-1")). reflexivity.
  - repeat constructor.
Defined.

(** X11: a request in array form whose elements are bulk strings up to
    one that is a frame of another kind (a simple string, an integer, a
    nested array ...) fails with [ErrBadMultiBulkContent] as soon as that
    frame has been read: whatever follows it stays in the reader, and the
    bulk strings read before it are not returned. *)
Theorem multi_bulk_content (hdr : list byte) (chunks : list (list byte)) (frames : list Resp)
    (chunk : list byte) (r : Resp) (tail : list byte) (n : Z) :
  strconv.ParseInt hdr = inr n ->
  Z.of_nat (length frames) < n <= 1024 * 1024 ->
  Forall2 decodes_to chunks frames ->
  Forall (fun r => Typ r = TypeBulkBytes) frames ->
  decodes_to chunk r ->
  Typ r <> TypeBulkBytes ->
  DecodeMultiBulkFromBytes (TypeArray :: hdr ++ CRLF ++ concat chunks ++ chunk ++ tail)
  = Done ((None, Some ErrBadMultiBulkContent),
          {| br := tail; Err := Some ErrBadMultiBulkContent |}).
Proof.
  intros Hparse Hn Hchunks Hbulk Hchunk Hr.
  rewrite (DecodeMultiBulk_array hdr _ n Hparse) by (unfold MaxArrayLen; lia).
  set (fuel := enough _).
  assert (Hfuel : (length (concat chunks ++ chunk ++ tail) < fuel)%nat).
  { subst fuel. unfold enough. cbn [length]. rewrite !length_app. lia. }
  replace (Z.to_nat n) with (length frames + S (Z.to_nat n - S (length frames)))%nat by lia.
  rewrite (decode_elems_bulks fuel chunks frames Hchunks Hbulk _ _ Hfuel).
  cbn [decode_elems].
  rewrite (bulk_elem_chunk fuel chunk tail r Hchunk)
    by (rewrite !length_app in Hfuel; rewrite length_app; lia).
  destruct (Byte.eqb (Typ r) TypeBulkBytes) eqn:Heq; [|reflexivity].
  apply byte_dec_bl in Heq. contradiction.
Qed.

Lemma multi_bulk_content_witness :
  DecodeMultiBulkFromBytes
    (TypeArray :: bytes "3" ++ CRLF
     ++ concat [bytes "$3" ++ CRLF ++ bytes "SET" ++ CRLF]
     ++ (TypeInt :: bytes "1" ++ CRLF) ++ bytes "$1" ++ CRLF ++ bytes "v" ++ CRLF)
  = Done ((None, Some ErrBadMultiBulkContent),
          {| br := bytes "$1" ++ CRLF ++ bytes "v" ++ CRLF;
             Err := Some ErrBadMultiBulkContent |}).
Proof.
  apply (multi_bulk_content (bytes "3") _ [mkResp TypeBulkBytes (Some (bytes "SET")) None]
           _ (mkResp TypeInt (Some (bytes "1")) None) _ 3).
  - reflexivity.
  - cbn [length]. lia.
  - constructor; [|constructor].
    apply (bulk_decodes_to (bytes "3") (bytes "SET")); [reflexivity|]. vm_compute. discriminate.
  - repeat constructor.
  - apply (text_decodes_to TypeInt (bytes "1")); [right; right; reflexivity|repeat constructor].
  - discriminate.
Defined.

(** ** Several frames on one connection *)

(** X12: frames are decoded one per call.  When the reader holds the wire
    forms of several frames one after the other, as many calls to [Decode]
    return these frames in order, each without error, and leave the decoder
    usable with the bytes that follow the last frame. *)
Theorem frames_decode_in_order (chunks : list (list byte)) (frames : list Resp)
    (rest : list byte) :
  Forall2 decodes_to chunks frames ->
  calls (repeat CallDecode (length frames)) (NewDecoderBuffer (concat chunks ++ rest))
  = Done (map (fun r => ReplyResp (Some r) None) frames, NewDecoderBuffer rest).
Proof.
  induction 1 as [|chunk r chunks frames Hchunk _ IH].
  - reflexivity.
  - cbn [length repeat calls concat map call]. rewrite <- app_assoc.
    pose proof (Decode_decodes_to chunk (concat chunks ++ rest) r Hchunk) as Hdec.
    unfold DecodeFromBytes in Hdec. rewrite Hdec.
    change {| br := concat chunks ++ rest; Err := None |}
      with (NewDecoderBuffer (concat chunks ++ rest)).
    rewrite IH. reflexivity.
Qed.

Lemma frames_decode_in_order_witness :
  calls (repeat CallDecode 2)
        (NewDecoderBuffer (concat [TypeString :: bytes "OK" ++ CRLF; bytes "$-1" ++ CRLF]
                           ++ bytes ":7"))
  = Done ([ReplyResp (Some (mkResp TypeString (Some (bytes "OK")) None)) None;
           ReplyResp (Some (mkResp TypeBulkBytes None None)) None],
          NewDecoderBuffer (bytes ":7")).
Proof.
  apply (frames_decode_in_order _ [mkResp TypeString (Some (bytes "OK")) None;
                                   mkResp TypeBulkBytes None None]).
  constructor; [|constructor; [|constructor]].
  - apply (text_decodes_to TypeString (bytes "OK")); [left; reflexivity|repeat constructor].
  - apply (null_bulk_decodes_to (bytes "-1")). reflexivity.
Defined.

(** ** Inline requests, in general *)

Lemma slice_snoc (b : list byte) (l r : nat) (c : byte) :
  (l <= r)%nat -> b !! r = Some c -> slice b l (S r) = slice b l r ++ [c].
Proof.
  intros Hlr Hc. unfold slice.
  replace (S r - l)%nat with (S (r - l)) by lia.
  apply take_S_r. rewrite lookup_drop. replace (l + (r - l))%nat with r by lia. exact Hc.
Qed.

Lemma slice_nil_iff (b : list byte) (l r : nat) :
  (l <= r <= length b)%nat -> (slice b l r = [] <-> l = r).
Proof.
  intros Hlr. unfold slice. split.
  - intros Hnil. apply (f_equal length) in Hnil.
    rewrite length_take, length_drop in Hnil. cbn [length] in Hnil. lia.
  - intros ->. rewrite Nat.sub_diag. reflexivity.
Qed.

Lemma split_loop_S (b : list byte) (todo l r : nat) (multi : list Resp) :
  split_loop b (S todo) l r multi =
  if (r =? length b)%nat || Byte.eqb (nth r b x00) SP then
    split_loop b todo (r + 1)%nat (r + 1)%nat
      (if (l <? r)%nat then multi ++ [NewBulkBytes (slice b l r)] else multi)
  else split_loop b todo l (r + 1)%nat multi.
Proof. reflexivity. Qed.

(** The index loop of [decodeSingleLineMultiBulk] computes the words of
    the line: with [b[l:r]] the word under way and [r] the next index. *)
Lemma split_loop_fields (b : list byte) : forall (m r l : nat) (multi : list Resp),
  (r + m = length b)%nat ->
  (l <= r)%nat ->
  split_loop b (S m) l r multi
  = multi ++ map NewBulkBytes (fields_from (slice b l r) (skipn r b)).
Proof.
  induction m as [|m IH]; intros r l multi Hr Hlr.
  - assert (r = length b) by lia. subst r.
    cbn [split_loop]. rewrite Nat.eqb_refl. cbn [orb].
    rewrite skipn_all. cbn [fields_from].
    destruct (Nat.ltb_spec l (length b)) as [Hlt|Hge].
    + destruct (slice b l (length b)) eqn:Hs.
      * apply slice_nil_iff in Hs; lia.
      * reflexivity.
    + replace l with (length b) by lia.
      rewrite (proj2 (slice_nil_iff b (length b) (length b) ltac:(lia)) eq_refl).
      cbn [map]. rewrite app_nil_r. reflexivity.
  - assert (Hlt : (r < length b)%nat) by lia.
    destruct (lookup_lt_is_Some_2 b r Hlt) as [c Hc].
    rewrite (split_loop_S b (S m)).
    rewrite (proj2 (Nat.eqb_neq r (length b))) by lia. cbn [orb].
    rewrite (nth_lookup_Some b r x00 c Hc).
    rewrite (drop_S b c r Hc). cbn [fields_from].
    destruct (Byte.eqb c SP).
    + rewrite IH by lia.
      rewrite (proj2 (slice_nil_iff b (r + 1) (r + 1) ltac:(lia)) eq_refl).
      replace (r + 1)%nat with (S r) by lia.
      destruct (Nat.ltb_spec l r) as [Hl|Hl].
      * destruct (slice b l r) eqn:Hs.
        { apply slice_nil_iff in Hs; lia. }
        rewrite <- app_assoc. reflexivity.
      * replace l with r by lia.
        rewrite (proj2 (slice_nil_iff b r r ltac:(lia)) eq_refl). reflexivity.
    + rewrite IH by lia.
      replace (r + 1)%nat with (S r) by lia.
      rewrite (slice_snoc b l r c Hlr Hc). reflexivity.
Qed.

Lemma decodeSingleLineMultiBulk_fields (line rest : list byte) :
  no_LF line -> line <> [] ->
  decodeSingleLineMultiBulk (line ++ CRLF ++ rest)
  = (match fields line with
     | [] => Raise ErrBadMultiBulkLen
     | ws => Ret (Some (map NewBulkBytes ws))
     end, rest).
Proof.
  intros Hline Hne. unfold decodeSingleLineMultiBulk.
  rewrite (decodeTextBytes_line line rest Hline).
  assert (Hlen : (length line =? 0)%nat = false).
  { destruct line; [contradiction|reflexivity]. }
  rewrite Hlen.
  rewrite (split_loop_fields line (length line) 0 0 []) by lia.
  cbn [app]. change (slice line 0 0) with (@nil byte).
  change (skipn 0 line) with line. unfold fields.
  destruct (fields_from [] line); reflexivity.
Qed.

Lemma fields_from_word (w : list byte) : forall (cur x : list byte),
  ~ In SP w -> fields_from cur (w ++ x) = fields_from (cur ++ w) x.
Proof.
  induction w as [|c w IH]; intros cur x Hw.
  - cbn [app]. rewrite app_nil_r. reflexivity.
  - cbn [app fields_from].
    destruct (Byte.eqb c SP) eqn:Heq.
    + apply byte_dec_bl in Heq. exfalso. apply Hw. left. exact Heq.
    + rewrite IH by (intros H; apply Hw; right; exact H).
      rewrite <- app_assoc. reflexivity.
Qed.

Lemma fields_from_spaces (k : nat) (x : list byte) :
  fields_from [] (repeat SP k ++ x) = fields_from [] x.
Proof. induction k as [|k IH]; [reflexivity|exact IH]. Qed.

Lemma fields_from_sep (cur : list byte) (k : nat) (x : list byte) :
  cur <> [] -> fields_from cur (repeat SP (S k) ++ x) = cur :: fields_from [] x.
Proof.
  intros Hcur. cbn [repeat app fields_from]. change (Byte.eqb SP SP) with true. cbv iota.
  destruct cur; [contradiction|]. rewrite fields_from_spaces. reflexivity.
Qed.

Lemma fields_from_trail (cur : list byte) (k : nat) :
  cur <> [] -> fields_from cur (repeat SP k) = [cur].
Proof.
  intros Hcur. destruct k as [|k].
  - cbn [repeat fields_from]. destruct cur; [contradiction|reflexivity].
  - rewrite <- (app_nil_r (repeat SP (S k))), fields_from_sep by exact Hcur. reflexivity.
Qed.

Lemma fields_more (more : list (nat * list byte)) (trail : nat) : forall cur : list byte,
  cur <> [] ->
  Forall (fun kw => is_word (snd kw)) more ->
  fields_from cur
    (concat (map (fun kw : nat * list byte => repeat SP (S (fst kw)) ++ snd kw) more)
     ++ repeat SP trail)
  = cur :: map snd more.
Proof.
  induction more as [|[k w] more IH]; intros cur Hcur Hmore.
  - cbn [map concat app]. apply fields_from_trail. exact Hcur.
  - apply Forall_cons in Hmore as [(Hw & Hsp & _) Hmore].
    cbn [map concat fst snd]. rewrite <- !app_assoc.
    rewrite (fields_from_sep cur k _ Hcur).
    rewrite (fields_from_word w [] _ Hsp). cbn [app].
    rewrite (IH w Hw Hmore). reflexivity.
Qed.

Lemma fields_inline_line (lead : nat) (first : list byte) (more : list (nat * list byte))
    (trail : nat) :
  is_word first ->
  Forall (fun kw => is_word (snd kw)) more ->
  fields (inline_line lead first more trail) = first :: map snd more.
Proof.
  intros (Hw & Hsp & _) Hmore. unfold fields, inline_line.
  rewrite fields_from_spaces, (fields_from_word first [] _ Hsp). cbn [app].
  apply fields_more; assumption.
Qed.

Lemma inline_line_no_LF (lead : nat) (first : list byte) (more : list (nat * list byte))
    (trail : nat) :
  is_word first ->
  Forall (fun kw => is_word (snd kw)) more ->
  no_LF (inline_line lead first more trail).
Proof.
  intros (_ & _ & Hlf) Hmore. unfold inline_line, no_LF.
  apply Forall_app. split; [apply repeat_SP_no_LF|].
  apply Forall_app. split; [apply no_LF_In; exact Hlf|].
  apply Forall_app. split; [|apply repeat_SP_no_LF].
  induction Hmore as [|[k w] more (_ & _ & Hw) _ IH]; [constructor|].
  cbn [map concat fst snd]. apply Forall_app. split; [|exact IH].
  apply Forall_app. split; [apply (repeat_SP_no_LF (S k))|apply no_LF_In; exact Hw].
Qed.

(** X13: inline requests.  At the multi-bulk entry point a line that does
    not begin with [*], made of words separated by one or more spaces, with
    any number of spaces before the first word and after the last, decodes to
    the words in order, each as a bulk string.  Only the space byte
    separates: a word may hold any byte but the space and the line feed
    (tabs and carriage returns included). *)
Theorem inline_request_words (lead : nat) (first : list byte) (more : list (nat * list byte))
    (trail : nat) (rest : list byte) :
  is_word first ->
  Forall (fun kw => is_word (snd kw)) more ->
  (lead = 0%nat -> forall t, first <> TypeArray :: t) ->
  DecodeMultiBulkFromBytes (inline_line lead first more trail ++ CRLF ++ rest)
  = Done ((Some (map NewBulkBytes (first :: map snd more)), None),
          {| br := rest; Err := None |}).
Proof.
  intros Hfirst Hmore Hstar.
  pose proof (fields_inline_line lead first more trail Hfirst Hmore) as Hfields.
  pose proof (inline_line_no_LF lead first more trail Hfirst Hmore) as Hlf.
  assert (Hhead : exists c t, inline_line lead first more trail = c :: t /\ c <> TypeArray).
  { unfold inline_line. destruct lead as [|lead].
    - destruct first as [|c t] eqn:Hf; [destruct Hfirst as [Hne _]; contradiction|].
      exists c, (t ++ concat (map (fun kw : nat * list byte => repeat SP (S (fst kw)) ++ snd kw) more)
                   ++ repeat SP trail).
      split; [reflexivity|]. intros ->. exact (Hstar eq_refl t eq_refl).
    - eexists SP, _. split; [reflexivity|discriminate]. }
  destruct Hhead as (c & t & Hline & Hc).
  unfold DecodeMultiBulkFromBytes, DecodeMultiBulk, NewDecoderBuffer, decodeMultiBulk.
  cbn [Err br]. rewrite Hline. cbn [app bufio2.PeekByte].
  assert (Hnot : negb (Byte.eqb c TypeArray) = true).
  { apply negb_true_iff. destruct (Byte.eqb c TypeArray) eqn:Heq; [|reflexivity].
    apply byte_dec_bl in Heq. contradiction. }
  rewrite Hnot.
  change (c :: t ++ CRLF ++ rest) with ((c :: t) ++ CRLF ++ rest). rewrite <- Hline.
  rewrite (decodeSingleLineMultiBulk_fields _ rest Hlf) by (rewrite Hline; discriminate).
  rewrite Hfields. reflexivity.
Qed.

Lemma inline_request_words_witness :
  DecodeMultiBulkFromBytes
    (inline_line 2 (bytes "SET") [(0%nat, bytes "key"); (3%nat, [x09; "v"%byte; CR])] 1
     ++ CRLF ++ bytes "PING")
  = Done ((Some (map NewBulkBytes [bytes "SET"; bytes "key"; [x09; "v"%byte; CR]]), None),
          {| br := bytes "PING"; Err := None |}).
Proof.
  apply (inline_request_words 2 (bytes "SET")
           [(0%nat, bytes "key"); (3%nat, [x09; "v"%byte; CR])] 1 (bytes "PING")).
  - split; [discriminate|]. split; vm_compute; intuition discriminate.
  - repeat constructor; try discriminate; vm_compute; intuition discriminate.
  - discriminate.
Defined.

(** * Further properties of the router *)

(** ** What [fillSlot] installs *)

Lemma retain_groups_acc (groups : list (list string)) :
  forall (acc : list (list string)) (p : sharedBackendConnPool),
    fold_left
      (fun '(acc, p) addrs =>
         let p' := fold_left (fun p addr => Retain addr p) addrs p in
         if (length addrs =? 0)%nat then (acc, p') else (acc ++ [addrs], p'))
      groups (acc, p)
    = (acc ++ filter (fun group => group <> []) groups,
       fold_left (fun p addr => Retain addr p) (concat groups) p).
Proof.
  induction groups as [|g groups IH]; intros acc p; cbn [fold_left concat].
  - rewrite app_nil_r. reflexivity.
  - rewrite fold_left_app. destruct g as [|a g].
    + cbn [length Nat.eqb fold_left]. rewrite IH. reflexivity.
    + cbn [length Nat.eqb]. rewrite IH.
      rewrite filter_cons_True by discriminate.
      rewrite <- app_assoc. reflexivity.
Qed.

Lemma retain_groups_eq (groups : list (list string)) (p : sharedBackendConnPool) :
  retain_groups groups p
  = (filter (fun group => group <> []) groups,
     fold_left (fun p addr => Retain addr p) (concat groups) p).
Proof. unfold retain_groups. rewrite retain_groups_acc. reflexivity. Qed.

Lemma release_groups_eq (groups : list (list string)) (p : sharedBackendConnPool) :
  release_groups groups p = fold_left (fun p bc => Release (Some bc) p) (concat groups) p.
Proof.
  unfold release_groups. revert p.
  induction groups as [|g groups IH]; intros p; cbn [fold_left concat]; [reflexivity|].
  rewrite fold_left_app. apply IH.
Qed.

Lemma concat_filter_nonempty (groups : list (list string)) :
  concat (filter (fun group => group <> []) groups) = concat groups.
Proof.
  induction groups as [|g groups IH]; [reflexivity|].
  destruct g as [|a g].
  - rewrite filter_cons_False by (intros H; apply H; reflexivity). exact IH.
  - rewrite filter_cons_True by discriminate. cbn [concat]. rewrite IH. reflexivity.
Qed.

(** [fillSlot], in full: the slot installed and the two pools. *)
Lemma fillSlot_filled (m : models.Slot) (sw : bool) (meth : option forwardMethod)
    (s : Router) (slot : Slot) :
  slot_at (models.Id m) (slots s) = Some slot ->
  exists s' : Router,
    fillSlot m sw meth s = Some s'
    /\ slots s' = <[Z.to_nat (models.Id m) := filled (config s) m sw meth slot]> (slots s)
    /\ config s' = config s /\ online s' = online s /\ closed s' = closed s
    /\ pool_primary s'
       = fold_left (fun p addr => Retain addr p)
           (primary_handles (filled (config s) m sw meth slot))
           (fold_left (fun p bc => Release (Some bc) p) (primary_handles slot) (pool_primary s))
    /\ pool_replica s'
       = fold_left (fun p addr => Retain addr p)
           (replica_handles (filled (config s) m sw meth slot))
           (fold_left (fun p bc => Release (Some bc) p) (replica_handles slot) (pool_replica s)).
Proof.
  intros Hslot. unfold fillSlot. rewrite Hslot.
  rewrite retain_groups_eq, release_groups_eq.
  unfold filled, primary_handles, replica_handles. cbn [backend_bc migrate_bc replicaGroups].
  destruct (backend_bc slot); destruct (migrate_bc slot);
    destruct (String.length (models.BackendAddr m) =? 0)%nat;
    destruct (String.length (models.MigrateFrom m) =? 0)%nat;
    destruct (BackendPrimaryOnly (config s));
    destruct (models.Locked m);
    cbn [negb app fold_left concat Release];
    rewrite ?concat_filter_nonempty;
    eexists; (split; [reflexivity|]); cbn [slots config online closed pool_primary pool_replica];
    repeat split.
Qed.

(** ** Reference counts *)

Lemma count_of_app (a : string) (l1 l2 : list string) :
  count_of a (l1 ++ l2) = (count_of a l1 + count_of a l2)%nat.
Proof. unfold count_of. rewrite filter_app, length_app. reflexivity. Qed.

Lemma count_of_cons (a x : string) (l : list string) :
  count_of a (x :: l) = ((if decide (x = a) then 1 else 0) + count_of a l)%nat.
Proof.
  unfold count_of. destruct (decide (x = a)) as [Heq|Hne].
  - rewrite filter_cons_True by exact Heq. reflexivity.
  - rewrite filter_cons_False by exact Hne. reflexivity.
Qed.

Lemma counts_ext (p : gmap string nat) (f g : string -> nat) :
  (forall a, f a = g a) -> counts p f -> counts p g.
Proof. intros Hfg Hp a. rewrite <- Hfg. apply Hp. Qed.

Lemma counts_unique (p q : gmap string nat) (f : string -> nat) :
  counts p f -> counts q f -> p = q.
Proof. intros Hp Hq. apply map_eq. intros a. rewrite (Hp a), (Hq a). reflexivity. Qed.

Lemma Retain_counts (p : gmap string nat) (f : string -> nat) (x : string) :
  counts p f ->
  counts (Retain x p) (fun a => (f a + (if decide (x = a) then 1 else 0))%nat).
Proof.
  intros Hp a. unfold Retain. cbv beta.
  destruct (decide (x = a)) as [<-|Hne].
  - rewrite lookup_insert_eq, (Hp x).
    destruct (decide (f x = 0%nat)) as [H0|H0]; cbn [default from_option]; unfold id.
    + rewrite H0. reflexivity.
    + destruct (decide ((f x + 1)%nat = 0%nat)); [lia|]. f_equal. lia.
  - rewrite lookup_insert_ne by exact Hne. rewrite (Hp a), Nat.add_0_r. reflexivity.
Qed.

Lemma Release_counts (p : gmap string nat) (f : string -> nat) (x : string) :
  counts p f ->
  counts (Release (Some x) p) (fun a => (f a - (if decide (x = a) then 1 else 0))%nat).
Proof.
  intros Hp a. unfold Release. cbv beta.
  pose proof (Hp x) as Hx.
  destruct (decide (x = a)) as [<-|Hne].
  - destruct (decide (f x = 0%nat)) as [H0|H0].
    + rewrite Hx, lookup_delete_eq. destruct (decide ((f x - 1)%nat = 0%nat)); [reflexivity|lia].
    + rewrite Hx. destruct (f x) as [|[|n]] eqn:Hf; [lia| |].
      * rewrite lookup_delete_eq. reflexivity.
      * rewrite lookup_insert_eq.
        destruct (decide ((S (S n) - 1)%nat = 0%nat)); [lia|]. reflexivity.
  - assert (Hother : forall q : gmap string nat,
              (q = delete x p \/ exists n, q = <[x := n]> p) -> q !! a = p !! a).
    { intros q [->|[n ->]]; [apply lookup_delete_ne|apply lookup_insert_ne]; exact Hne. }
    rewrite Nat.sub_0_r, <- (Hp a).
    destruct (p !! x) as [[|[|n]]|]; apply Hother; eauto.
Qed.

Lemma Retain_all_counts (l : list string) : forall (p : gmap string nat) (f : string -> nat),
  counts p f ->
  counts (fold_left (fun p addr => Retain addr p) l p) (fun a => (f a + count_of a l)%nat).
Proof.
  induction l as [|x l IH]; intros p f Hp; cbn [fold_left].
  - eapply counts_ext; [|exact Hp]. intros a. unfold count_of. cbn. lia.
  - eapply counts_ext; [|apply IH, Retain_counts, Hp].
    intros a. cbv beta. rewrite count_of_cons. lia.
Qed.

Lemma Release_all_counts (l : list string) : forall (p : gmap string nat) (f : string -> nat),
  counts p f ->
  counts (fold_left (fun p bc => Release (Some bc) p) l p) (fun a => (f a - count_of a l)%nat).
Proof.
  induction l as [|x l IH]; intros p f Hp; cbn [fold_left].
  - eapply counts_ext; [|exact Hp]. intros a. unfold count_of. cbn. lia.
  - eapply counts_ext; [|apply IH, Release_counts, Hp].
    intros a. cbv beta. rewrite count_of_cons. lia.
Qed.

(** Replacing the cell [i] exchanges its handles for those of the new
    slot in the total. *)
Lemma count_cells_insert (handles : Slot -> list string) (cells : list Slot) (i : nat)
    (slot slot' : Slot) (a : string) :
  cells !! i = Some slot ->
  exists others : nat,
    count_of a (concat (map handles cells)) = (count_of a (handles slot) + others)%nat
    /\ count_of a (concat (map handles (<[i := slot']> cells)))
       = (count_of a (handles slot') + others)%nat.
Proof.
  intros Hi.
  exists (count_of a (concat (map handles (take i cells)))
          + count_of a (concat (map handles (drop (S i) cells))))%nat.
  rewrite (insert_take_drop cells i slot') by (exact (lookup_lt_Some _ _ _ Hi)).
  rewrite <- (take_drop_middle cells i slot Hi) at 1.
  rewrite !map_app, !concat_app. cbn [map concat]. rewrite !count_of_app. lia.
Qed.

Lemma pool_counts_fill (handles : Slot -> list string) (p : gmap string nat)
    (cells : list Slot) (i : nat) (slot slot' : Slot) :
  cells !! i = Some slot ->
  pool_counts p handles cells ->
  pool_counts
    (fold_left (fun p addr => Retain addr p) (handles slot')
       (fold_left (fun p bc => Release (Some bc) p) (handles slot) p))
    handles (<[i := slot']> cells).
Proof.
  intros Hi Hp.
  eapply counts_ext; [|apply Retain_all_counts, Release_all_counts; exact Hp].
  intros a. cbv beta.
  destruct (count_cells_insert handles cells i slot slot' a Hi) as (others & -> & ->). lia.
Qed.

Lemma filled_normal (cfg : Config) (m : models.Slot) (sw : bool)
    (meth : option forwardMethod) (slot : Slot) :
  slot_normal cfg (filled cfg m sw meth slot).
Proof.
  unfold slot_normal, filled.
  cbn [backend_bc backend_id migrate_bc migrate_id replicaGroups].
  split; [|split; [|split; [|split; [|split]]]].
  - destruct (String.length (models.BackendAddr m) =? 0)%nat eqn:H0; [discriminate|].
    intros [= Heq]. rewrite Heq in H0. discriminate H0.
  - destruct (String.length (models.BackendAddr m) =? 0)%nat; [reflexivity|discriminate].
  - destruct (String.length (models.MigrateFrom m) =? 0)%nat eqn:H0; [discriminate|].
    intros [= Heq]. rewrite Heq in H0. discriminate H0.
  - destruct (String.length (models.MigrateFrom m) =? 0)%nat; [reflexivity|discriminate].
  - destruct (BackendPrimaryOnly cfg); [constructor|].
    apply Forall_forall. intros g Hg. apply list_elem_of_filter in Hg as [Hg _]. exact Hg.
  - intros ->. reflexivity.
Qed.

(** [fillSlot] on the cell [i] of a router that satisfies the invariant. *)
Lemma fillSlot_keeps_inv (m : models.Slot) (sw : bool) (meth : option forwardMethod)
    (s : Router) (i : nat) (slot : Slot) :
  router_inv s ->
  slots s !! i = Some slot ->
  models.Id m = Z.of_nat i ->
  exists s' : Router,
    fillSlot m sw meth s = Some s'
    /\ router_inv s'
    /\ slots s' = <[i := filled (config s) m sw meth slot]> (slots s)
    /\ config s' = config s /\ online s' = online s /\ closed s' = closed s.
Proof.
  intros (Hwf & [Hprim Hrepl] & Hnormal) Hi Hid.
  assert (Hat : slot_at (models.Id m) (slots s) = Some slot).
  { rewrite Hid, slot_at_of_nat. exact Hi. }
  destruct (fillSlot_filled m sw meth s slot Hat)
    as (s' & Hfill & Hslots & Hconfig & Honline & Hclosed & Hpp & Hpr).
  rewrite Hid, Nat2Z.id in Hslots.
  exists s'. split; [exact Hfill|]. split; [|repeat split; assumption].
  split; [|split].
  - destruct Hwf as [Hlen Hids]. split.
    + unfold full_array. rewrite Hslots, length_insert. exact Hlen.
    + intros j slotj. rewrite Hslots.
      destruct (decide (i = j)) as [<-|Hne].
      * rewrite list_lookup_insert_eq by exact (lookup_lt_Some _ _ _ Hi).
        intros [= <-]. cbn [filled slot_id]. exact (Hids i slot Hi).
      * rewrite list_lookup_insert_ne by exact Hne. apply Hids.
  - split.
    + rewrite Hpp, Hslots. apply pool_counts_fill; assumption.
    + rewrite Hpr, Hslots. apply pool_counts_fill; assumption.
  - rewrite Hslots, Hconfig. apply Forall_insert; [exact Hnormal|apply filled_normal].
Qed.

(** ** The invariant of the router *)

Lemma NewRouter_handles (handles : Slot -> list string) (cfg : Config) :
  (forall slot, backend_bc slot = None -> migrate_bc slot = None -> replicaGroups slot = [] ->
                handles slot = []) ->
  concat (map handles (slots (NewRouter cfg))) = [].
Proof.
  intros Hempty. unfold NewRouter. cbn [slots].
  induction (seq 0 (Z.to_nat MaxSlotNum)) as [|i l IH]; [reflexivity|].
  cbn [map concat]. rewrite IH, Hempty; reflexivity.
Qed.

Lemma NewRouter_inv (cfg : Config) : router_inv (NewRouter cfg).
Proof.
  split; [apply NewRouter_wf|]. split; [split|].
  - intros a. cbv zeta. rewrite NewRouter_handles.
    + apply lookup_empty.
    + intros slot Hb Hm _. unfold primary_handles. rewrite Hb, Hm. reflexivity.
  - intros a. cbv zeta. rewrite NewRouter_handles.
    + apply lookup_empty.
    + intros slot _ _ Hr. unfold replica_handles. rewrite Hr. reflexivity.
  - unfold NewRouter. cbn [slots config]. apply Forall_forall. intros slot Hin.
    apply list_elem_of_In, in_map_iff in Hin as (i & <- & _).
    unfold slot_normal. cbn. repeat split; try discriminate. constructor.
Qed.

(** A loop whose every step keeps a property of the router keeps it. *)
Lemma for_each_inv (P : Router -> Prop) (step : Z -> Router -> option Router) (l : list nat) :
  (forall (i : nat) (s0 : Router), In i l -> P s0 ->
     exists s1, step (Z.of_nat i) s0 = Some s1 /\ P s1) ->
  forall s : Router, P s -> exists s' : Router, for_each step l s = Some s' /\ P s'.
Proof.
  induction l as [|i l IH]; intros Hstep s Hs; cbn [for_each].
  - exists s. split; [reflexivity|exact Hs].
  - destruct (Hstep i s (or_introl eq_refl) Hs) as (s1 & -> & Hs1).
    apply IH; [|exact Hs1]. intros j s0 Hj. apply Hstep. right. exact Hj.
Qed.

Lemma FillSlot_keeps_inv (m : models.Slot) (s : Router) :
  router_inv s ->
  exists (s' : Router) (err : option RouterError),
    FillSlot m s = Some (s', err) /\ router_inv s'
    /\ config s' = config s /\ online s' = online s /\ closed s' = closed s.
Proof.
  intros Hinv. unfold FillSlot.
  destruct (closed s) eqn:Hclosed0;
    [exists s, (Some ErrClosedRouter); (split; [reflexivity|]); (split; [exact Hinv|]);
     repeat split; exact Hclosed0|].
  destruct (Z.ltb_spec (models.Id m) 0) as [|Hlo]; cbn [orb];
    [exists s, (Some ErrInvalidSlotId); (split; [reflexivity|]); (split; [exact Hinv|]);
     repeat split; exact Hclosed0|].
  destruct (Z.leb_spec MaxSlotNum (models.Id m)) as [|Hhi];
    [exists s, (Some ErrInvalidSlotId); (split; [reflexivity|]); (split; [exact Hinv|]);
     repeat split; exact Hclosed0|].
  assert (Hlt : (Z.to_nat (models.Id m) < length (slots s))%nat).
  { destruct Hinv as [[Hlen _] _]. unfold full_array in Hlen. rewrite Hlen. lia. }
  destruct (lookup_lt_is_Some_2 _ _ Hlt) as [slot Hslot].
  assert (Hid : models.Id m = Z.of_nat (Z.to_nat (models.Id m))) by lia.
  destruct (if models.ForwardMethod m =? models.ForwardSync then _ else _) as [f|];
    [|exists s, (Some ErrInvalidMethod); (split; [reflexivity|]); (split; [exact Hinv|]);
      repeat split; exact Hclosed0].
  destruct (fillSlot_keeps_inv m false (Some f) s _ slot Hinv Hslot Hid)
    as (s1 & -> & Hinv1 & _ & Hconfig & Honline & Hclosed).
  exists s1, None. split; [reflexivity|]. split; [exact Hinv1|].
  repeat split; congruence.
Qed.

Lemma filter_nonempty_id (groups : list (list string)) :
  Forall (fun group => group <> []) groups ->
  filter (fun group => group <> []) groups = groups.
Proof.
  induction 1 as [|g groups Hg _ IH]; [reflexivity|].
  rewrite filter_cons_True by exact Hg. rewrite IH. reflexivity.
Qed.

Lemma Addr_empty (bc : sharedBackendConn) :
  bc <> Some ""%string -> (String.length (Addr bc) =? 0)%nat = true -> bc = None.
Proof.
  intros Hbc Hlen%length_zero_empty. destruct bc as [a|]; [|reflexivity].
  cbn in Hlen. subst a. contradiction.
Qed.

Lemma Addr_handle (bc : sharedBackendConn) :
  bc <> Some ""%string ->
  (if (String.length (Addr bc) =? 0)%nat then None else Some (Addr bc)) = bc.
Proof.
  intros Hbc. destruct (String.length (Addr bc) =? 0)%nat eqn:Hlen.
  - symmetry. apply Addr_empty; assumption.
  - destruct bc as [a|]; [reflexivity|discriminate Hlen].
Qed.

(** The descriptor that [trySwitchMaster] hands to [fillSlot]: the
    snapshot, with new addresses at most. *)
Lemma switch_plan_fields (masters : gmap Z string) (cache : InfoCache) (m : models.Slot) :
  let m' := fst (switch_plan masters cache m) in
  models.Id m' = models.Id m
  /\ models.Locked m' = models.Locked m
  /\ models.BackendAddrGroupId m' = models.BackendAddrGroupId m
  /\ models.MigrateFromGroupId m' = models.MigrateFromGroupId m
  /\ models.ReplicaGroups m' = models.ReplicaGroups m
  /\ (models.BackendAddr m' = models.BackendAddr m
      \/ models.BackendAddr m' = masters_at masters (models.BackendAddrGroupId m)
         /\ masters_at masters (models.BackendAddrGroupId m) <> ""%string)
  /\ (models.MigrateFrom m' = models.MigrateFrom m
      \/ models.MigrateFrom m' = masters_at masters (models.MigrateFromGroupId m)
         /\ masters_at masters (models.MigrateFromGroupId m) <> ""%string).
Proof.
  unfold switch_plan. cbv zeta.
  destruct (negb (String.eqb (masters_at masters (models.BackendAddrGroupId m)) ""))
    eqn:Hb; cbn [andb].
  - apply negb_true_iff, String.eqb_neq in Hb.
    destruct (negb (hasSameRunId cache _ (models.BackendAddr m)));
      cbn [models.MigrateFromGroupId models.MigrateFrom].
    + destruct (negb (String.eqb (masters_at masters (models.MigrateFromGroupId m)) ""))
        eqn:Hm; cbn [andb].
      * apply negb_true_iff, String.eqb_neq in Hm.
        destruct (negb (hasSameRunId cache _ (models.MigrateFrom m))); cbn; repeat split;
          auto.
      * cbn; repeat split; auto.
    + destruct (negb (String.eqb (masters_at masters (models.MigrateFromGroupId m)) ""))
        eqn:Hm; cbn [andb].
      * apply negb_true_iff, String.eqb_neq in Hm.
        destruct (negb (hasSameRunId cache _ (models.MigrateFrom m))); cbn; repeat split;
          auto.
      * cbn; repeat split; auto.
  - destruct (negb (String.eqb (masters_at masters (models.MigrateFromGroupId m)) ""))
      eqn:Hm; cbn [andb].
    + apply negb_true_iff, String.eqb_neq in Hm.
      destruct (negb (hasSameRunId cache _ (models.MigrateFrom m))); cbn; repeat split; auto.
    + cbn; repeat split; auto.
Qed.

Lemma switch_only_refl (masters : gmap Z string) (slot : Slot) : switch_only masters slot slot.
Proof. unfold switch_only. repeat split; auto. Qed.

(** The slot a master switch installs differs from the old one in its
    addresses and its [switched] flag at most. *)
Lemma filled_switch_only (masters : gmap Z string) (cache : InfoCache) (cfg : Config)
    (slot : Slot) :
  slot_normal cfg slot ->
  switch_only masters slot
    (filled cfg (fst (switch_plan masters cache (snapshot slot))) true None slot).
Proof.
  intros (Hb & Hbid & Hm & Hmid & Hgroups & Honly).
  destruct (switch_plan_fields masters cache (snapshot slot))
    as (_ & Hlock & Hbg & Hmg & Hrg & Hba & Hma).
  cbn [snapshot models.Locked models.BackendAddrGroupId models.MigrateFromGroupId
       models.ReplicaGroups models.BackendAddr models.MigrateFrom] in *.
  unfold switch_only, filled.
  cbn [slot_id lock_hold backend_id migrate_id replicaGroups slot_method backend_bc migrate_bc
       slot_switched].
  rewrite Hlock, Hbg, Hmg, Hrg.
  split; [reflexivity|]. split; [reflexivity|]. split.
  { destruct (String.length _ =? 0)%nat eqn:Hlen; [|reflexivity].
    destruct Hba as [Hba|[Hba Hne]].
    - rewrite Hba in Hlen. symmetry. apply Hbid, Addr_empty; assumption.
    - rewrite Hba in Hlen. apply length_zero_empty in Hlen. contradiction. }
  split.
  { destruct (String.length _ =? 0)%nat eqn:Hlen; [|reflexivity].
    destruct Hma as [Hma|[Hma Hne]].
    - rewrite Hma in Hlen. symmetry. apply Hmid, Addr_empty; assumption.
    - rewrite Hma in Hlen. apply length_zero_empty in Hlen. contradiction. }
  split.
  { destruct (BackendPrimaryOnly cfg) eqn:Hcfg.
    - symmetry. apply Honly. reflexivity.
    - apply filter_nonempty_id. exact Hgroups. }
  split; [reflexivity|]. split.
  { destruct Hba as [-> | [-> Hne]].
    - left. apply Addr_handle. exact Hb.
    - right. destruct (String.length _ =? 0)%nat eqn:Hlen; [|reflexivity].
      apply length_zero_empty in Hlen. contradiction. }
  split.
  { destruct Hma as [-> | [-> Hne]].
    - left. apply Addr_handle. exact Hm.
    - right. destruct (String.length _ =? 0)%nat eqn:Hlen; [|reflexivity].
      apply length_zero_empty in Hlen. contradiction. }
  right. reflexivity.
Qed.

Lemma trySwitchMaster_step (masters : gmap Z string) (cache : InfoCache)
    (s : Router) (i : nat) (slot : Slot) :
  router_inv s ->
  slots s !! i = Some slot ->
  exists (s' : Router) (slot' : Slot),
    trySwitchMaster (Z.of_nat i) masters cache s = Some s'
    /\ router_inv s'
    /\ slots s' = <[i := slot']> (slots s)
    /\ config s' = config s /\ online s' = online s /\ closed s' = closed s
    /\ switch_only masters slot slot'.
Proof.
  intros Hinv Hi. unfold trySwitchMaster. rewrite slot_at_of_nat, Hi.
  destruct (switch_plan masters cache (snapshot slot)) as [m sw] eqn:Hplan.
  destruct sw.
  - assert (Hid : models.Id m = Z.of_nat i).
    { pose proof (switch_plan_Id masters cache (snapshot slot)) as Hid.
      rewrite Hplan in Hid. cbn [fst snapshot models.Id] in Hid.
      rewrite Hid. destruct Hinv as [[_ Hids] _]. exact (Hids i slot Hi). }
    destruct (fillSlot_keeps_inv m true None s i slot Hinv Hi Hid)
      as (s' & Hfill & Hinv' & Hslots & Hconfig & Honline & Hclosed).
    exists s', (filled (config s) m true None slot).
    repeat (split; [assumption|]).
    replace m with (fst (switch_plan masters cache (snapshot slot))) by (rewrite Hplan; reflexivity).
    apply filled_switch_only.
    destruct Hinv as (_ & _ & Hnormal).
    exact (proj1 (Forall_lookup _ _) Hnormal i slot Hi).
  - exists s, slot. split; [reflexivity|]. split; [exact Hinv|].
    split; [symmetry; apply list_insert_id; exact Hi|].
    split; [reflexivity|]. split; [reflexivity|]. split; [reflexivity|].
    apply switch_only_refl.
Qed.

Lemma switch_only_trans (masters : gmap Z string) (a b c : Slot) :
  switch_only masters a b -> switch_only masters b c -> switch_only masters a c.
Proof.
  intros (H1 & H2 & H3 & H4 & H5 & H6 & H7 & H8 & H9)
         (K1 & K2 & K3 & K4 & K5 & K6 & K7 & K8 & K9).
  unfold switch_only. rewrite K1, K2, K3, K4, K5, K6.
  repeat (split; [assumption|]).
  split; [|split].
  - destruct K7 as [-> | ->]; [exact H7|]. right. rewrite H3. reflexivity.
  - destruct K8 as [-> | ->]; [exact H8|]. right. rewrite H4. reflexivity.
  - destruct K9 as [-> | K9]; [exact H9|]. right. exact K9.
Qed.

(** The loop of [SwitchMasters] over any indices of the array. *)
Lemma SwitchMasters_loop (masters : gmap Z string) (cache : InfoCache) (l : list nat) :
  forall s : Router,
    router_inv s ->
    Forall (fun j => (j < length (slots s))%nat) l ->
    exists s' : Router,
      for_each (fun k => trySwitchMaster k masters cache) l s = Some s'
      /\ router_inv s'
      /\ config s' = config s /\ online s' = online s /\ closed s' = closed s
      /\ forall (j : nat) (slot : Slot), slots s !! j = Some slot ->
           exists slot' : Slot, slots s' !! j = Some slot' /\ switch_only masters slot slot'.
Proof.
  induction l as [|i l IH]; intros s Hinv Hl; cbn [for_each].
  - exists s. repeat (split; [first [reflexivity|assumption]|]).
    intros j slot Hj. exists slot. split; [exact Hj|apply switch_only_refl].
  - apply Forall_cons in Hl as [Hi Hl].
    destruct (lookup_lt_is_Some_2 (slots s) i Hi) as [sloti Hsloti].
    destruct (trySwitchMaster_step masters cache s i sloti Hinv Hsloti)
      as (s1 & slot1 & -> & Hinv1 & Hslots1 & Hconfig1 & Honline1 & Hclosed1 & Hsw1).
    destruct (IH s1 Hinv1) as (s2 & Hrun & Hinv2 & Hconfig2 & Honline2 & Hclosed2 & Hall2).
    { rewrite Hslots1, length_insert. exact Hl. }
    exists s2. split; [exact Hrun|]. split; [exact Hinv2|].
    split; [congruence|]. split; [congruence|]. split; [congruence|].
    intros j slot Hj.
    destruct (decide (i = j)) as [<-|Hne].
    + assert (slot = sloti) by congruence. subst slot.
      destruct (Hall2 i slot1) as (slot2 & Hj2 & Hsw2).
      { rewrite Hslots1. apply list_lookup_insert_eq. exact Hi. }
      exists slot2. split; [exact Hj2|]. exact (switch_only_trans _ _ _ _ Hsw1 Hsw2).
    + apply Hall2. rewrite Hslots1, list_lookup_insert_ne by exact Hne. exact Hj.
Qed.

Lemma example_router_inv : router_inv example.router.
Proof.
  unfold example.router.
  destruct (FillSlot_keeps_inv example.desc (NewRouter example.cfg) (NewRouter_inv _))
    as (s' & err & -> & Hinv & _). exact Hinv.
Qed.

Lemma SwitchMasters_keeps_inv (masters : gmap Z string) (cache : InfoCache) (s : Router) :
  router_inv s ->
  exists (s' : Router) (err : option RouterError),
    SwitchMasters masters cache s = Some (s', err)
    /\ router_inv s'
    /\ online s' = online s /\ closed s' = closed s
    /\ (forall (j : nat) (slot : Slot), slots s !! j = Some slot ->
          exists slot' : Slot, slots s' !! j = Some slot' /\ switch_only masters slot slot').
Proof.
  intros Hinv. unfold SwitchMasters. destruct (closed s) eqn:Hclosed.
  - exists s, (Some ErrClosedRouter). split; [reflexivity|]. split; [exact Hinv|].
    split; [reflexivity|]. split; [exact Hclosed|].
    intros j slot Hj. exists slot. split; [exact Hj|apply switch_only_refl].
  - unfold for_range_slots.
    destruct (SwitchMasters_loop masters cache (seq 0 (length (slots s))) s Hinv)
      as (s' & -> & Hinv' & _ & Honline & Hclosed' & Hall).
    { apply Forall_forall. intros j Hj%elem_of_seq. lia. }
    exists s', None. split; [reflexivity|]. split; [exact Hinv'|].
    split; [exact Honline|]. split; [congruence|exact Hall].
Qed.

(** X14: a master switch changes addresses only.  On a router that
    satisfies the invariant, [SwitchMasters] returns, keeps the invariant and
    the flags [online] and [closed], and leaves in every slot the id, the
    lock, both group ids, the replica groups and the forwarding method as
    they were; the backend (migration source) of a slot is as before or is
    the address the map gives for its group; a slot that was changed at all
    has [switched = true], and no [switched] flag is cleared, so
    [HasSwitched] stays true once it is. *)
Theorem SwitchMasters_changes_addresses_only (masters : gmap Z string) (cache : InfoCache)
    (s : Router) :
  router_inv s ->
  exists (s' : Router) (err : option RouterError),
    SwitchMasters masters cache s = Some (s', err)
    /\ router_inv s'
    /\ online s' = online s /\ closed s' = closed s
    /\ (forall (j : nat) (slot : Slot), slots s !! j = Some slot ->
          exists slot' : Slot, slots s' !! j = Some slot' /\ switch_only masters slot slot')
    /\ (HasSwitched s = true -> HasSwitched s' = true).
Proof.
  intros Hinv.
  destruct (SwitchMasters_keeps_inv masters cache s Hinv)
    as (s' & err & Hrun & Hinv' & Honline & Hclosed & Hall).
  exists s', err. repeat (split; [assumption|]).
  unfold HasSwitched. rewrite !existsb_exists.
  intros (slot & Hin & Hsw).
  apply list_elem_of_In, list_elem_of_lookup in Hin as [j Hj].
  destruct (Hall j slot Hj) as (slot' & Hj' & Honly).
  exists slot'. split.
  - apply list_elem_of_In, list_elem_of_lookup. exists j. exact Hj'.
  - destruct Honly as (_ & _ & _ & _ & _ & _ & _ & _ & [-> | Hsw']); assumption.
Qed.

Lemma SwitchMasters_changes_addresses_only_witness :
  let masters : gmap Z string := {[ 1 := "10.0.0.2"%string ]} in
  let s := example.router in
  exists (s' : Router) (err : option RouterError),
    SwitchMasters masters example.unknown s = Some (s', err)
    /\ router_inv s'
    /\ online s' = online s /\ closed s' = closed s
    /\ (forall (j : nat) (slot : Slot), slots s !! j = Some slot ->
          exists slot' : Slot, slots s' !! j = Some slot' /\ switch_only masters slot slot')
    /\ (HasSwitched s = true -> HasSwitched s' = true).
Proof.
  apply (SwitchMasters_changes_addresses_only {[ 1 := "10.0.0.2"%string ]} example.unknown
           example.router).
  exact example_router_inv.
Defined.

(** ** [Close] *)

Lemma filled_empty (cfg : Config) (i : Z) (slot : Slot) :
  is_empty (filled cfg (models.empty i) false None slot).
Proof.
  unfold is_empty, filled. cbn. destruct (BackendPrimaryOnly cfg); repeat split.
Qed.

(** The loop of [Close] over any indices of the array. *)
Lemma Close_loop (l : list nat) : forall s : Router,
  router_inv s ->
  Forall (fun j => (j < length (slots s))%nat) l ->
  exists s' : Router,
    for_each (fun i => fillSlot (models.empty i) false None) l s = Some s'
    /\ router_inv s'
    /\ config s' = config s /\ online s' = online s /\ closed s' = closed s
    /\ (forall j : nat, In j l -> exists slot', slots s' !! j = Some slot' /\ is_empty slot')
    /\ (forall j : nat, ~ In j l -> slots s' !! j = slots s !! j).
Proof.
  induction l as [|i l IH]; intros s Hinv Hl; cbn [for_each].
  - exists s. repeat (split; [first [reflexivity|assumption]|]).
    split; [intros j []|reflexivity].
  - apply Forall_cons in Hl as [Hi Hl].
    destruct (lookup_lt_is_Some_2 (slots s) i Hi) as [sloti Hsloti].
    destruct (fillSlot_keeps_inv (models.empty (Z.of_nat i)) false None s i sloti Hinv Hsloti
                eq_refl)
      as (s1 & -> & Hinv1 & Hslots1 & Hconfig1 & Honline1 & Hclosed1).
    destruct (IH s1 Hinv1) as (s2 & Hrun & Hinv2 & Hconfig2 & Honline2 & Hclosed2 & Hin2 & Hout2).
    { rewrite Hslots1, length_insert. exact Hl. }
    exists s2. split; [exact Hrun|]. split; [exact Hinv2|].
    split; [congruence|]. split; [congruence|]. split; [congruence|]. split.
    + intros j Hj. destruct (in_dec Nat.eq_dec j l) as [Hjl|Hjl]; [exact (Hin2 j Hjl)|].
      destruct Hj as [<-|Hj]; [|contradiction].
      rewrite (Hout2 i Hjl), Hslots1, list_lookup_insert_eq by exact Hi.
      eexists. split; [reflexivity|apply filled_empty].
    + intros j Hj. rewrite (Hout2 j) by (intros H; apply Hj; right; exact H).
      rewrite Hslots1. apply list_lookup_insert_ne. intros ->. apply Hj. left. reflexivity.
Qed.

Lemma no_handles (handles : Slot -> list string) (cells : list Slot) (a : string) :
  Forall (fun slot => handles slot = []) cells ->
  count_of a (concat (map handles cells)) = 0%nat.
Proof.
  induction 1 as [|slot cells Hslot _ IH]; [reflexivity|].
  cbn [map concat]. rewrite Hslot. exact IH.
Qed.

(** X15: [Close] lets go of everything.  On an open router that satisfies
    the invariant, [Close] returns a closed router in which every slot is
    empty (no backend, no migration source, no replica group, group ids
    zero), open and not switched, and in which both pools are empty: every
    connection that was retained has been released; [HasSwitched] is
    false. *)
Theorem Close_releases_everything (s : Router) :
  router_inv s ->
  closed s = false ->
  exists s' : Router,
    Close s = Some s'
    /\ closed s' = true /\ online s' = online s
    /\ Forall is_empty (slots s')
    /\ length (slots s') = length (slots s)
    /\ pool_primary s' = ∅ /\ pool_replica s' = ∅
    /\ HasSwitched s' = false.
Proof.
  intros Hinv Hopen. unfold Close. rewrite Hopen. unfold for_range_slots. cbn [slots].
  set (s1 := {| pool_primary := pool_primary s; pool_replica := pool_replica s;
                slots := slots s; config := config s; online := online s;
                closed := true; trace := trace s |}).
  assert (Hinv1 : router_inv s1) by exact Hinv.
  destruct (Close_loop (seq 0 (length (slots s))) s1 Hinv1)
    as (s' & Hrun & Hinv' & _ & Honline & Hclosed & Hin & _).
  { apply Forall_forall. intros j Hj%elem_of_seq. cbn [s1 slots]. lia. }
  assert (Hlen : length (slots s') = length (slots s)).
  { destruct Hinv as [[Hlen _] _], Hinv' as [[Hlen' _] _]. unfold full_array in *. congruence. }
  assert (Hempty : Forall is_empty (slots s')).
  { apply Forall_lookup. intros j slot Hj.
    destruct (Hin j) as (slot' & Hj' & Hslot').
    - apply in_seq. apply lookup_lt_Some in Hj. lia.
    - congruence. }
  exists s'. split; [exact Hrun|]. split; [exact Hclosed|]. split; [exact Honline|].
  split; [exact Hempty|]. split; [exact Hlen|].
  destruct Hinv' as (_ & [Hprim Hrepl] & _).
  split; [|split].
  - apply map_empty. intros a. rewrite (Hprim a). cbv zeta.
    rewrite no_handles; [reflexivity|].
    eapply Forall_impl; [exact Hempty|]. intros slot (Hb & _ & Hm & _).
    unfold primary_handles. rewrite Hb, Hm. reflexivity.
  - apply map_empty. intros a. rewrite (Hrepl a). cbv zeta.
    rewrite no_handles; [reflexivity|].
    eapply Forall_impl; [exact Hempty|]. intros slot (_ & _ & _ & _ & Hr & _).
    unfold replica_handles. rewrite Hr. reflexivity.
  - unfold HasSwitched. apply not_true_is_false. rewrite existsb_exists.
    intros (slot & Hslot & Hsw).
    apply list_elem_of_In in Hslot.
    pose proof (proj1 (Forall_forall _ _) Hempty slot Hslot) as (_ & _ & _ & _ & _ & _ & Hns).
    congruence.
Qed.

Lemma Close_releases_everything_witness :
  exists s' : Router,
    Close example.router = Some s'
    /\ closed s' = true /\ online s' = online example.router
    /\ Forall is_empty (slots s')
    /\ length (slots s') = length (slots example.router)
    /\ pool_primary s' = ∅ /\ pool_replica s' = ∅
    /\ HasSwitched s' = false.
Proof.
  apply (Close_releases_everything example.router).
  - exact example_router_inv.
  - reflexivity.
Defined.

(** ** [FillSlot] and [GetSlot] *)

(** A call of [FillSlot] that returns nil, taken apart. *)
Lemma FillSlot_success (m : models.Slot) (s s1 : Router) :
  router_inv s ->
  FillSlot m s = Some (s1, None) ->
  exists (i : nat) (slot : Slot) (f : forwardMethod),
    closed s = false
    /\ models.Id m = Z.of_nat i
    /\ 0 <= models.Id m < MaxSlotNum
    /\ slots s !! i = Some slot
    /\ models.ForwardMethod m = GetId f
    /\ router_inv s1
    /\ slots s1 = <[i := filled (config s) m false (Some f) slot]> (slots s)
    /\ config s1 = config s /\ online s1 = online s /\ closed s1 = closed s.
Proof.
  intros Hinv. unfold FillSlot.
  destruct (closed s) eqn:Hclosed; [discriminate|].
  destruct (Z.ltb_spec (models.Id m) 0) as [|Hlo]; cbn [orb]; [discriminate|].
  destruct (Z.leb_spec MaxSlotNum (models.Id m)) as [|Hhi]; [discriminate|].
  assert (Hlt : (Z.to_nat (models.Id m) < length (slots s))%nat).
  { destruct Hinv as [[Hlen _] _]. unfold full_array in Hlen. rewrite Hlen. lia. }
  destruct (lookup_lt_is_Some_2 _ _ Hlt) as [slot Hslot].
  assert (Hid : models.Id m = Z.of_nat (Z.to_nat (models.Id m))) by lia.
  assert (Htag : forall f, models.ForwardMethod m = GetId f ->
            match fillSlot m false (Some f) s with
            | Some s' => Some (s', None)
            | None => None
            end = Some (s1, @None RouterError) ->
            exists (i : nat) (slot : Slot) (f : forwardMethod),
              false = false
              /\ models.Id m = Z.of_nat i
              /\ 0 <= models.Id m < MaxSlotNum
              /\ slots s !! i = Some slot
              /\ models.ForwardMethod m = GetId f
              /\ router_inv s1
              /\ slots s1 = <[i := filled (config s) m false (Some f) slot]> (slots s)
              /\ config s1 = config s /\ online s1 = online s /\ closed s1 = false).
  { intros f Hf.
    destruct (fillSlot_keeps_inv m false (Some f) s _ slot Hinv Hslot Hid)
      as (s' & -> & Hinv' & Hslots & Hconfig & Honline & Hclosed').
    intros [= <-]. exists (Z.to_nat (models.Id m)), slot, f.
    repeat (split; [first [reflexivity|assumption|lia]|]). congruence. }
  destruct (Z.eqb_spec (models.ForwardMethod m) models.ForwardSync) as [Hsync|_].
  { apply (Htag forwardSync). exact Hsync. }
  destruct (Z.eqb_spec (models.ForwardMethod m) models.ForwardSemiAsync) as [Hsemi|_].
  { apply (Htag forwardSemiAsync). exact Hsemi. }
  discriminate.
Qed.

Lemma Addr_filled (addr : string) :
  Addr (if (String.length addr =? 0)%nat then None else Some addr) = addr.
Proof.
  destruct (String.length addr =? 0)%nat eqn:Hlen; [|reflexivity].
  apply length_zero_empty in Hlen. subst addr. reflexivity.
Qed.

Lemma GetSlot_lookup (s : Router) (i : nat) (slot : Slot) :
  full_array s -> slots s !! i = Some slot ->
  GetSlot (Z.of_nat i) s = Some (Some (snapshot slot)).
Proof.
  intros Hlen Hi. unfold GetSlot.
  pose proof (lookup_lt_Some _ _ _ Hi) as Hlt. unfold full_array in Hlen. rewrite Hlen in Hlt.
  destruct (Z.ltb_spec (Z.of_nat i) 0); [lia|].
  destruct (Z.leb_spec MaxSlotNum (Z.of_nat i)); [lia|]. cbn [orb].
  rewrite slot_at_of_nat, Hi. reflexivity.
Qed.

(** X16: what [FillSlot] stores, [GetSlot] returns.  After a call of
    [FillSlot] that returns nil, [GetSlot] at the id of the descriptor
    returns a descriptor with the same id, lock flag, addresses and
    forwarding kind; a group id comes back only when its address is not
    empty (else zero), the replica groups come back without the empty ones
    (and not at all under [backend-primary-only]), and the slot is not
    switched. *)
Theorem FillSlot_GetSlot (m : models.Slot) (s s' : Router) :
  router_inv s ->
  FillSlot m s = Some (s', None) ->
  exists got : models.Slot,
    GetSlot (models.Id m) s' = Some (Some got)
    /\ models.Id got = models.Id m
    /\ models.Locked got = models.Locked m
    /\ models.Switched got = false
    /\ models.BackendAddr got = models.BackendAddr m
    /\ models.BackendAddrGroupId got
       = (if String.eqb (models.BackendAddr m) "" then 0 else models.BackendAddrGroupId m)
    /\ models.MigrateFrom got = models.MigrateFrom m
    /\ models.MigrateFromGroupId got
       = (if String.eqb (models.MigrateFrom m) "" then 0 else models.MigrateFromGroupId m)
    /\ models.ForwardMethod got = models.ForwardMethod m
    /\ models.ReplicaGroups got
       = (if BackendPrimaryOnly (config s) then []
          else filter (fun group => group <> []) (models.ReplicaGroups m)).
Proof.
  intros Hinv Hfill.
  destruct (FillSlot_success m s s' Hinv Hfill)
    as (i & slot & f & _ & Hid & _ & Hi & Hf & Hinv' & Hslots & _).
  assert (Hi' : slots s' !! i = Some (filled (config s) m false (Some f) slot)).
  { rewrite Hslots. apply list_lookup_insert_eq. exact (lookup_lt_Some _ _ _ Hi). }
  exists (snapshot (filled (config s) m false (Some f) slot)).
  split. { rewrite Hid. apply GetSlot_lookup; [apply Hinv'|exact Hi']. }
  assert (Hzero : forall a, (String.length a =? 0)%nat = String.eqb a "").
  { intros a. destruct a; reflexivity. }
  cbn [snapshot filled models.Id models.Locked models.Switched models.BackendAddr
       models.BackendAddrGroupId models.MigrateFrom models.MigrateFromGroupId
       models.ForwardMethod models.ReplicaGroups slot_id lock_hold slot_switched backend_bc
       backend_id migrate_bc migrate_id slot_method replicaGroups].
  rewrite !Addr_filled, !Hzero.
  split. { destruct Hinv as [[_ Hids] _]. rewrite (Hids i slot Hi). symmetry. exact Hid. }
  repeat (split; [reflexivity|]). split; [symmetry; exact Hf|reflexivity].
Qed.

Lemma FillSlot_GetSlot_witness :
  let s := NewRouter example.cfg in
  let m := example.desc in
  exists got : models.Slot,
    GetSlot (models.Id m) example.router = Some (Some got)
    /\ models.Id got = models.Id m
    /\ models.Locked got = models.Locked m
    /\ models.Switched got = false
    /\ models.BackendAddr got = models.BackendAddr m
    /\ models.BackendAddrGroupId got
       = (if String.eqb (models.BackendAddr m) "" then 0 else models.BackendAddrGroupId m)
    /\ models.MigrateFrom got = models.MigrateFrom m
    /\ models.MigrateFromGroupId got
       = (if String.eqb (models.MigrateFrom m) "" then 0 else models.MigrateFromGroupId m)
    /\ models.ForwardMethod got = models.ForwardMethod m
    /\ models.ReplicaGroups got
       = (if BackendPrimaryOnly (config s) then []
          else filter (fun group => group <> []) (models.ReplicaGroups m)).
Proof.
  apply (FillSlot_GetSlot example.desc (NewRouter example.cfg) example.router).
  - apply NewRouter_inv.
  - vm_compute. reflexivity.
Defined.

(** X17: [FillSlot] touches one slot.  Whatever it returns, every slot but
    the one the descriptor names reads as before through [GetSlot], and the
    flags [online] and [closed] are as before. *)
Theorem FillSlot_touches_one_slot (m : models.Slot) (s s' : Router)
    (err : option RouterError) :
  router_inv s ->
  FillSlot m s = Some (s', err) ->
  (forall j : Z, j <> models.Id m -> GetSlot j s' = GetSlot j s)
  /\ online s' = online s /\ closed s' = closed s.
Proof.
  intros Hinv Hfill.
  destruct err as [e|].
  - assert (s' = s).
    { revert Hfill. unfold FillSlot.
      destruct (closed s); [intros [= <- _]; reflexivity|].
      destruct ((models.Id m <? 0) || (MaxSlotNum <=? models.Id m));
        [intros [= <- _]; reflexivity|].
      destruct (if models.ForwardMethod m =? models.ForwardSync then _ else _);
        [|intros [= <- _]; reflexivity].
      destruct (fillSlot m false _ s); discriminate. }
    subst s'. repeat split.
  - destruct (FillSlot_success m s s' Hinv Hfill)
      as (i & slot & f & _ & Hid & _ & Hi & _ & _ & Hslots & _ & Honline & Hclosed).
    split; [|split; assumption].
    intros j Hj. unfold GetSlot.
    destruct ((j <? 0) || (MaxSlotNum <=? j)); [reflexivity|].
    rewrite Hslots. unfold slot_at. destruct (Z.ltb_spec j 0); [reflexivity|].
    rewrite list_lookup_insert_ne by lia. reflexivity.
Qed.

Lemma FillSlot_touches_one_slot_witness :
  (forall j : Z, j <> models.Id example.desc ->
     GetSlot j example.router = GetSlot j (NewRouter example.cfg))
  /\ online example.router = online (NewRouter example.cfg)
  /\ closed example.router = closed (NewRouter example.cfg).
Proof.
  apply (FillSlot_touches_one_slot example.desc (NewRouter example.cfg) example.router None).
  - apply NewRouter_inv.
  - vm_compute. reflexivity.
Defined.

(** X18: [FillSlot] is idempotent.  A second call with the same descriptor
    returns nil again and leaves the slots and both pools exactly as the
    first call left them: the handles released are retained again, and no
    count drifts. *)
Theorem FillSlot_idempotent (m : models.Slot) (s s1 : Router) :
  router_inv s ->
  FillSlot m s = Some (s1, None) ->
  exists s2 : Router,
    FillSlot m s1 = Some (s2, None)
    /\ slots s2 = slots s1
    /\ pool_primary s2 = pool_primary s1
    /\ pool_replica s2 = pool_replica s1
    /\ online s2 = online s1 /\ closed s2 = closed s1.
Proof.
  intros Hinv Hfill.
  destruct (FillSlot_success m s s1 Hinv Hfill)
    as (i & slot & f & Hopen & Hid & Hrange & Hi & Hf & Hinv1 & Hslots1 & Hconfig1 & _ & Hclosed1).
  destruct (FillSlot_keeps_inv m s1 Hinv1) as (s2 & err & Hfill2 & Hinv2 & _ & Honline2 & Hclosed2).
  destruct err as [e|].
  { exfalso. revert Hfill2. unfold FillSlot.
    rewrite Hclosed1, Hopen.
    destruct (Z.ltb_spec (models.Id m) 0); [lia|].
    destruct (Z.leb_spec MaxSlotNum (models.Id m)); [lia|]. cbn [orb].
    rewrite Hf. destruct f; cbn [GetId];
      change (models.ForwardSync =? models.ForwardSync) with true;
      change (models.ForwardSemiAsync =? models.ForwardSync) with false;
      change (models.ForwardSemiAsync =? models.ForwardSemiAsync) with true; cbv iota;
      destruct (fillSlot m false _ s1); discriminate. }
  destruct (FillSlot_success m s1 s2 Hinv1 Hfill2)
    as (i' & slot' & f' & _ & Hid' & _ & Hi' & Hf' & _ & Hslots2 & _).
  assert (i' = i) by lia. subst i'.
  assert (f' = f).
  { rewrite Hf in Hf'. destruct f, f'; (reflexivity || discriminate Hf'). }
  subst f'.
  assert (Hslot' : slot' = filled (config s) m false (Some f) slot).
  { rewrite Hslots1, list_lookup_insert_eq in Hi' by exact (lookup_lt_Some _ _ _ Hi).
    congruence. }
  assert (Hsame : slots s2 = slots s1).
  { rewrite Hslots2, Hslot', Hconfig1, Hslots1.
    change (filled (config s) m false (Some f) (filled (config s) m false (Some f) slot))
      with (filled (config s) m false (Some f) slot).
    apply list_insert_insert_eq. }
  exists s2. split; [exact Hfill2|]. split; [exact Hsame|].
  destruct Hinv1 as (_ & [Hp1 Hr1] & _), Hinv2 as (_ & [Hp2 Hr2] & _).
  unfold pool_counts in *. rewrite Hsame in Hp2, Hr2.
  split; [exact (counts_unique _ _ _ Hp2 Hp1)|].
  split; [exact (counts_unique _ _ _ Hr2 Hr1)|].
  split; assumption.
Qed.

Lemma FillSlot_idempotent_witness :
  exists s2 : Router,
    FillSlot example.desc example.router = Some (s2, None)
    /\ slots s2 = slots example.router
    /\ pool_primary s2 = pool_primary example.router
    /\ pool_replica s2 = pool_replica example.router
    /\ online s2 = online example.router /\ closed s2 = closed example.router.
Proof.
  apply (FillSlot_idempotent example.desc (NewRouter example.cfg) example.router).
  - apply NewRouter_inv.
  - vm_compute. reflexivity.
Defined.

(** ** Every operation, on every reachable router *)

Lemma Close_keeps_inv (s : Router) :
  router_inv s ->
  exists s' : Router, Close s = Some s' /\ router_inv s' /\ closed s' = true.
Proof.
  intros Hinv. unfold Close. destruct (closed s) eqn:Hclosed.
  - exists s. repeat split; try exact Hclosed; apply Hinv.
  - unfold for_range_slots. cbn [slots].
    set (s1 := {| pool_primary := pool_primary s; pool_replica := pool_replica s;
                  slots := slots s; config := config s; online := online s;
                  closed := true; trace := trace s |}).
    assert (Hinv1 : router_inv s1) by exact Hinv.
    destruct (Close_loop (seq 0 (length (slots s))) s1 Hinv1)
      as (s' & Hrun & Hinv' & _ & _ & Hclosed' & _).
    { apply Forall_forall. intros j Hj%elem_of_seq. cbn [s1 slots]. lia. }
    exists s'. split; [exact Hrun|]. split; [exact Hinv'|exact Hclosed'].
Qed.

Section ReachableRouters.

Variable Request : Type.
Variable getHashKey : Request -> list byte.
Variable Hash : list byte -> N.
Variable forward : Slot -> Request -> option (list byte) -> Slot * option RouterError.

(** Forwarding a request leaves the routing state of the slot as it is
    (what it changes, the requests in flight, is not part of [Slot]). *)
Hypothesis forward_keeps_slot :
  forall (slot : Slot) (r : Request) (hkey : option (list byte)),
    fst (forward slot r hkey) = slot.

Lemma with_slot_same (id : Z) (slot : Slot) (s : Router) :
  slot_at id (slots s) = Some slot -> with_slot id slot s = s.
Proof.
  intros Hat%slot_at_Some. destruct Hat as [_ Hat].
  unfold with_slot. rewrite (list_insert_id _ _ _ Hat). destruct s; reflexivity.
Qed.

Lemma step_keeps_inv (op : Op Request) (s : Router) :
  router_inv s ->
  exists s' : Router,
    step Request getHashKey Hash forward op s = Some s' /\ router_inv s'.
Proof.
  intros Hinv. destruct op as [| |m|masters cache| |r|r id]; cbn [step].
  - exists (Start s). split; [reflexivity|]. unfold Start. destruct (closed s); exact Hinv.
  - destruct (Close_keeps_inv s Hinv) as (s' & -> & Hinv' & _). exists s'. split; [reflexivity|exact Hinv'].
  - destruct (FillSlot_keeps_inv m s Hinv) as (s' & err & -> & Hinv' & _).
    exists s'. split; [reflexivity|exact Hinv'].
  - destruct (SwitchMasters_keeps_inv masters cache s Hinv) as (s' & err & -> & Hinv' & _).
    exists s'. split; [reflexivity|exact Hinv'].
  - exists s. split; [unfold KeepAlive; destruct (closed s); reflexivity|exact Hinv].
  - destruct (dispatch_at Request getHashKey Hash forward r s (proj1 (proj1 Hinv)))
      as (slot & _ & Hat & ->).
    rewrite forward_keeps_slot, (with_slot_same _ slot s Hat).
    exists s. split; [reflexivity|exact Hinv].
  - unfold dispatchSlot.
    destruct (Z.ltb_spec id 0) as [Hlo|Hlo]; cbn [orb];
      [exists s; split; [reflexivity|exact Hinv]|].
    destruct (Z.leb_spec MaxSlotNum id) as [Hhi|Hhi];
      [exists s; split; [reflexivity|exact Hinv]|].
    destruct (slot_in_range s id (proj1 (proj1 Hinv)) ltac:(lia)) as [slot Hat].
    rewrite Hat. pose proof (forward_keeps_slot slot r None) as Hfw.
    destruct (forward slot r None) as [slot' err]. cbn [fst] in Hfw. subst slot'.
    rewrite (with_slot_same _ slot s Hat).
    exists s. split; [reflexivity|exact Hinv].
Qed.

(** X19: the invariant of the router.  Provided that forwarding a
    request leaves the routing fields of the slot alone, starting from a
    router that satisfies the invariant (as a new router does), every
    sequence of [Start], [Close], [FillSlot], [SwitchMasters], [KeepAlive],
    [dispatch] and [dispatchSlot] runs without an index out of range and
    ends in a router where: the array
    has 1024 slots numbered by their index; each pool holds exactly the
    addresses on which some slot holds a handle, with the number of these
    handles as count; and every slot has the shape [fillSlot] gives
    (no handle on an empty address, no group id without a handle, no empty
    replica group). *)
Theorem router_invariant (ops : list (Op Request)) : forall s : Router,
  router_inv s ->
  exists s' : Router,
    run Request getHashKey Hash forward ops s = Some s' /\ router_inv s'.
Proof.
  induction ops as [|op ops IH]; intros s Hinv; cbn [run].
  - exists s. split; [reflexivity|exact Hinv].
  - destruct (step_keeps_inv op s Hinv) as (s1 & -> & Hinv1). exact (IH s1 Hinv1).
Qed.

End ReachableRouters.

Lemma router_invariant_witness :
  exists s' : Router,
    run example.Request example.getHashKey example.Hash example.forward
      [OpStart _; OpFillSlot _ example.desc;
       OpSwitchMasters _ {[ 1 := "10.0.0.2"%string ]} example.unknown;
       OpDispatch _ [bytes "GET"; bytes "foo"]; OpClose _]
      (NewRouter example.cfg) = Some s'
    /\ router_inv s'.
Proof.
  apply (router_invariant example.Request example.getHashKey example.Hash example.forward).
  - intros slot r hkey. reflexivity.
  - apply NewRouter_inv.
Defined.

(** ** [dispatchSlot] and the snapshots *)

Section DispatchSlot.

Variable Request : Type.
Variable forward : Slot -> Request -> option (list byte) -> Slot * option RouterError.

(** X20: [dispatchSlot] checks the slot id it is given.  With an id
    outside [0, 1024) it returns [ErrInvalidSlotId] and forwards nothing;
    with an id inside, it hands the request, with a nil hash key, to the
    [forward] of exactly that slot and returns what it returns, every other
    slot being left as it is. *)
Theorem dispatchSlot_checks_id (r : Request) (id : Z) (s : Router) :
  full_array s ->
  (~ (0 <= id < 1024) -> dispatchSlot Request forward r id s = Some (s, Some ErrInvalidSlotId))
  /\ (0 <= id < 1024 ->
      exists (slot : Slot) (s' : Router),
        slot_at id (slots s) = Some slot
        /\ dispatchSlot Request forward r id s = Some (s', snd (forward slot r None))
        /\ slot_at id (slots s') = Some (fst (forward slot r None))
        /\ (forall j : Z, j <> id -> slot_at j (slots s') = slot_at j (slots s))
        /\ online s' = online s /\ closed s' = closed s).
Proof.
  intros Hlen. unfold dispatchSlot. split.
  - intros Hout.
    destruct (Z.ltb_spec id 0); cbn [orb]; [reflexivity|].
    destruct (Z.leb_spec MaxSlotNum id) as [|Hhi]; [reflexivity|].
    unfold MaxSlotNum in Hhi. lia.
  - intros Hin.
    destruct (Z.ltb_spec id 0); [lia|]. cbn [orb].
    destruct (Z.leb_spec MaxSlotNum id) as [Hhi|_]; [unfold MaxSlotNum in Hhi; lia|].
    destruct (slot_in_range s id Hlen Hin) as [slot Hat]. rewrite Hat.
    exists slot, (with_slot id (fst (forward slot r None)) s).
    split; [reflexivity|]. split; [destruct (forward slot r None); reflexivity|].
    split.
    { cbn [with_slot slots]. apply slot_at_Some. split; [lia|].
      apply list_lookup_insert_eq. apply slot_at_Some in Hat as [_ Hat].
      exact (lookup_lt_Some _ _ _ Hat). }
    split; [|split; reflexivity].
    intros j Hj. cbn [with_slot slots]. apply slot_at_insert_ne; lia.
Qed.

End DispatchSlot.

Lemma dispatchSlot_checks_id_witness :
  let r : example.Request := [bytes "SLOTSINFO"] in
  (~ (0 <= 0 < 1024) ->
     dispatchSlot example.Request example.forward r 0 example.router
     = Some (example.router, Some ErrInvalidSlotId))
  /\ (0 <= 0 < 1024 ->
      exists (slot : Slot) (s' : Router),
        slot_at 0 (slots example.router) = Some slot
        /\ dispatchSlot example.Request example.forward r 0 example.router
           = Some (s', snd (example.forward slot r None))
        /\ slot_at 0 (slots s') = Some (fst (example.forward slot r None))
        /\ (forall j : Z, j <> 0 -> slot_at j (slots s') = slot_at j (slots example.router))
        /\ online s' = online example.router /\ closed s' = closed example.router).
Proof.
  apply (dispatchSlot_checks_id example.Request example.forward [bytes "SLOTSINFO"] 0
           example.router).
  exact (proj1 example_router_wf).
Defined.

(** X21: [GetSlots] and [GetSlot] agree.  On a well-formed router
    [GetSlots] returns 1024 descriptors, the one at index [id] being what
    [GetSlot(id)] returns and carrying the id [id]; [GetSlot] returns nil for
    every id outside [0, 1024). *)
Theorem GetSlots_GetSlot (s : Router) :
  wf_router s ->
  length (GetSlots s) = 1024%nat
  /\ (forall id : Z, 0 <= id < 1024 ->
        exists m : models.Slot,
          GetSlot id s = Some (Some m)
          /\ GetSlots s !! Z.to_nat id = Some m
          /\ models.Id m = id)
  /\ (forall id : Z, ~ (0 <= id < 1024) -> GetSlot id s = Some None).
Proof.
  intros [Hlen Hids]. split; [|split].
  - unfold GetSlots. rewrite length_map. exact Hlen.
  - intros id Hid.
    destruct (lookup_lt_is_Some_2 (slots s) (Z.to_nat id)) as [slot Hslot].
    { unfold full_array in Hlen. rewrite Hlen. unfold MaxSlotNum. lia. }
    exists (snapshot slot). split; [|split].
    + rewrite <- (Z2Nat.id id) at 1 by lia. apply GetSlot_lookup; assumption.
    + unfold GetSlots. change (map snapshot (slots s)) with (snapshot <$> slots s).
      rewrite list_lookup_fmap, Hslot. reflexivity.
    + cbn [snapshot models.Id]. rewrite (Hids _ _ Hslot). lia.
  - intros id Hid. unfold GetSlot.
    destruct (Z.ltb_spec id 0); cbn [orb]; [reflexivity|].
    destruct (Z.leb_spec MaxSlotNum id) as [|Hhi]; [reflexivity|].
    unfold MaxSlotNum in Hhi. lia.
Qed.

Lemma GetSlots_GetSlot_witness :
  length (GetSlots example.router) = 1024%nat
  /\ (forall id : Z, 0 <= id < 1024 ->
        exists m : models.Slot,
          GetSlot id example.router = Some (Some m)
          /\ GetSlots example.router !! Z.to_nat id = Some m
          /\ models.Id m = id)
  /\ (forall id : Z, ~ (0 <= id < 1024) -> GetSlot id example.router = Some None).
Proof.
  apply (GetSlots_GetSlot example.router). exact example_router_wf.
Defined.

(** ** The tuning of [GOMAXPROCS] *)

(** The sampling loop: what [less] and [more] say about the readings. *)
Lemma usage_loop_spec (min max ncpu : Z) (reading : nat -> Reading) (todo : nat) :
  forall (i : nat) (less : Z),
    let out := usage_loop min max ncpu reading i todo less 0 in
    less <= fst out <= less + Z.of_nat todo
    /\ 0 <= snd out
    /\ (snd out <> 0 ->
        ncpu < max /\ exists j : nat, (i <= j < i + todo)%nat /\ reading j = Above70)
    /\ (fst out = less + Z.of_nat todo ->
        ((0 < todo)%nat -> min < ncpu)
        /\ forall j : nat, (i <= j < i + todo)%nat -> reading j = Below30).
Proof.
  induction todo as [|todo IH]; intros i less; cbn [usage_loop].
  - cbn [fst snd]. repeat split; try lia.
  - change (negb (0 =? 0)) with false. cbv iota.
    assert (Hskip :
      forall l m : Z,
        usage_loop min max ncpu reading (S i) todo less 0 = (l, m) ->
        reading i <> Below30 \/ ~ min < ncpu ->
        less <= l <= less + Z.of_nat (S todo)
        /\ 0 <= m
        /\ (m <> 0 ->
            ncpu < max /\ exists j : nat, (i <= j < i + S todo)%nat /\ reading j = Above70)
        /\ (l = less + Z.of_nat (S todo) ->
            ((0 < S todo)%nat -> min < ncpu)
            /\ forall j : nat, (i <= j < i + S todo)%nat -> reading j = Below30)).
    { intros l m Hout Hnot.
      pose proof (IH (S i) less) as Hrec. cbv zeta in Hrec. rewrite Hout in Hrec.
      cbn [fst snd] in Hrec. destruct Hrec as (Hl & Hm & Hmore & Hless).
      split; [lia|]. split; [exact Hm|]. split.
      - intros Hne. destruct (Hmore Hne) as (Hmax & j & Hj & Hr).
        split; [exact Hmax|]. exists j. split; [lia|exact Hr].
      - intros Hall. lia. }
    destruct (reading i) eqn:Hr.
    + destruct (usage_loop min max ncpu reading (S i) todo less 0) as [l m] eqn:Hout.
      cbn [fst snd]. apply (Hskip l m eq_refl). left. discriminate.
    + destruct (Z.ltb_spec min ncpu) as [Hmin|Hmin].
      * pose proof (IH (S i) (less + 1)) as Hrec. cbv zeta in Hrec.
        destruct (usage_loop min max ncpu reading (S i) todo (less + 1) 0) as [l m].
        cbn [fst snd] in *. destruct Hrec as (Hl & Hm & Hmore & Hless).
        split; [lia|]. split; [exact Hm|]. split.
        -- intros Hne. destruct (Hmore Hne) as (Hmax & j & Hj & Hrj).
           split; [exact Hmax|]. exists j. split; [lia|exact Hrj].
        -- intros Hall. split; [intros _; exact Hmin|].
           intros j Hj. destruct (decide (j = i)) as [->|Hne]; [exact Hr|].
           apply Hless; lia.
      * destruct (usage_loop min max ncpu reading (S i) todo less 0) as [l m] eqn:Hout.
        cbn [fst snd]. apply (Hskip l m eq_refl). right. lia.
    + destruct (Z.ltb_spec ncpu max) as [Hmax|Hmax].
      * destruct todo as [|todo']; cbn [usage_loop].
        -- cbn [fst snd]. split; [lia|]. split; [lia|]. split.
           ++ intros _. split; [exact Hmax|]. exists i. split; [lia|exact Hr].
           ++ intros Hall. lia.
        -- change (negb (0 + 1 =? 0)) with true. cbv iota. cbn [fst snd].
           split; [lia|]. split; [lia|]. split.
           ++ intros _. split; [exact Hmax|]. exists i. split; [lia|exact Hr].
           ++ intros Hall. lia.
      * destruct (usage_loop min max ncpu reading (S i) todo less 0) as [l m] eqn:Hout.
        cbn [fst snd]. apply (Hskip l m eq_refl). left. discriminate.
    + destruct (usage_loop min max ncpu reading (S i) todo less 0) as [l m] eqn:Hout.
      cbn [fst snd]. apply (Hskip l m eq_refl). left. discriminate.
Qed.

(** X22: one round of [AutoGOMAXPROCS(min, max)] keeps the number of
    processors between [min] and [max].  It raises it only when a reading
    of the round was above 0.70, and then by a quarter of the distance to
    [max], rounded up; it lowers it only when all ten readings were below
    0.30 (and none failed), and then by one. *)
Theorem AutoGOMAXPROCS_round_bounds (min max ncpu : Z) (reading : nat -> Reading) :
  0 <= min <= ncpu ->
  ncpu <= max < 2 ^ 62 ->
  let nn := AutoGOMAXPROCS_round min max ncpu reading in
  min <= nn <= max
  /\ (ncpu < nn ->
      nn = ncpu + (max - ncpu + 3) / 4
      /\ exists j : nat, (j < 10)%nat /\ reading j = Above70)
  /\ (nn < ncpu ->
      nn = ncpu - 1 /\ forall j : nat, (j < 10)%nat -> reading j = Below30).
Proof.
  intros Hmin Hmax nn. subst nn. unfold AutoGOMAXPROCS_round.
  pose proof (usage_loop_spec min max ncpu reading 10 0 0) as Hspec. cbv zeta in Hspec.
  destruct (usage_loop min max ncpu reading 0 10 0 0) as [less more].
  cbn [fst snd] in Hspec. destruct Hspec as (Hless & Hmore & Hup & Hdown).
  assert (H62 : 2 ^ 62 = 4611686018427387904) by reflexivity.
  assert (H63 : 2 ^ 63 = 9223372036854775808) by reflexivity.
  destruct (Z.eqb_spec more 0) as [Hzero|Hnz]; cbn [negb].
  - destruct (Z.eqb_spec less 10) as [Hten|Hnot].
    + destruct (Hdown ltac:(lia)) as [Hlow Hall].
      rewrite wrap64_small by lia.
      split; [lia|]. split; [lia|]. intros _. split; [reflexivity|].
      intros j Hj. apply Hall. lia.
    + split; [lia|]. split; lia.
  - destruct (Hup Hnz) as (Hroom & j & Hj & Hr).
    rewrite (wrap64_small (max - ncpu)) by lia.
    rewrite (wrap64_small (max - ncpu + 3)) by lia.
    rewrite Z.quot_div_nonneg by lia.
    assert (Hq : 1 <= (max - ncpu + 3) / 4 <= max - ncpu).
    { split.
      - apply Z.div_le_lower_bound; lia.
      - apply Z.div_le_upper_bound; lia. }
    rewrite wrap64_small by lia.
    split; [lia|]. split; [|lia].
    intros _. split; [reflexivity|]. exists j. split; [lia|exact Hr].
Qed.

Lemma AutoGOMAXPROCS_round_bounds_witness :
  let reading := fun i : nat => if (i =? 3)%nat then Above70 else Between in
  let nn := AutoGOMAXPROCS_round 4 16 4 reading in
  4 <= nn <= 16
  /\ (4 < nn ->
      nn = 4 + (16 - 4 + 3) / 4
      /\ exists j : nat, (j < 10)%nat /\ reading j = Above70)
  /\ (nn < 4 ->
      nn = 4 - 1 /\ forall j : nat, (j < 10)%nat -> reading j = Below30).
Proof.
  apply (AutoGOMAXPROCS_round_bounds 4 16 4
           (fun i : nat => if (i =? 3)%nat then Above70 else Between)); lia.
Defined.
